(** * KeyValueArray: the open-addressing string map of [map.c]

    A shallow embedding of [src/MapA1/map.c] and the properties of its
    hash function, probe loops, tombstones and rehash ("optimize").

    Conventions of the embedding
    - [unsigned int] values are [Z] in [0, 2^32) with the wrap-around
      [u32] written where the source computes; [int] results go through
      [s32]; [int64_t] values are [Z] in [-2^63, 2^63) with [s64].
    - [const char*] is [cstr]: [None] is the null pointer, [Some s] points
      to the text [s] (the characters before the terminating NUL), so
      [strcmp(a, b) == 0] is equality of texts. The map keeps the
      pointers it is given; the texts they point to do not change.
    - the slot array [entries] is a list; a read or write outside of it
      is undefined behaviour and makes the operation return [None].
    - [malloc] succeeds; the array it gives holds the whole slots of the
      byte count it is asked for, which [map.c] computes in
      [unsigned int].
    - every C function takes the state it works on and returns the state
      it leaves. *)

From Stdlib Require Import ZArith Lia Ascii String.
From stdpp Require Import base list strings pretty.

Local Open Scope Z_scope.

(* ================================================================== *)
(** ** Machine integers *)

Definition u32 (z : Z) : Z := z mod 2 ^ 32.
Definition s32 (z : Z) : Z := (z + 2 ^ 31) mod 2 ^ 32 - 2 ^ 31.
Definition u64 (z : Z) : Z := z mod 2 ^ 64.
Definition s64 (z : Z) : Z := (z + 2 ^ 63) mod 2 ^ 64 - 2 ^ 63.

(* ================================================================== *)
(** ** The hash function *)

(** A [char] read from memory: the byte, sign-extended. *)
Definition schar (a : ascii) : Z :=
  let b := Z.of_N (N_of_ascii a) in
  if b <? 128 then b else b - 256.

Definition FNV_BASIS : Z := 0xCBF29CE484222325.
Definition FNV_PRIME : Z := 1099511628211.
Definition SIGN_BIT  : Z := 0x8000000000000000.

(** The [while (c != 0)] loop of [fnv1_hash]. The pointer [text + i] is
    the suffix [p] of the text that starts at index [i]; reading at the
    end of the text yields the terminating NUL. The multiplication
    wraps around in 64 bits. *)
Fixpoint fnv1_loop (p : string) (hash : Z) (c : Z) {struct p} : Z :=
  if c =? 0 then hash
  else
    let hash := Z.lxor hash (Z.land c 0xFF) in
    let hash := s64 (hash * FNV_PRIME) in
    match p with
    | EmptyString => hash
    | String a p' => fnv1_loop p' hash (schar a)
    end.

Definition fnv1_hash (text : string) : Z :=
  let hash := s64 FNV_BASIS in
  let hash :=
    match text with
    | EmptyString => hash
    | String a p => fnv1_loop p hash (schar a)
    end in
  s64 (Z.lor (u64 hash) SIGN_BIT).

(** The hash as the specification words it: the bytes of the text up to
    the terminator, folded from the basis with "XOR the byte, then
    multiply by the prime", and the sign bit set at the end. *)
Fixpoint text_bytes (text : string) : list Z :=
  match text with
  | EmptyString => []
  | String a t =>
      let b := Z.of_N (N_of_ascii a) in
      if b =? 0 then [] else b :: text_bytes t
  end.

Definition fnv1_spec_step (h b : Z) : Z := s64 (Z.lxor h b * FNV_PRIME).

Definition set_sign_bit (h : Z) : Z := if h <? 0 then h else h - 2 ^ 63.

Definition fnv1_spec (text : string) : Z :=
  set_sign_bit (fold_left fnv1_spec_step (text_bytes text) (s64 FNV_BASIS)).


(* ================================================================== *)
(** ** Data model *)

(** [const char*]: the null pointer or a pointer to a text. *)
Definition cstr : Type := option string.

(** Modelled from the spec: [map.h], which declares the result codes, is
    not among the sources. The codes are the ones [map.c] returns; [OK]
    is the zero code that [map_optimize] compares against. *)
Inductive status : Type :=
  | OK
  | NULL_POINTER
  | NOT_INITIALIZED
  | KEY_EXISTS
  | NO_KEY_EXISTS
  | REQUIRES_OPTIMIZATION
  | SYS_ERROR
  | ERR_NOT_IMPLEMENTED.

(** Modelled from the spec: the declaration of [map_entry_t] is in the
    absent [map.h]; the fields are the ones [map.c] reads and writes. A
    slot with [hash = 0] was never written; a slot with a non-zero hash
    and a null key is a tombstone. *)
Module Entry.
Record map_entry_t : Type := Build {
  hash : Z;
  key : cstr;
  value : cstr
}.
End Entry.
Abbreviation map_entry_t := Entry.map_entry_t.

(** Modelled from the spec: the declaration of [map_t] is in the absent
    [map.h]. The counters are taken as [unsigned int], the type of the
    locals [map.c] copies them to. [entries] is the slot array the
    pointer refers to; the null pointer is the empty array. *)
Module Map.
Record map_t : Type := Build {
  magic : Z;
  capacity : Z;
  size : Z;
  allocated : Z;
  entries : list map_entry_t
}.
End Map.
Abbreviation map_t := Map.map_t.

Definition MIN_EMPTY_SLOTS : Z := Z.shiftl 1 3.
Definition MAGIC : Z := 0x1234567890123456.

(** A zeroed slot, as [memset] leaves it. *)
Definition zero_entry : map_entry_t :=
  {| Entry.hash := 0; Entry.key := None; Entry.value := None |}.

(** Modelled from the spec: [sizeof(map_entry_t)] comes from the
    declaration in the absent [map.h]. A slot is a 64-bit hash and two
    references, 24 bytes where a pointer has 64 bits. *)
Definition sizeof_map_entry_t : Z := 24.

(** [memset(malloc(bytes), 0, bytes)]: the allocation is taken to succeed,
    and the array it gives has the whole slots that [bytes] bytes hold. A
    slot beyond them is outside the array. *)
Definition calloc_entries (bytes : Z) : list map_entry_t :=
  replicate (Z.to_nat (bytes / sizeof_map_entry_t)) zero_entry.

(* ================================================================== *)
(** ** Internal operations *)

(** The probe loop of [map_set]: [i] is the slot looked at, [l] the
    number of iterations left. *)
Fixpoint map_set_loop (self : map_t) (key : string) (val : cstr) (hash : Z)
    (override : Z) (mask : Z) (i : Z) (l : nat) {struct l}
    : option (status * map_t) :=
  match l with
  | O => Some (REQUIRES_OPTIMIZATION, self)
  | S l' =>
      entry ← Map.entries self !! Z.to_nat i;
      if Entry.hash entry =? 0 then
        Some (OK,
          {| Map.magic := Map.magic self;
             Map.capacity := Map.capacity self;
             Map.size := u32 (Map.size self + 1);
             Map.allocated := u32 (Map.allocated self + 1);
             Map.entries :=
               <[Z.to_nat i :=
                  {| Entry.hash := hash; Entry.key := Some key;
                     Entry.value := val |}]> (Map.entries self) |})
      else if Entry.hash entry =? hash then
        match Entry.key entry with
        | None =>
            Some (OK,
              {| Map.magic := Map.magic self;
                 Map.capacity := Map.capacity self;
                 Map.size := u32 (Map.size self + 1);
                 Map.allocated := Map.allocated self;
                 Map.entries :=
                   <[Z.to_nat i :=
                      {| Entry.hash := Entry.hash entry;
                         Entry.key := Some key;
                         Entry.value := val |}]> (Map.entries self) |})
        | Some ekey =>
            if String.eqb ekey key then
              if override =? 0 then Some (KEY_EXISTS, self)
              else
                Some (OK,
                  {| Map.magic := Map.magic self;
                     Map.capacity := Map.capacity self;
                     Map.size := Map.size self;
                     Map.allocated := Map.allocated self;
                     Map.entries :=
                       <[Z.to_nat i :=
                          {| Entry.hash := Entry.hash entry;
                             Entry.key := Entry.key entry;
                             Entry.value := val |}]> (Map.entries self) |})
            else
              map_set_loop self key val hash override mask
                (Z.land (u32 (i + 1)) mask) l'
        end
      else
        map_set_loop self key val hash override mask
          (Z.land (u32 (i + 1)) mask) l'
  end.

(** [key] is a text: both callers pass a pointer they have tested
    against null. *)
Definition map_set (self : map_t) (key : string) (val : cstr) (hash : Z)
    (override : Z) : option (status * map_t) :=
  let length := Map.capacity self in
  let mask := u32 (length - 1) in
  let i := u32 (Z.land hash mask) in
  map_set_loop self key val hash override mask i (Z.to_nat length).

(** The probe loop of [map_indexOf]; the result is the [int] returned. *)
Fixpoint map_indexOf_loop (entries : list map_entry_t) (key : string)
    (hash : Z) (mask : Z) (i : Z) (l : nat) {struct l} : option Z :=
  match l with
  | O => Some (-1)
  | S l' =>
      entry ← entries !! Z.to_nat i;
      if Entry.hash entry =? 0 then Some (-1)
      else if (Entry.hash entry =? hash)
           && match Entry.key entry with
              | Some ekey => String.eqb ekey key
              | None => false
              end
      then Some (s32 i)
      else map_indexOf_loop entries key hash mask
             (Z.land (u32 (i + 1)) mask) l'
  end.

Definition map_indexOf (self : map_t) (key : string) (hash : Z) : option Z :=
  let length := Map.capacity self in
  let mask := u32 (length - 1) in
  let i := u32 (Z.land hash mask) in
  map_indexOf_loop (Map.entries self) key hash mask i (Z.to_nat length).

(** [while (newLength < minNewSize) newLength <<= 1]. The shift wraps to
    [0] after 2^31, and from [0] the loop never ends: [None]. *)
Fixpoint grow (fuel : nat) (newLength minNewSize : Z) : option Z :=
  if newLength <? minNewSize then
    match fuel with
    | O => None
    | S fuel' => grow fuel' (u32 (Z.shiftl newLength 1)) minNewSize
    end
  else Some newLength.

(** The re-insertion loop of [map_optimize]: [oldEntry] is the rest of
    the old array from the slot the pointer is at, [n] the number of
    iterations left. *)
Fixpoint readd (self : map_t) (oldEntry : list map_entry_t) (n : nat)
    {struct n} : option (status * map_t) :=
  match n with
  | O => Some (OK, self)
  | S n' =>
      match oldEntry with
      | [] => None
      | e :: rest =>
          match Entry.key e with
          | Some k =>
              '(r, self') ← map_set self k (Entry.value e) (Entry.hash e) 0;
              match r with
              | OK => readd self' rest n'
              | _ => Some (SYS_ERROR, self')
              end
          | None => readd self rest n'
          end
      end
  end.

Definition map_optimize (self : map_t) : option (status * map_t) :=
  let oldLength := Map.capacity self in
  let oldSize := Map.size self in
  let oldEntries := Map.entries self in
  let minNewSize := u32 (oldSize + MIN_EMPTY_SLOTS) in
  newLength ← grow 32 MIN_EMPTY_SLOTS minNewSize;
  let bytes := u32 (sizeof_map_entry_t * newLength) in
  let self1 :=
    {| Map.magic := Map.magic self;
       Map.capacity := newLength;
       Map.allocated := 0;
       Map.size := 0;
       Map.entries := calloc_entries bytes |} in
  readd self1 oldEntries (Z.to_nat oldLength).

(* ================================================================== *)
(** ** Public operations

    [self] is [None] for the null pointer and [Some m] for a pointer to
    a map whose fields are [m]. *)

Definition map_init (self : option map_t) : option map_t :=
  match self with
  | None => None
  | Some _ =>
      let bytes := u32 (sizeof_map_entry_t * MIN_EMPTY_SLOTS) in
      Some {| Map.magic := MAGIC;
              Map.capacity := MIN_EMPTY_SLOTS;
              Map.size := 0;
              Map.allocated := 0;
              Map.entries := calloc_entries bytes |}
  end.

(** The test of the [if] in [map_put] that runs [map_optimize]. *)
Definition put_optimizes (m : map_t) : bool :=
  Map.allocated m >=? Map.capacity m.

Definition map_put (self : option map_t) (key val : cstr)
    : option (status * option map_t) :=
  match self, key with
  | Some m, Some k =>
      if negb (Map.magic m =? MAGIC) then Some (NOT_INITIALIZED, self)
      else
        let hash := fnv1_hash k in
        i ← map_indexOf m k hash;
        if i >=? 0 then Some (KEY_EXISTS, self)
        else
          m1 ← (if put_optimizes m
                then snd <$> map_optimize m
                else Some m);
          '(r, m2) ← map_set m1 k val hash 0;
          Some (r, Some m2)
  | _, _ => Some (NULL_POINTER, self)
  end.

Definition map_get (self : option map_t) (key : cstr)
    : option (cstr * option map_t) :=
  match self, key with
  | Some m, Some k =>
      if negb (Map.magic m =? MAGIC) then Some (None, self)
      else
        let hash := fnv1_hash k in
        i ← map_indexOf m k hash;
        if i <? 0 then Some (None, self)
        else
          entry ← Map.entries m !! Z.to_nat i;
          Some (Entry.value entry, self)
  | _, _ => Some (None, self)
  end.

Definition map_size (self : option map_t) : Z * option map_t :=
  match self with
  | Some m =>
      if negb (Map.magic m =? MAGIC) then (0, self)
      else (s32 (Map.size m), self)
  | None => (0, self)
  end.

Definition map_remove (self : option map_t) (key : cstr)
    : option (status * option map_t) :=
  match self, key with
  | Some m, Some k =>
      if negb (Map.magic m =? MAGIC) then Some (NOT_INITIALIZED, self)
      else
        let hash := fnv1_hash k in
        i ← map_indexOf m k hash;
        if i >=? 0 then
          entry ← Map.entries m !! Z.to_nat i;
          Some (OK,
            Some {| Map.magic := Map.magic m;
                    Map.capacity := Map.capacity m;
                    Map.size := u32 (Map.size m - 1);
                    Map.allocated := Map.allocated m;
                    Map.entries :=
                      <[Z.to_nat i :=
                         {| Entry.hash := Entry.hash entry;
                            Entry.key := None;
                            Entry.value := Entry.value entry |}]>
                        (Map.entries m) |})
        else Some (NO_KEY_EXISTS, self)
  | _, _ => Some (NULL_POINTER, self)
  end.

Definition map_destroy (self : option map_t) : option map_t :=
  match self with
  | None => None
  | Some m =>
      if negb (Map.magic m =? MAGIC) then self
      else
        Some {| Map.magic := 0;
                Map.capacity := Map.capacity m;
                Map.size := Map.size m;
                Map.allocated := Map.allocated m;
                Map.entries := [] |}
  end.

(* ================================================================== *)
(** ** Sequences of public operations *)

Inductive op : Type :=
  | Put (key val : cstr)
  | Get (key : cstr)
  | Size
  | Remove (key : cstr).

(** The state an operation leaves: [None] when it has no defined
    result. *)
Definition run_op (o : op) (self : option map_t) : option (option map_t) :=
  match o with
  | Put key val => snd <$> map_put self key val
  | Get key => snd <$> map_get self key
  | Size => Some (snd (map_size self))
  | Remove key => snd <$> map_remove self key
  end.

Fixpoint run (ops : list op) (self : option map_t) : option (option map_t) :=
  match ops with
  | [] => Some self
  | o :: ops' => self' ← run_op o self; run ops' self'
  end.

(** An initialized map: what [map_init] produces, and what the public
    operations make of it. *)
Inductive initialized : map_t -> Prop :=
  | initialized_init (s m : map_t) :
      map_init (Some s) = Some m -> initialized m
  | initialized_step (o : op) (m m' : map_t) :
      initialized m -> run_op o (Some m) = Some (Some m') -> initialized m'.

(** Puts in a row: the codes they return and the state they leave. *)
Fixpoint put_all (kvs : list (string * cstr)) (self : option map_t)
    : option (list status * option map_t) :=
  match kvs with
  | [] => Some ([], self)
  | (k, v) :: kvs' =>
      '(r, self1) ← map_put self (Some k) v;
      '(rs, self2) ← put_all kvs' self1;
      Some (r :: rs, self2)
  end.

(** *** A worked example *)

(** The memory of a map before [map_init]. *)
Definition blank : map_t :=
  {| Map.magic := 0; Map.capacity := 0; Map.size := 0; Map.allocated := 0;
     Map.entries := [] |}.

Definition state_of (r : option (option map_t)) : map_t :=
  match r with
  | Some (Some m) => m
  | _ => blank
  end.

Definition demo_kvs : list (string * cstr) :=
  [("a", Some "1"); ("b", Some "2"); ("c", Some "3"); ("d", Some "4");
   ("e", Some "5"); ("f", Some "6"); ("g", Some "7"); ("h", Some "8")]%string.

(** Eight more puts, the last of which finds every slot written and
    rehashes, and a remove. *)
Definition demo_more : list op :=
  ((fun kv : string * cstr => Put (Some kv.1) kv.2) <$> drop 1 demo_kvs)
  ++ [Put (Some "i") (Some "9"); Remove (Some "c")]%string.

Definition demo_ops : list op :=
  [Put (Some "b") (Some "2"); Put (Some "c") (Some "3");
   Put (Some "a") (Some "9"); Remove (Some "b"); Get (Some "c"); Size]%string.

(** After [map_init]. *)
Definition demo0 : map_t :=
  Eval vm_compute in state_of (Some (map_init (Some blank))).

(** After the put of ["a"]. *)
Definition demo1 : map_t :=
  Eval vm_compute in
    state_of (snd <$> map_put (Some demo0) (Some "a"%string) (Some "1"%string)).

(** After [demo_more]: rehashed to capacity 16. *)
Definition demo9 : map_t :=
  Eval vm_compute in state_of (run demo_more (Some demo1)).

(** After [demo_ops]: two live keys and the tombstone of ["b"]. *)
Definition demo2 : map_t :=
  Eval vm_compute in state_of (run demo_ops (Some demo1)).

(** After [map_optimize] on [demo2]. *)
Definition demo3 : map_t :=
  Eval vm_compute in state_of (Some <$> (snd <$> map_optimize demo2)).

(** After the first seven puts of [demo_kvs]. *)
Definition demo7 : map_t :=
  Eval vm_compute in
    state_of (snd <$> put_all (take 7 demo_kvs) (map_init (Some blank))).

(** After the eighth. *)
Definition demo8 : map_t :=
  Eval vm_compute in
    state_of (snd <$> put_all demo_kvs (map_init (Some blank))).

(* ================================================================== *)
(** ** Invariants of the data model *)

Definition live (e : map_entry_t) : bool :=
  match Entry.key e with Some _ => true | None => false end.

Definition used (e : map_entry_t) : bool := negb (Entry.hash e =? 0).

Definition tombstone (e : map_entry_t) : bool := used e && negb (live e).

Fixpoint count (p : map_entry_t -> bool) (es : list map_entry_t) : nat :=
  match es with
  | [] => O
  | e :: es' => ((if p e then 1 else 0) + count p es')%nat
  end.

(** A live slot is well placed when the probe for its key, from its
    stored hash, ends at that slot. *)
Definition well_placed (m : map_t) : Prop :=
  forall (j : nat) (e : map_entry_t) (k : string),
    Map.entries m !! j = Some e -> Entry.key e = Some k ->
    map_indexOf m k (Entry.hash e) = Some (Z.of_nat j).

Definition is_pow2 (c : Z) : Prop := exists n, 0 <= n /\ c = 2 ^ n.

(** The capacity invariant. *)
Definition capacity_ok (m : map_t) : Prop :=
  is_pow2 (Map.capacity m) /\ 8 <= Map.capacity m /\
  0 <= Map.size m <= Map.allocated m /\
  Map.allocated m <= Map.capacity m.

Record wf (m : map_t) : Prop := {
  wf_capacity : exists n, 3 <= n <= 31 /\ Map.capacity m = 2 ^ n;
  wf_length : length (Map.entries m) = Z.to_nat (Map.capacity m);
  wf_placed : well_placed m;
  wf_size : Map.size m = Z.of_nat (count live (Map.entries m));
  wf_allocated : Map.allocated m = Z.of_nat (count used (Map.entries m))
}.

(** The stored hash of a live slot is the hash of its key. *)
Definition hashed (m : map_t) : Prop :=
  forall (j : nat) (e : map_entry_t) (k : string),
    Map.entries m !! j = Some e -> Entry.key e = Some k ->
    Entry.hash e = fnv1_hash k.

Definition map_inv (m : map_t) : Prop :=
  Map.magic m = MAGIC /\ wf m /\ hashed m.

(** The array [map_optimize] asks for has at most 2^27 slots, so that
    its byte count is within [unsigned int]. *)
Definition fits (m : map_t) : Prop := Map.size m + MIN_EMPTY_SLOTS <= 2 ^ 27.

(** Some slot of [es] holds the live entry [(h, k, v)]. *)
Definition holds (es : list map_entry_t) (k : string) (h : Z) (v : cstr)
    : Prop :=
  exists (j : nat) (e : map_entry_t),
    es !! j = Some e /\ Entry.hash e = h /\ Entry.key e = Some k /\
    Entry.value e = v.

Definition contains (m : map_t) (k : string) : Prop :=
  exists h v, holds (Map.entries m) k h v.

(** What one slot means to a lookup of [(key, hash)]. *)
Inductive probe : Type := Stop | Hit | Next.

Definition look (key : string) (hash : Z) (e : map_entry_t) : probe :=
  if Entry.hash e =? 0 then Stop
  else if (Entry.hash e =? hash)
       && match Entry.key e with
          | Some ekey => String.eqb ekey key
          | None => false
          end
  then Hit else Next.

(** A slot [map_set] may claim for [(key, hash)]. *)
Definition claimable (hash : Z) (e : map_entry_t) : Prop :=
  Entry.hash e = 0 \/ (Entry.hash e = hash /\ Entry.key e = None).

(** The map after [map_set] has claimed slot [t], which held [e]. *)
Definition placed (m : map_t) (t : Z) (e : map_entry_t) (key : string)
    (val : cstr) (hash : Z) : map_t :=
  {| Map.magic := Map.magic m;
     Map.capacity := Map.capacity m;
     Map.size := u32 (Map.size m + 1);
     Map.allocated :=
       if Entry.hash e =? 0 then u32 (Map.allocated m + 1)
       else Map.allocated m;
     Map.entries :=
       <[Z.to_nat t :=
          {| Entry.hash := hash; Entry.key := Some key;
             Entry.value := val |}]> (Map.entries m) |}.

(** The map after [map_remove] has turned slot [i], which held [e],
    into a tombstone. *)
Definition removed (m : map_t) (i : Z) (e : map_entry_t) : map_t :=
  {| Map.magic := Map.magic m;
     Map.capacity := Map.capacity m;
     Map.size := u32 (Map.size m - 1);
     Map.allocated := Map.allocated m;
     Map.entries :=
       <[Z.to_nat i :=
          {| Entry.hash := Entry.hash e; Entry.key := None;
             Entry.value := Entry.value e |}]> (Map.entries m) |}.

(** No slot of the map is a tombstone. *)
Definition clean (m : map_t) : Prop :=
  forall (j : nat) (e : map_entry_t),
    Map.entries m !! j = Some e -> Entry.key e = None -> Entry.hash e = 0.

(** The live slots of [es] hold pairwise different (hash, key) pairs. *)
Definition distinct (es : list map_entry_t) : Prop :=
  forall (i i' : nat) (e e' : map_entry_t) (k : string),
    es !! i = Some e -> es !! i' = Some e' ->
    Entry.key e = Some k -> Entry.key e' = Some k ->
    Entry.hash e = Entry.hash e' -> i = i'.

(** The new capacity [c] is the first power of two, from 8, that is at
    least [size + 8]. *)
Definition new_capacity (m : map_t) (c : Z) : Prop :=
  exists n, 3 <= n <= 31 /\ c = 2 ^ n /\ Map.size m + 8 <= c /\
            (n = 3 \/ 2 ^ (n - 1) < Map.size m + 8).

(* ================================================================== *)
(** ** Notions for the further properties *)

(** The keys of the live slots, in slot order. *)
Definition keys (m : map_t) : list string := omap Entry.key (Map.entries m).

(** The hash before its sign bit is set. *)
Definition fnv1_raw (text : string) : Z :=
  fold_left fnv1_spec_step (text_bytes text) (s64 FNV_BASIS).

(** The map with the value of slot [j], which holds [e], replaced. *)
Definition replaced (m : map_t) (j : Z) (e : map_entry_t) (val : cstr)
    : map_t :=
  {| Map.magic := Map.magic m;
     Map.capacity := Map.capacity m;
     Map.size := Map.size m;
     Map.allocated := Map.allocated m;
     Map.entries :=
       <[Z.to_nat j :=
          {| Entry.hash := Entry.hash e; Entry.key := Entry.key e;
             Entry.value := val |}]> (Map.entries m) |}.

(** No tombstone of the map carries the hash [h]. *)
Definition no_tombstone_of (m : map_t) (h : Z) : Prop :=
  forall (j : nat) (e : map_entry_t),
    Map.entries m !! j = Some e -> Entry.key e = None -> Entry.hash e <> h.

(** *** More of the worked example *)

(** The puts of [demo_kvs], as operations. *)
Definition demo_puts : list op :=
  (fun kv : string * cstr => Put (Some kv.1) kv.2) <$> demo_kvs.

(** [demo8] after the put of a ninth key, which rehashes. *)
Definition demo10 : map_t :=
  Eval vm_compute in
    state_of (snd <$> map_put (Some demo8) (Some "i"%string) (Some "9"%string)).

(** [demo1] after the remove of its key. *)
Definition demo1r : map_t :=
  Eval vm_compute in
    state_of (snd <$> map_remove (Some demo1) (Some "a"%string)).

(** *** A map at the limit of the rehash *)

(** 2^27 keys that differ: the decimal numerals of 0, ..., 2^27 - 1. *)
Definition full_kvs : list (string * cstr) :=
  (fun i : Z => (pretty i, None)) <$> seqZ 0 (2 ^ 27).

(** The map after their puts into a freshly initialized map. *)
Definition full_map : map_t :=
  state_of (snd <$> put_all full_kvs (map_init (Some blank))).

(* ================================================================== *)
(** * Proofs *)

Section MachineIntegers.

Lemma u32_small z : 0 <= z < 2 ^ 32 -> u32 z = z.
Proof. intros H. unfold u32. apply Z.mod_small. exact H. Qed.

Lemma s32_small z : - 2 ^ 31 <= z < 2 ^ 31 -> s32 z = z.
Proof. intros H. unfold s32. rewrite Z.mod_small; lia. Qed.

Lemma s64_range z : - 2 ^ 63 <= s64 z < 2 ^ 63.
Proof.
  unfold s64.
  pose proof (Z.mod_pos_bound (z + 2 ^ 63) (2 ^ 64) ltac:(lia)). lia.
Qed.

Lemma s64_small z : - 2 ^ 63 <= z < 2 ^ 63 -> s64 z = z.
Proof. intros H. unfold s64. rewrite Z.mod_small; lia. Qed.

Lemma testbit_63_low x : 0 <= x < 2 ^ 63 -> Z.testbit x 63 = false.
Proof.
  intros H. apply Z.testbit_false; [lia|].
  rewrite Z.div_small by lia. reflexivity.
Qed.

Lemma land_signbit_low x : 0 <= x < 2 ^ 63 -> Z.land x (2 ^ 63) = 0.
Proof.
  intros H. apply Z.bits_inj'. intros n Hn.
  rewrite Z.land_spec, Z.bits_0, Z.pow2_bits_eqb by lia.
  destruct (Z.eqb_spec 63 n) as [<-|Hne].
  - rewrite testbit_63_low by exact H. reflexivity.
  - apply andb_false_r.
Qed.

Lemma lor_signbit_low x : 0 <= x < 2 ^ 63 -> Z.lor x (2 ^ 63) = x + 2 ^ 63.
Proof.
  intros H. symmetry. apply Z.add_nocarry_lor. apply land_signbit_low, H.
Qed.

Lemma lor_signbit_high x :
  2 ^ 63 <= x < 2 ^ 64 -> Z.lor x (2 ^ 63) = x.
Proof.
  intros H. replace x with ((x - 2 ^ 63) + 2 ^ 63) at 1 by lia.
  rewrite <- (lor_signbit_low (x - 2 ^ 63)) by lia.
  rewrite <- Z.lor_assoc, Z.lor_diag.
  rewrite lor_signbit_low by lia. lia.
Qed.

End MachineIntegers.

Section Hash.

Lemma schar_byte a : Z.land (schar a) 0xFF = Z.of_N (N_of_ascii a).
Proof. destruct a as [[] [] [] [] [] [] [] []]; reflexivity. Qed.

Lemma schar_zero a : (schar a =? 0) = (Z.of_N (N_of_ascii a) =? 0).
Proof. destruct a as [[] [] [] [] [] [] [] []]; reflexivity. Qed.

Lemma fnv1_loop_fold a p h :
  fnv1_loop p h (schar a) =
  fold_left fnv1_spec_step (text_bytes (String a p)) h.
Proof.
  revert a h. induction p as [|a' p IH]; intros a h.
  - cbn [fnv1_loop text_bytes]. rewrite schar_zero, schar_byte.
    destruct (Z.of_N (N_of_ascii a) =? 0); reflexivity.
  - cbn [fnv1_loop]. rewrite schar_zero, schar_byte.
    change (text_bytes (String a (String a' p))) with
      (let b := Z.of_N (N_of_ascii a) in
       if b =? 0 then [] else b :: text_bytes (String a' p)).
    cbv zeta. destruct (Z.of_N (N_of_ascii a) =? 0); [reflexivity|].
    rewrite IH. reflexivity.
Qed.

Lemma fold_step_range bs h :
  - 2 ^ 63 <= h < 2 ^ 63 ->
  - 2 ^ 63 <= fold_left fnv1_spec_step bs h < 2 ^ 63.
Proof.
  revert h. induction bs as [|b bs IH]; intros h Hh; [exact Hh|].
  cbn [fold_left]. apply IH. apply s64_range.
Qed.

Lemma sign_bit_set h :
  - 2 ^ 63 <= h < 2 ^ 63 ->
  s64 (Z.lor (u64 h) SIGN_BIT) = set_sign_bit h.
Proof.
  intros Hh. unfold set_sign_bit, u64.
  change SIGN_BIT with (2 ^ 63).
  destruct (Z.ltb_spec h 0) as [Hneg|Hpos].
  - replace (h mod 2 ^ 64) with (h + 2 ^ 64).
    + rewrite lor_signbit_high by lia. unfold s64.
      replace (h + 2 ^ 64 + 2 ^ 63) with (h + 2 ^ 63 + 1 * 2 ^ 64) by lia.
      rewrite Z.mod_add by lia. rewrite Z.mod_small; lia.
    + apply Z.mod_unique with (q := -1); lia.
  - rewrite Z.mod_small by lia. rewrite lor_signbit_low by lia.
    unfold s64.
    replace (h + 2 ^ 63 + 2 ^ 63) with (h + 1 * 2 ^ 64) by lia.
    rewrite Z.mod_add by lia. rewrite Z.mod_small; lia.
Qed.

Lemma set_sign_bit_neg h : - 2 ^ 63 <= h < 2 ^ 63 -> - 2 ^ 63 <= set_sign_bit h < 0.
Proof. intros Hh. unfold set_sign_bit. destruct (Z.ltb_spec h 0); lia. Qed.

Lemma fnv1_hash_spec text : fnv1_hash text = fnv1_spec text.
Proof.
  unfold fnv1_hash, fnv1_spec.
  assert (Hb : - 2 ^ 63 <= s64 FNV_BASIS < 2 ^ 63) by apply s64_range.
  destruct text as [|a p].
  - cbn [text_bytes fold_left]. apply sign_bit_set, Hb.
  - rewrite fnv1_loop_fold. apply sign_bit_set, fold_step_range, Hb.
Qed.

Lemma fnv1_hash_neg text : - 2 ^ 63 <= fnv1_hash text < 0.
Proof.
  rewrite fnv1_hash_spec. unfold fnv1_spec.
  apply set_sign_bit_neg, fold_step_range, s64_range.
Qed.

Lemma fnv1_hash_nonzero text : fnv1_hash text <> 0.
Proof. pose proof (fnv1_hash_neg text). lia. Qed.

End Hash.

(* ================================================================== *)
(** ** Index arithmetic of the probe loops *)

Section Geometry.

Variable n : Z.
Hypothesis Hn : 0 <= n <= 31.

Lemma pow2_bounds : 1 <= 2 ^ n <= 2 ^ 31.
Proof.
  split.
  - pose proof (Z.pow_pos_nonneg 2 n ltac:(lia) ltac:(lia)). lia.
  - apply Z.pow_le_mono_r; lia.
Qed.

Lemma mask_ones : u32 (2 ^ n - 1) = Z.ones n.
Proof.
  pose proof pow2_bounds.
  rewrite u32_small by lia. rewrite Z.ones_equiv. lia.
Qed.

Lemma start_index h : u32 (Z.land h (u32 (2 ^ n - 1))) = h mod 2 ^ n.
Proof.
  pose proof pow2_bounds.
  rewrite mask_ones, Z.land_ones by lia.
  pose proof (Z.mod_pos_bound h (2 ^ n) ltac:(lia)).
  apply u32_small. lia.
Qed.

Lemma next_index i :
  0 <= i < 2 ^ n ->
  Z.land (u32 (i + 1)) (u32 (2 ^ n - 1)) = (i + 1) mod 2 ^ n.
Proof.
  intros Hi. pose proof pow2_bounds.
  rewrite mask_ones, Z.land_ones by lia.
  rewrite u32_small by lia. reflexivity.
Qed.

Lemma index_in_range i : 0 <= i mod 2 ^ n < 2 ^ n.
Proof. pose proof pow2_bounds. apply Z.mod_pos_bound. lia. Qed.

Lemma probe_shift i s :
  ((i + 1) mod 2 ^ n + Z.of_nat s) mod 2 ^ n =
  (i + Z.of_nat (S s)) mod 2 ^ n.
Proof.
  pose proof pow2_bounds.
  rewrite Zplus_mod_idemp_l. f_equal. lia.
Qed.

End Geometry.

(* ================================================================== *)
(** ** Counting slots *)

Section Counting.

Variable p : map_entry_t -> bool.

Lemma count_le_length es : (count p es <= length es)%nat.
Proof.
  induction es as [|e es IH]; cbn [count length]; [lia|].
  destruct (p e); lia.
Qed.

Lemma count_insert es j e e' :
  es !! j = Some e ->
  (count p (<[j := e']> es) + (if p e then 1 else 0) =
   count p es + (if p e' then 1 else 0))%nat.
Proof.
  revert j. induction es as [|x es IH]; intros j Hj; [discriminate|].
  destruct j as [|j].
  - cbn in Hj. injection Hj as ->. cbn [count]. cbn. lia.
  - cbn in Hj. specialize (IH j Hj). cbn [count]. cbn.
    rewrite <- !Nat.add_assoc. f_equal. exact IH.
Qed.

Lemma count_lt_length es :
  (count p es < length es)%nat ->
  exists j e, es !! j = Some e /\ p e = false.
Proof.
  induction es as [|x es IH]; cbn [count length]; intros H; [lia|].
  destruct (p x) eqn:Hx.
  - destruct IH as (j & e & Hj & He); [lia|].
    exists (S j), e. split; [exact Hj|exact He].
  - exists O, x. split; [reflexivity|exact Hx].
Qed.

Lemma count_replicate_false k e : p e = false -> count p (replicate k e) = O.
Proof.
  intros He. induction k as [|k IH]; [reflexivity|].
  cbn [replicate count]. rewrite He, IH. reflexivity.
Qed.


End Counting.

Lemma count_le (p q : map_entry_t -> bool) es :
  (forall j e, es !! j = Some e -> p e = true -> q e = true) ->
  (count p es <= count q es)%nat.
Proof.
  induction es as [|x es IH]; intros H; [reflexivity|].
  cbn [count].
  assert (IH' : (count p es <= count q es)%nat).
  { apply IH. intros j e Hj. apply (H (S j) e). exact Hj. }
  destruct (p x) eqn:Hp.
  - rewrite (H O x eq_refl Hp). lia.
  - destruct (q x); lia.
Qed.

(* ================================================================== *)
(** ** The lookup loop *)

Lemma look_Hit k h e :
  look k h e = Hit <->
  Entry.hash e <> 0 /\ Entry.hash e = h /\ Entry.key e = Some k.
Proof.
  unfold look.
  destruct (Z.eqb_spec (Entry.hash e) 0) as [H0|H0].
  { split; [discriminate|]. intros (H & _). contradiction. }
  destruct (Z.eqb_spec (Entry.hash e) h) as [Hh|Hh]; cbn [andb].
  - destruct (Entry.key e) as [ek|].
    + destruct (String.eqb_spec ek k) as [->|Hk].
      * split; [intros _; auto|reflexivity].
      * split; [discriminate|]. intros (_ & _ & [= Hek]). contradiction.
    + split; [discriminate|]. intros (_ & _ & [=]).
  - split; [discriminate|]. intros (_ & H & _). contradiction.
Qed.

Lemma look_Stop k h e : look k h e = Stop <-> Entry.hash e = 0.
Proof.
  unfold look.
  destruct (Z.eqb_spec (Entry.hash e) 0) as [H0|H0].
  - split; auto.
  - split; [|contradiction].
    destruct (_ && _); discriminate.
Qed.

Lemma look_tombstone k h e :
  Entry.hash e <> 0 -> Entry.key e = None -> look k h e = Next.
Proof.
  intros H0 Hk. unfold look. rewrite Hk.
  destruct (Z.eqb_spec (Entry.hash e) 0); [contradiction|].
  rewrite andb_false_r. reflexivity.
Qed.

Lemma map_indexOf_loop_S es k h mask i l :
  map_indexOf_loop es k h mask i (S l) =
  e ← es !! Z.to_nat i;
  match look k h e with
  | Stop => Some (-1)
  | Hit => Some (s32 i)
  | Next => map_indexOf_loop es k h mask (Z.land (u32 (i + 1)) mask) l
  end.
Proof.
  cbn [map_indexOf_loop]. destruct (es !! Z.to_nat i) as [e|]; [|reflexivity].
  cbn. unfold look. destruct (Entry.hash e =? 0); [reflexivity|].
  destruct (_ && _); reflexivity.
Qed.

Section LookupLoop.

Variable n : Z.
Hypothesis Hn : 0 <= n <= 31.
Variable es : list map_entry_t.
Hypothesis Hlen : length es = Z.to_nat (2 ^ n).

Lemma slot_exists i : 0 <= i < 2 ^ n -> exists e, es !! Z.to_nat i = Some e.
Proof.
  intros Hi. apply lookup_lt_is_Some_2. rewrite Hlen. lia.
Qed.

(** The lookup always has a result: [-1], or the index of a slot that
    holds the key with the hash. *)
Lemma map_indexOf_loop_result k h l i :
  0 <= i < 2 ^ n ->
  exists r,
    map_indexOf_loop es k h (u32 (2 ^ n - 1)) i l = Some r /\
    (r = -1 \/
     (0 <= r < 2 ^ n /\
      exists e, es !! Z.to_nat r = Some e /\ look k h e = Hit)).
Proof.
  revert i. induction l as [|l IH]; intros i Hi.
  - exists (-1). split; [reflexivity|left; reflexivity].
  - rewrite map_indexOf_loop_S.
    destruct (slot_exists i Hi) as [e He]. rewrite He. cbn.
    destruct (look k h e) eqn:Hlook.
    + exists (-1). split; [reflexivity|left; reflexivity].
    + pose proof (pow2_bounds n Hn).
      exists i. rewrite s32_small by lia. split; [reflexivity|].
      right. split; [exact Hi|]. exists e. split; assumption.
    + rewrite next_index by assumption.
      apply IH. apply index_in_range, Hn.
Qed.

End LookupLoop.

(** A found key stays found, at the same slot, in every array whose
    slots mean the same to the lookup wherever the old array did not
    stop it. *)
Lemma map_indexOf_loop_frame es es' k h mask l i r :
  (forall j e, es !! j = Some e -> look k h e <> Stop ->
     exists e', es' !! j = Some e' /\ look k h e' = look k h e) ->
  map_indexOf_loop es k h mask i l = Some r -> 0 <= r ->
  map_indexOf_loop es' k h mask i l = Some r.
Proof.
  intros Hsame. revert i. induction l as [|l IH]; intros i Hr Hpos.
  - cbn in Hr. injection Hr as <-. lia.
  - rewrite map_indexOf_loop_S in *.
    destruct (es !! Z.to_nat i) as [e|] eqn:He; [|discriminate].
    cbn in Hr. destruct (look k h e) eqn:Hlook.
    + injection Hr as <-. lia.
    + destruct (Hsame _ _ He) as (e' & He' & Hl'); [congruence|].
      rewrite He'. cbn. rewrite Hl', Hlook. exact Hr.
    + destruct (Hsame _ _ He) as (e' & He' & Hl'); [congruence|].
      rewrite He'. cbn. rewrite Hl', Hlook. apply IH; assumption.
Qed.

(* ================================================================== *)
(** ** The placement loop *)


Section PlacementLoop.

Variable n : Z.
Hypothesis Hn : 0 <= n <= 31.
Variable m : map_t.
Hypothesis Hlen : length (Map.entries m) = Z.to_nat (2 ^ n).
Variables (k : string) (v : cstr) (h : Z).
Hypothesis Hh : h <> 0.

Local Abbreviation mask := (u32 (2 ^ n - 1)).

Lemma look_placed : 
  look k h {| Entry.hash := h; Entry.key := Some k; Entry.value := v |} = Hit.
Proof. apply look_Hit. cbn. auto. Qed.

(** The three ways the placement loop ends when it may not override:
    it claims a slot, where the lookup then finds the key; it meets the
    key; or it has seen [l] slots that are all in use. *)
Lemma map_set_loop_cases l i :
  0 <= i < 2 ^ n ->
  (exists t e,
     0 <= t < 2 ^ n /\ Map.entries m !! Z.to_nat t = Some e /\
     claimable h e /\
     map_set_loop m k v h 0 mask i l = Some (OK, placed m t e k v h) /\
     map_indexOf_loop (Map.entries (placed m t e k v h)) k h mask i l
       = Some t)
  \/ (map_set_loop m k v h 0 mask i l = Some (KEY_EXISTS, m) /\
      exists r, 0 <= r /\
        map_indexOf_loop (Map.entries m) k h mask i l = Some r)
  \/ (map_set_loop m k v h 0 mask i l = Some (REQUIRES_OPTIMIZATION, m) /\
      forall s, (s < l)%nat ->
        exists e,
          Map.entries m !! Z.to_nat ((i + Z.of_nat s) mod 2 ^ n) = Some e /\
          Entry.hash e <> 0).
Proof.
  pose proof (pow2_bounds n Hn) as Hcap.
  revert i. induction l as [|l IH]; intros i Hi.
  { right. right. split; [reflexivity|]. intros s Hs. lia. }
  destruct (slot_exists n Hn (Map.entries m) Hlen i Hi) as [e He].
  assert (Hlt : (Z.to_nat i < length (Map.entries m))%nat).
  { apply lookup_lt_Some in He. exact He. }
  cbn [map_set_loop]. rewrite map_indexOf_loop_S. rewrite He. cbn [mbind option_bind].
  destruct (Z.eqb_spec (Entry.hash e) 0) as [H0|H0].
  { left. exists i, e. split; [exact Hi|]. split; [exact He|].
    split; [left; exact H0|]. split.
    - unfold placed. rewrite H0. reflexivity.
    - rewrite map_indexOf_loop_S. unfold placed. cbn [Map.entries].
      rewrite list_lookup_insert_eq by exact Hlt. cbn [mbind option_bind].
      rewrite look_placed, s32_small by lia. reflexivity. }
  destruct (Z.eqb_spec (Entry.hash e) h) as [H1|H1].
  - destruct (Entry.key e) as [ek|] eqn:Hek.
    + destruct (String.eqb_spec ek k) as [->|Hne].
      * right. left. split; [reflexivity|].
        exists i. split; [lia|].
        assert (Hl : look k h e = Hit) by (apply look_Hit; auto).
        rewrite Hl, s32_small by lia. reflexivity.
      * assert (Hl : look k h e = Next).
        { destruct (look k h e) eqn:Hl; [| |reflexivity].
          - apply look_Stop in Hl. contradiction.
          - apply look_Hit in Hl as (_ & _ & Hk). congruence. }
        rewrite Hl. rewrite !next_index by assumption.
        destruct (IH ((i + 1) mod 2 ^ n) (index_in_range n Hn _))
          as [(t & et & Ht & Het & Hc & Hset & Hidx)|[(Hset & r & Hr & Hidx)|(Hset & Hall)]].
        -- left. exists t, et. repeat (split; [assumption|]).
           rewrite map_indexOf_loop_S. unfold placed. cbn [Map.entries].
           assert (Hti : Z.to_nat t <> Z.to_nat i).
           { intros Heq. rewrite Heq, He in Het. injection Het as <-.
             destruct Hc as [Hc|[_ Hc]]; congruence. }
           rewrite list_lookup_insert_ne by exact Hti. rewrite He.
           cbn [mbind option_bind]. rewrite Hl.
           rewrite next_index by assumption.
           exact Hidx.
        -- right. left. split; [exact Hset|]. exists r. split; assumption.
        -- right. right. split; [exact Hset|].
           intros [|s] Hs.
           ++ exists e. rewrite Z.add_0_r, Z.mod_small by lia.
              split; assumption.
           ++ rewrite <- probe_shift by exact Hn. apply Hall. lia.
    + left. exists i, e. split; [exact Hi|]. split; [exact He|].
      split; [right; split; assumption|]. split.
      * unfold placed. rewrite H1.
        destruct (Z.eqb_spec h 0); [contradiction|]. reflexivity.
      * rewrite map_indexOf_loop_S. unfold placed. cbn [Map.entries].
        rewrite list_lookup_insert_eq by exact Hlt. cbn [mbind option_bind].
        rewrite look_placed, s32_small by lia. reflexivity.
  - assert (Hl : look k h e = Next).
    { destruct (look k h e) eqn:Hl; [| |reflexivity].
      - apply look_Stop in Hl. contradiction.
      - apply look_Hit in Hl as (_ & Hk & _). contradiction. }
    rewrite Hl. rewrite !next_index by assumption.
    destruct (IH ((i + 1) mod 2 ^ n) (index_in_range n Hn _))
      as [(t & et & Ht & Het & Hc & Hset & Hidx)|[(Hset & r & Hr & Hidx)|(Hset & Hall)]].
    + left. exists t, et. repeat (split; [assumption|]).
      rewrite map_indexOf_loop_S. unfold placed. cbn [Map.entries].
      assert (Hti : Z.to_nat t <> Z.to_nat i).
      { intros Heq. rewrite Heq, He in Het. injection Het as <-.
        destruct Hc as [Hc|[Hc _]]; congruence. }
      rewrite list_lookup_insert_ne by exact Hti. rewrite He.
      cbn [mbind option_bind]. rewrite Hl.
      rewrite next_index by assumption.
      exact Hidx.
    + right. left. split; [exact Hset|]. exists r. split; assumption.
    + right. right. split; [exact Hset|].
      intros [|s] Hs.
      * exists e. rewrite Z.add_0_r, Z.mod_small by lia. split; assumption.
      * rewrite <- probe_shift by exact Hn. apply Hall. lia.
Qed.

End PlacementLoop.

(** What a result of the placement loop shows when the array may be
    shorter than the capacity: a slot was claimed, the key was met, or
    every slot of the probe sequence was read inside the array. *)
Section ShortArray.

Variable n : Z.
Hypothesis Hn : 0 <= n <= 31.
Variable m : map_t.
Variables (k : string) (v : cstr) (h : Z).
Hypothesis Hh : h <> 0.

Lemma map_set_loop_some l :
  forall i r m',
    0 <= i < 2 ^ n ->
    map_set_loop m k v h 0 (u32 (2 ^ n - 1)) i l = Some (r, m') ->
    (r = OK /\ exists t e,
       Map.entries m !! Z.to_nat t = Some e /\ claimable h e /\
       m' = placed m t e k v h)
    \/ (r = KEY_EXISTS /\ exists j e,
         Map.entries m !! j = Some e /\ Entry.hash e = h /\
         Entry.key e = Some k)
    \/ (r = REQUIRES_OPTIMIZATION /\
        forall s, (s < l)%nat ->
          is_Some (Map.entries m !! Z.to_nat ((i + Z.of_nat s) mod 2 ^ n))).
Proof.
  pose proof (pow2_bounds n Hn) as Hcap.
  induction l as [|l IH]; intros i r m' Hi Hset.
  { cbn in Hset. injection Hset as <- <-. right. right.
    split; [reflexivity|]. intros s Hs. lia. }
  cbn [map_set_loop] in Hset.
  destruct (Map.entries m !! Z.to_nat i) as [e|] eqn:He; [|discriminate].
  cbn [mbind option_bind] in Hset.
  assert (Hnext :
    map_set_loop m k v h 0 (u32 (2 ^ n - 1))
      (Z.land (u32 (i + 1)) (u32 (2 ^ n - 1))) l = Some (r, m') ->
    (r = OK /\ exists t e,
       Map.entries m !! Z.to_nat t = Some e /\ claimable h e /\
       m' = placed m t e k v h)
    \/ (r = KEY_EXISTS /\ exists j e,
         Map.entries m !! j = Some e /\ Entry.hash e = h /\
         Entry.key e = Some k)
    \/ (r = REQUIRES_OPTIMIZATION /\
        forall s, (s < S l)%nat ->
          is_Some (Map.entries m !! Z.to_nat ((i + Z.of_nat s) mod 2 ^ n)))).
  { intros H1. rewrite (next_index n Hn i Hi) in H1.
    destruct (IH _ _ _ (index_in_range n Hn _) H1) as [H|[H|(Hr & Hall)]];
      [left; exact H|right; left; exact H|].
    right. right. split; [exact Hr|]. intros [|s] Hs.
    - rewrite Z.add_0_r, Z.mod_small by lia. rewrite He. eexists; reflexivity.
    - rewrite <- (probe_shift n Hn). apply Hall. lia. }
  destruct (Z.eqb_spec (Entry.hash e) 0) as [H0|H0].
  { injection Hset as <- <-. left. split; [reflexivity|].
    exists i, e. split; [exact He|]. split; [left; exact H0|].
    unfold placed. rewrite H0. reflexivity. }
  destruct (Z.eqb_spec (Entry.hash e) h) as [H1|H1]; [|apply Hnext, Hset].
  destruct (Entry.key e) as [ek|] eqn:Hek.
  - destruct (String.eqb_spec ek k) as [->|Hne]; [|apply Hnext, Hset].
    change (0 =? 0) with true in Hset. cbv iota in Hset.
    injection Hset as <- <-. right. left. split; [reflexivity|].
    exists (Z.to_nat i), e. auto.
  - injection Hset as <- <-. left. split; [reflexivity|].
    exists i, e. split; [exact He|]. split; [right; auto|].
    unfold placed. rewrite H1.
    destruct (Z.eqb_spec h 0); [contradiction|]. reflexivity.
Qed.

End ShortArray.

(* ================================================================== *)
(** ** Lookup in a map whose array has [capacity] slots *)

Section MapLookup.

Variables (m : map_t) (n : Z).
Hypothesis Hn : 0 <= n <= 31.
Hypothesis Hcap : Map.capacity m = 2 ^ n.
Hypothesis Hlen : length (Map.entries m) = Z.to_nat (Map.capacity m).

Lemma map_indexOf_result k h :
  exists r,
    map_indexOf m k h = Some r /\
    (r = -1 \/
     (0 <= r < 2 ^ n /\
      exists e, Map.entries m !! Z.to_nat r = Some e /\ look k h e = Hit)).
Proof.
  unfold map_indexOf. rewrite Hcap, start_index by exact Hn.
  apply map_indexOf_loop_result; [exact Hn|congruence|].
  apply index_in_range, Hn.
Qed.

Lemma map_indexOf_found k h j :
  map_indexOf m k h = Some (Z.of_nat j) ->
  exists e,
    Map.entries m !! j = Some e /\ Entry.hash e = h /\
    Entry.key e = Some k /\ h <> 0.
Proof.
  intros Hj. destruct (map_indexOf_result k h) as (r & Hr & Hcase).
  rewrite Hj in Hr. injection Hr as <-.
  destruct Hcase as [Hneg|(_ & e & He & Hl)]; [lia|].
  rewrite Nat2Z.id in He. apply look_Hit in Hl as (H0 & H1 & H2).
  exists e. repeat split; try assumption. congruence.
Qed.


Hypothesis Hwp : well_placed m.

Lemma live_hash_nonzero j e k :
  Map.entries m !! j = Some e -> Entry.key e = Some k -> Entry.hash e <> 0.
Proof.
  intros He Hk. pose proof (Hwp j e k He Hk) as Hidx.
  apply map_indexOf_found in Hidx as (e' & He' & Hh & _ & H0).
  congruence.
Qed.

Lemma claimable_not_live h j e :
  Map.entries m !! j = Some e -> claimable h e -> Entry.key e = None.
Proof.
  intros He [H0|[_ Hk]]; [|exact Hk].
  destruct (Entry.key e) as [k|] eqn:Hk; [|reflexivity].
  exfalso. exact (live_hash_nonzero j e k He Hk H0).
Qed.

Lemma holds_indexOf k h v :
  holds (Map.entries m) k h v ->
  exists j e,
    map_indexOf m k h = Some (Z.of_nat j) /\
    Map.entries m !! j = Some e /\ Entry.hash e = h /\
    Entry.key e = Some k /\ Entry.value e = v.
Proof.
  intros (j & e & He & Hh & Hk & Hv). exists j, e.
  split; [|auto]. rewrite <- Hh. apply Hwp; assumption.
Qed.

Lemma absent_not_holds k h v :
  map_indexOf m k h = Some (-1) -> ~ holds (Map.entries m) k h v.
Proof.
  intros Habs Hholds. apply holds_indexOf in Hholds as (j & e & Hj & _).
  rewrite Habs in Hj. injection Hj as Hj. lia.
Qed.

Lemma not_holds_absent k h :
  (forall v, ~ holds (Map.entries m) k h v) -> map_indexOf m k h = Some (-1).
Proof.
  intros Hno. destruct (map_indexOf_result k h) as (r & Hr & Hcase).
  destruct Hcase as [->|(_ & e & He & Hl)]; [exact Hr|].
  exfalso. apply look_Hit in Hl as (_ & H1 & H2).
  apply (Hno (Entry.value e)). exists (Z.to_nat r), e. auto.
Qed.


End MapLookup.

(* ================================================================== *)
(** ** Placing a key that is not in the map *)

Section Placement.

Variables (m : map_t) (n : Z).
Hypothesis Hn : 0 <= n <= 31.
Hypothesis Hcap : Map.capacity m = 2 ^ n.
Hypothesis Hlen : length (Map.entries m) = Z.to_nat (Map.capacity m).
Variables (k : string) (v : cstr) (h : Z).
Hypothesis Hh : h <> 0.
Hypothesis Habsent : map_indexOf m k h = Some (-1).

(** With a slot that was never written, [map_set] claims a slot. *)
Lemma map_set_absent :
  (exists j e, Map.entries m !! j = Some e /\ Entry.hash e = 0) ->
  exists t e,
    0 <= t < 2 ^ n /\ Map.entries m !! Z.to_nat t = Some e /\
    claimable h e /\
    map_set m k v h 0 = Some (OK, placed m t e k v h) /\
    map_indexOf (placed m t e k v h) k h = Some t.
Proof.
  intros (j & e0 & Hj & He0).
  pose proof (pow2_bounds n Hn) as Hb.
  assert (Hlen' : length (Map.entries m) = Z.to_nat (2 ^ n)) by congruence.
  unfold map_set, map_indexOf in *. cbn [placed Map.capacity].
  rewrite Hcap, start_index in * by exact Hn.
  destruct (map_set_loop_cases n Hn m Hlen' k v h Hh (Z.to_nat (2 ^ n))
              (h mod 2 ^ n) (index_in_range n Hn h))
    as [(t & e & Ht & He & Hc & Hset & Hidx)|[(_ & r & Hr & Hidx)|(_ & Hall)]].
  - exists t, e. auto.
  - rewrite Habsent in Hidx. injection Hidx as <-. lia.
  - exfalso. apply lookup_lt_Some in Hj as Hjlt. rewrite Hlen' in Hjlt.
    destruct (Hall (Z.to_nat ((Z.of_nat j - h mod 2 ^ n) mod 2 ^ n)))
      as (e & He & Hne).
    { pose proof (index_in_range n Hn (Z.of_nat j - h mod 2 ^ n)). lia. }
    rewrite Z2Nat.id in He by apply index_in_range, Hn.
    rewrite Zplus_mod_idemp_r in He.
    replace (h mod 2 ^ n + (Z.of_nat j - h mod 2 ^ n)) with (Z.of_nat j) in He by lia.
    rewrite Z.mod_small, Nat2Z.id in He by lia. congruence.
Qed.

End Placement.

(* ================================================================== *)
(** ** Writing one slot *)

(** A found key stays found when one slot is rewritten and the rewrite
    does not change what that slot means to the lookup. *)
Lemma map_indexOf_update m m' t e new k h r :
  Map.capacity m' = Map.capacity m ->
  Map.entries m' = <[t := new]> (Map.entries m) ->
  Map.entries m !! t = Some e ->
  (look k h e = Stop \/ look k h new = look k h e) ->
  map_indexOf m k h = Some r -> 0 <= r ->
  map_indexOf m' k h = Some r.
Proof.
  intros Hcap Hes He Hlook Hidx Hr. unfold map_indexOf in *.
  rewrite Hcap, Hes.
  eapply map_indexOf_loop_frame; [|exact Hidx|exact Hr].
  intros j e0 Hj Hns. destruct (decide (t = j)) as [<-|Hne].
  - rewrite He in Hj. injection Hj as <-.
    destruct Hlook as [Hstop|Hsame]; [contradiction|].
    exists new. split; [|exact Hsame].
    apply list_lookup_insert_eq. apply lookup_lt_Some in He. exact He.
  - exists e0. split; [|reflexivity].
    rewrite list_lookup_insert_ne by exact Hne. exact Hj.
Qed.

Lemma wf_geometry m :
  wf m ->
  exists n, 3 <= n <= 31 /\ Map.capacity m = 2 ^ n /\
            length (Map.entries m) = Z.to_nat (2 ^ n).
Proof.
  intros [(n & Hn & Hcap) Hlen _ _ _]. exists n.
  split; [exact Hn|]. split; [exact Hcap|]. congruence.
Qed.

Lemma wf_indexOf_result m k h :
  wf m ->
  exists r,
    map_indexOf m k h = Some r /\
    (r = -1 \/
     exists j e, r = Z.of_nat j /\ Map.entries m !! j = Some e /\
                 Entry.hash e = h /\ Entry.key e = Some k /\ h <> 0).
Proof.
  intros Hwf. destruct (wf_geometry m Hwf) as (n & Hn & Hcap & Hlen).
  destruct (map_indexOf_result m n ltac:(lia) Hcap (wf_length m Hwf) k h)
    as (r & Hr & [->|(Hrange & e & He & Hl)]).
  - exists (-1). auto.
  - exists r. split; [exact Hr|]. right.
    apply look_Hit in Hl as (H0 & H1 & H2).
    exists (Z.to_nat r), e. rewrite Z2Nat.id by lia.
    repeat split; auto. congruence.
Qed.

Lemma wf_live_hash_nonzero m j e k :
  wf m -> Map.entries m !! j = Some e -> Entry.key e = Some k ->
  Entry.hash e <> 0.
Proof.
  intros Hwf. destruct (wf_geometry m Hwf) as (n & Hn & Hcap & Hlen).
  apply (live_hash_nonzero m n); [lia|exact Hcap|apply wf_length, Hwf|].
  apply wf_placed, Hwf.
Qed.

Lemma wf_absent_not_holds m k h v :
  wf m -> map_indexOf m k h = Some (-1) -> ~ holds (Map.entries m) k h v.
Proof.
  intros Hwf. destruct (wf_geometry m Hwf) as (n & Hn & Hcap & Hlen).
  apply (absent_not_holds m n); [lia|exact Hcap|apply wf_length, Hwf|].
  apply wf_placed, Hwf.
Qed.

Lemma wf_not_holds_absent m k h :
  wf m -> (forall v, ~ holds (Map.entries m) k h v) ->
  map_indexOf m k h = Some (-1).
Proof.
  intros Hwf. destruct (wf_geometry m Hwf) as (n & Hn & Hcap & Hlen).
  apply (not_holds_absent m n); [lia|exact Hcap|apply wf_length, Hwf].
Qed.

Lemma wf_size_le_allocated m : wf m -> Map.size m <= Map.allocated m.
Proof.
  intros Hwf. destruct (wf_geometry m Hwf) as (n & Hn & Hcap & Hlen).
  rewrite (wf_size m Hwf), (wf_allocated m Hwf).
  apply inj_le, count_le. intros j e He Hlive.
  unfold live in Hlive. destruct (Entry.key e) as [k|] eqn:Hk; [|discriminate].
  unfold used.
  assert (H0 : Entry.hash e <> 0).
  { eapply (live_hash_nonzero m n); eauto; [lia|apply wf_length, Hwf|apply wf_placed, Hwf]. }
  destruct (Z.eqb_spec (Entry.hash e) 0); [contradiction|reflexivity].
Qed.

Lemma wf_capacity_ok m : wf m -> capacity_ok m.
Proof.
  intros Hwf. destruct (wf_geometry m Hwf) as (n & Hn & Hcap & Hlen).
  pose proof (wf_size_le_allocated m Hwf) as Hsa.
  unfold capacity_ok. split; [exists n; split; [lia|exact Hcap]|].
  assert (H8 : 2 ^ 3 <= 2 ^ n) by (apply Z.pow_le_mono_r; lia).
  split; [rewrite Hcap; lia|].
  split; [split; [rewrite (wf_size m Hwf); lia|exact Hsa]|].
  rewrite (wf_allocated m Hwf).
  pose proof (count_le_length used (Map.entries m)) as Hc.
  rewrite Hlen in Hc. rewrite Hcap.
  pose proof (pow2_bounds n ltac:(lia)). lia.
Qed.

Section Placed.

Variable m : map_t.
Hypothesis Hwf : wf m.
Variables (k : string) (v : cstr) (h : Z).
Hypothesis Hh : h <> 0.
Hypothesis Habsent : map_indexOf m k h = Some (-1).
Variables (t : Z) (e : map_entry_t).
Hypothesis Ht : 0 <= t.
Hypothesis He : Map.entries m !! Z.to_nat t = Some e.
Hypothesis Hc : claimable h e.
Hypothesis Hidx : map_indexOf (placed m t e k v h) k h = Some t.

Lemma placed_not_live : Entry.key e = None.
Proof.
  destruct (wf_geometry m Hwf) as (n & Hn & Hcap & Hlen).
  eapply (claimable_not_live m n); eauto;
    [lia|apply wf_length, Hwf|apply wf_placed, Hwf].
Qed.

Lemma placed_holds k' h' v' :
  holds (Map.entries (placed m t e k v h)) k' h' v' <->
  holds (Map.entries m) k' h' v' \/ (k' = k /\ h' = h /\ v' = v).
Proof.
  pose proof placed_not_live as Hnl.
  unfold placed; cbn [Map.entries]. split.
  - intros (j & e' & Hj & Hh' & Hk' & Hv').
    apply list_lookup_insert_Some in Hj as [(_ & <- & _)|(Hne & Hj)].
    + right. cbn in *. split; [congruence|]. split; congruence.
    + left. exists j, e'. auto.
  - intros [(j & e' & Hj & Hh' & Hk' & Hv')|(-> & -> & ->)].
    + exists j, e'. split; [|auto].
      rewrite list_lookup_insert_ne; [exact Hj|].
      intros <-. congruence.
    + exists (Z.to_nat t), {| Entry.hash := h; Entry.key := Some k; Entry.value := v |}.
      split; [|cbn; auto].
      apply list_lookup_insert_eq. apply lookup_lt_Some in He. exact He.
Qed.

Lemma placed_well_placed : well_placed (placed m t e k v h).
Proof.
  pose proof placed_not_live as Hnl.
  intros j e' k' Hj Hk'.
  unfold placed in Hj; cbn [Map.entries] in Hj.
  apply list_lookup_insert_Some in Hj as [(<- & <- & _)|(Hne & Hj)].
  - cbn in Hk'. injection Hk' as <-. cbn [Entry.hash].
    rewrite Z2Nat.id by exact Ht. exact Hidx.
  - pose proof (wf_placed m Hwf j e' k' Hj Hk') as Hold.
    apply (map_indexOf_update m (placed m t e k v h) (Z.to_nat t) e
             {| Entry.hash := h; Entry.key := Some k; Entry.value := v |});
      [reflexivity|reflexivity|exact He| |exact Hold|lia].
    destruct Hc as [H0|[H1 _]].
    + left. apply look_Stop. exact H0.
    + right. rewrite (look_tombstone k' (Entry.hash e') e) by congruence.
      destruct (look k' (Entry.hash e') _) eqn:Hl; [| |reflexivity].
      * apply look_Stop in Hl. cbn in Hl. contradiction.
      * apply look_Hit in Hl as (_ & Hhh & Hkk). cbn in Hhh, Hkk.
        injection Hkk as ->. rewrite <- Hhh, Habsent in Hold.
        injection Hold as Hold. lia.
Qed.

Lemma placed_size :
  Map.size (placed m t e k v h) = Map.size m + 1 /\
  Map.size (placed m t e k v h) =
    Z.of_nat (count live (Map.entries (placed m t e k v h))).
Proof.
  destruct (wf_geometry m Hwf) as (n & Hn & Hcap & Hlen).
  pose proof (pow2_bounds n ltac:(lia)) as Hb.
  pose proof (count_le_length live (Map.entries m)) as Hle.
  pose proof (count_insert live (Map.entries m) (Z.to_nat t) e
                {| Entry.hash := h; Entry.key := Some k; Entry.value := v |} He) as Hci.
  assert (Hle0 : live e = false) by (unfold live; rewrite placed_not_live; reflexivity).
  rewrite Hle0 in Hci. change (live _) with true in Hci. cbv iota in Hci.
  apply lookup_lt_Some in He as Hlt. rewrite Hlen in Hle, Hlt.
  unfold placed; cbn [Map.size Map.entries].
  rewrite (wf_size m Hwf). rewrite u32_small by lia. lia.
Qed.

Lemma placed_allocated :
  Map.allocated (placed m t e k v h) =
    Z.of_nat (count used (Map.entries (placed m t e k v h))) /\
  Map.allocated m <= Map.allocated (placed m t e k v h)
    <= Map.allocated m + 1.
Proof.
  destruct (wf_geometry m Hwf) as (n & Hn & Hcap & Hlen).
  pose proof (pow2_bounds n ltac:(lia)) as Hb.
  pose proof (count_le_length used (Map.entries m)) as Hle.
  pose proof (count_insert used (Map.entries m) (Z.to_nat t) e
                {| Entry.hash := h; Entry.key := Some k; Entry.value := v |} He) as Hci.
  assert (Hnew : used {| Entry.hash := h; Entry.key := Some k; Entry.value := v |} = true).
  { unfold used. cbn. destruct (Z.eqb_spec h 0); [contradiction|reflexivity]. }
  rewrite Hnew in Hci. cbv iota in Hci.
  apply lookup_lt_Some in He as Hlt. rewrite Hlen in Hle, Hlt.
  unfold placed; cbn [Map.allocated Map.entries].
  rewrite (wf_allocated m Hwf).
  destruct (Z.eqb_spec (Entry.hash e) 0) as [H0|H0].
  - assert (Hu : used e = false) by (unfold used; rewrite H0; reflexivity).
    rewrite Hu in Hci. cbv iota in Hci.
    rewrite u32_small by lia. lia.
  - assert (Hu : used e = true).
    { unfold used. destruct (Z.eqb_spec (Entry.hash e) 0); [contradiction|reflexivity]. }
    rewrite Hu in Hci. cbv iota in Hci. lia.
Qed.

Lemma placed_wf : wf (placed m t e k v h).
Proof.
  split.
  - exact (wf_capacity m Hwf).
  - unfold placed; cbn [Map.entries Map.capacity].
    rewrite length_insert. apply wf_length, Hwf.
  - exact placed_well_placed.
  - apply placed_size.
  - apply placed_allocated.
Qed.

End Placed.

Lemma placed_hashed m t e k v :
  hashed m -> hashed (placed m t e k v (fnv1_hash k)).
Proof.
  intros Hhd j e' k' Hj Hk'.
  unfold placed in Hj; cbn [Map.entries] in Hj.
  apply list_lookup_insert_Some in Hj as [(_ & <- & _)|(Hne & Hj)].
  - cbn in Hk'. injection Hk' as <-. reflexivity.
  - eapply Hhd; eassumption.
Qed.

(* ================================================================== *)
(** ** Turning a live slot into a tombstone *)

Section Removed.

Variable m : map_t.
Hypothesis Hwf : wf m.
Variables (j : nat) (e : map_entry_t) (k : string).
Hypothesis He : Map.entries m !! j = Some e.
Hypothesis Hk : Entry.key e = Some k.

Local Abbreviation m' := (removed m (Z.of_nat j) e).

Lemma removed_entries :
  Map.entries m' =
  <[j := {| Entry.hash := Entry.hash e; Entry.key := None;
            Entry.value := Entry.value e |}]> (Map.entries m).
Proof. unfold removed; cbn [Map.entries]. rewrite Nat2Z.id. reflexivity. Qed.

Lemma removed_hash_nonzero : Entry.hash e <> 0.
Proof.
  destruct (wf_geometry m Hwf) as (n & Hn & Hcap & Hlen).
  eapply (live_hash_nonzero m n); eauto;
    [lia|apply wf_length, Hwf|apply wf_placed, Hwf].
Qed.

Lemma removed_other_slot j' e' k' :
  Map.entries m !! j' = Some e' -> Entry.key e' = Some k' -> j' <> j ->
  ~ (k' = k /\ Entry.hash e' = Entry.hash e).
Proof.
  intros He' Hk' Hne (-> & Hhh).
  pose proof (wf_placed m Hwf j e k He Hk) as H1.
  pose proof (wf_placed m Hwf j' e' k He' Hk') as H2.
  rewrite Hhh, H1 in H2. injection H2 as H2. lia.
Qed.

Lemma removed_holds k' h' v' :
  holds (Map.entries m') k' h' v' <->
  holds (Map.entries m) k' h' v' /\ ~ (k' = k /\ h' = Entry.hash e).
Proof.
  rewrite removed_entries. split.
  - intros (j' & e' & Hj' & Hh' & Hk' & Hv').
    apply list_lookup_insert_Some in Hj' as [(_ & <- & _)|(Hne & Hj')].
    + cbn in Hk'. discriminate.
    + split; [exists j', e'; auto|].
      rewrite <- Hh'. apply (removed_other_slot j' e' k'); auto.
  - intros [(j' & e' & Hj' & Hh' & Hk' & Hv') Hne].
    exists j', e'. split; [|auto].
    rewrite list_lookup_insert_ne; [exact Hj'|].
    intros <-. apply Hne. split; congruence.
Qed.

Lemma removed_well_placed : well_placed m'.
Proof.
  pose proof removed_hash_nonzero as H0.
  intros j' e' k' Hj' Hk'. rewrite removed_entries in Hj'.
  apply list_lookup_insert_Some in Hj' as [(_ & <- & _)|(Hne & Hj')].
  { cbn in Hk'. discriminate. }
  pose proof (wf_placed m Hwf j' e' k' Hj' Hk') as Hold.
  apply (map_indexOf_update m m' j e
           {| Entry.hash := Entry.hash e; Entry.key := None;
              Entry.value := Entry.value e |});
    [reflexivity|exact removed_entries|exact He| |exact Hold|lia].
  right. rewrite look_tombstone by (cbn; auto).
  symmetry. destruct (look k' (Entry.hash e') e) eqn:Hl; [| |reflexivity].
  - apply look_Stop in Hl. contradiction.
  - apply look_Hit in Hl as (_ & Hhh & Hkk).
    exfalso. apply (removed_other_slot j' e' k'); auto.
    split; congruence.
Qed.

Lemma removed_size :
  Map.size m' = Map.size m - 1 /\
  Map.size m' = Z.of_nat (count live (Map.entries m')).
Proof.
  destruct (wf_geometry m Hwf) as (n & Hn & Hcap & Hlen).
  pose proof (pow2_bounds n ltac:(lia)) as Hb.
  pose proof (count_le_length live (Map.entries m)) as Hle.
  pose proof (count_insert live (Map.entries m) j e
                {| Entry.hash := Entry.hash e; Entry.key := None;
                   Entry.value := Entry.value e |} He) as Hci.
  assert (Hl : live e = true) by (unfold live; rewrite Hk; reflexivity).
  rewrite Hl in Hci. change (live _) with false in Hci. cbv iota in Hci.
  rewrite Hlen in Hle.
  rewrite removed_entries. unfold removed; cbn [Map.size].
  rewrite (wf_size m Hwf). rewrite u32_small by lia. lia.
Qed.

Lemma removed_allocated :
  Map.allocated m' = Z.of_nat (count used (Map.entries m')).
Proof.
  pose proof (count_insert used (Map.entries m) j e
                {| Entry.hash := Entry.hash e; Entry.key := None;
                   Entry.value := Entry.value e |} He) as Hci.
  change (used {| Entry.hash := Entry.hash e; Entry.key := None;
                  Entry.value := Entry.value e |}) with (used e) in Hci.
  rewrite removed_entries. unfold removed; cbn [Map.allocated].
  rewrite (wf_allocated m Hwf). destruct (used e); lia.
Qed.

Lemma removed_wf : wf m'.
Proof.
  split.
  - exact (wf_capacity m Hwf).
  - rewrite removed_entries. unfold removed; cbn [Map.capacity].
    rewrite length_insert. apply wf_length, Hwf.
  - exact removed_well_placed.
  - apply removed_size.
  - apply removed_allocated.
Qed.

Lemma removed_hashed : hashed m -> hashed m'.
Proof.
  intros Hhd j' e' k' Hj' Hk'. rewrite removed_entries in Hj'.
  apply list_lookup_insert_Some in Hj' as [(_ & <- & _)|(Hne & Hj')].
  - cbn in Hk'. discriminate.
  - eapply Hhd; eassumption.
Qed.

End Removed.

(* ================================================================== *)
(** ** The doubling loop of [map_optimize] *)

Lemma MIN_EMPTY_SLOTS_eq : MIN_EMPTY_SLOTS = 2 ^ 3.
Proof. reflexivity. Qed.

Lemma grow_zero fuel minNewSize : 0 < minNewSize -> grow fuel 0 minNewSize = None.
Proof.
  intros Hmin. induction fuel as [|fuel IH]; cbn [grow].
  - destruct (Z.ltb_spec 0 minNewSize); [reflexivity|lia].
  - destruct (Z.ltb_spec 0 minNewSize); [exact IH|lia].
Qed.

Lemma shift_pow2 n : 0 <= n -> Z.shiftl (2 ^ n) 1 = 2 ^ (n + 1).
Proof.
  intros Hn. rewrite Z.shiftl_mul_pow2 by lia.
  rewrite Z.pow_add_r by lia. reflexivity.
Qed.

(** What the loop returns is the first power of two, from the one it
    starts at, that reaches [minNewSize]. *)
Lemma grow_pow2 fuel n minNewSize c :
  0 < minNewSize -> 3 <= n <= 31 ->
  (n = 3 \/ 2 ^ (n - 1) < minNewSize) ->
  grow fuel (2 ^ n) minNewSize = Some c ->
  exists n', n <= n' <= 31 /\ c = 2 ^ n' /\ minNewSize <= c /\
             (n' = 3 \/ 2 ^ (n' - 1) < minNewSize).
Proof.
  intros Hmin. revert n. induction fuel as [|fuel IH]; intros n Hn Hprev; cbn [grow].
  - destruct (Z.ltb_spec (2 ^ n) minNewSize); [discriminate|].
    intros [= <-]. exists n. repeat split; try lia; exact Hprev.
  - destruct (Z.ltb_spec (2 ^ n) minNewSize) as [Hlt|Hge].
    + rewrite shift_pow2 by lia. destruct (Z.eq_dec n 31) as [->|Hne].
      * change (u32 (2 ^ (31 + 1))) with 0. rewrite grow_zero by exact Hmin.
        discriminate.
      * assert (Hb : 2 ^ (n + 1) <= 2 ^ 31) by (apply Z.pow_le_mono_r; lia).
        assert (Hp : 0 < 2 ^ (n + 1)) by (apply Z.pow_pos_nonneg; lia).
        rewrite u32_small by lia. intros Hg.
        destruct (IH (n + 1)) as (n' & Hn' & Hc); [lia| |exact Hg|].
        { right. replace (n + 1 - 1) with n by lia. exact Hlt. }
        exists n'. split; [lia|exact Hc].
    + intros [= <-]. exists n. repeat split; try lia; exact Hprev.
Qed.

(** The loop ends when [minNewSize] is within the powers of two that an
    [unsigned int] holds. *)
Lemma grow_fits fuel n minNewSize :
  3 <= n <= 31 -> minNewSize <= 2 ^ 31 -> 31 - n < Z.of_nat fuel ->
  exists c, grow fuel (2 ^ n) minNewSize = Some c.
Proof.
  intros Hn Hmin. revert n Hn. induction fuel as [|fuel IH]; intros n Hn Hfuel; [lia|].
  cbn [grow]. destruct (Z.ltb_spec (2 ^ n) minNewSize) as [Hlt|Hge]; [|eauto].
  assert (Hne : n <> 31) by (intros ->; lia).
  rewrite shift_pow2 by lia.
  assert (Hb : 2 ^ (n + 1) <= 2 ^ 31) by (apply Z.pow_le_mono_r; lia).
  assert (Hp : 0 < 2 ^ (n + 1)) by (apply Z.pow_pos_nonneg; lia).
  rewrite u32_small by lia. apply IH; lia.
Qed.

(** The fuel of the model is enough: without a result after 32 rounds
    the loop has none at all. *)
Lemma grow_diverges minNewSize :
  grow 32 MIN_EMPTY_SLOTS minNewSize = None ->
  forall fuel, grow fuel MIN_EMPTY_SLOTS minNewSize = None.
Proof.
  rewrite MIN_EMPTY_SLOTS_eq. intros Hnone fuel.
  destruct (Z.le_gt_cases minNewSize (2 ^ 31)) as [Hle|Hgt].
  - assert (Hfits : exists c, grow 32 (2 ^ 3) minNewSize = Some c).
    { apply grow_fits; [lia|exact Hle|lia]. }
    destruct Hfits as [c Hc]. congruence.
  - destruct (grow fuel (2 ^ 3) minNewSize) as [c|] eqn:Hg; [|reflexivity].
    apply grow_pow2 in Hg as (n' & Hn' & -> & Hmin & _); [|lia|lia|auto].
    assert (2 ^ n' <= 2 ^ 31) by (apply Z.pow_le_mono_r; lia). lia.
Qed.

(* ================================================================== *)
(** ** The re-insertion loop of [map_optimize] *)

Lemma holds_nil k h v : ~ holds [] k h v.
Proof. intros (j & e & Hj & _). destruct j; discriminate. Qed.

Lemma holds_cons e rest k h v :
  holds (e :: rest) k h v <->
  (Entry.hash e = h /\ Entry.key e = Some k /\ Entry.value e = v) \/
  holds rest k h v.
Proof.
  split.
  - intros ([|j] & e' & Hj & H).
    + cbn in Hj. injection Hj as <-. left. exact H.
    + right. exists j, e'. split; [exact Hj|exact H].
  - intros [H|(j & e' & Hj & H)].
    + exists O, e. split; [reflexivity|exact H].
    + exists (S j), e'. split; [exact Hj|exact H].
Qed.

Lemma count_ext (p q : map_entry_t -> bool) es :
  (forall j e, es !! j = Some e -> p e = q e) -> count p es = count q es.
Proof.
  intros H. apply Nat.le_antisymm; apply count_le; intros j e He Hp.
  - rewrite <- (H j e He). exact Hp.
  - rewrite (H j e He). exact Hp.
Qed.

Lemma clean_allocated a : wf a -> clean a -> Map.allocated a = Map.size a.
Proof.
  intros Hwf Hclean. rewrite (wf_allocated a Hwf), (wf_size a Hwf).
  f_equal. apply count_ext. intros j e He.
  destruct (wf_geometry a Hwf) as (n & Hn & Hcap & Hlen).
  unfold used, live. destruct (Entry.key e) as [k|] eqn:Hk.
  - assert (H0 : Entry.hash e <> 0).
    { eapply (live_hash_nonzero a n); eauto;
        [lia|apply wf_length, Hwf|apply wf_placed, Hwf]. }
    destruct (Z.eqb_spec (Entry.hash e) 0); [contradiction|reflexivity].
  - rewrite (Hclean j e He Hk). reflexivity.
Qed.

Lemma placed_clean m t e k v h :
  clean m -> clean (placed m t e k v h).
Proof.
  intros Hclean j e' Hj Hk. unfold placed in Hj; cbn [Map.entries] in Hj.
  apply list_lookup_insert_Some in Hj as [(_ & <- & _)|(_ & Hj)].
  - cbn in Hk. discriminate.
  - eapply Hclean; eassumption.
Qed.

Lemma wf_empty_slot a :
  wf a -> Map.allocated a < Map.capacity a ->
  exists j e, Map.entries a !! j = Some e /\ Entry.hash e = 0.
Proof.
  intros Hwf Hlt. destruct (wf_geometry a Hwf) as (n & Hn & Hcap & Hlen).
  rewrite (wf_allocated a Hwf), Hcap in Hlt.
  destruct (count_lt_length used (Map.entries a)) as (j & e & He & Hu).
  { rewrite Hlen. pose proof (pow2_bounds n ltac:(lia)). lia. }
  exists j, e. split; [exact He|]. unfold used in Hu.
  destruct (Z.eqb_spec (Entry.hash e) 0); [assumption|discriminate].
Qed.

(** Placing an absent key in a well-formed map with a free slot. *)
Lemma map_set_wf a k v h :
  wf a -> h <> 0 -> map_indexOf a k h = Some (-1) ->
  Map.allocated a < Map.capacity a ->
  exists t e,
    Map.entries a !! Z.to_nat t = Some e /\ 0 <= t /\
    map_set a k v h 0 = Some (OK, placed a t e k v h) /\
    wf (placed a t e k v h) /\
    Map.size (placed a t e k v h) = Map.size a + 1 /\
    Map.allocated a <= Map.allocated (placed a t e k v h)
      <= Map.allocated a + 1 /\
    (forall k' h' v',
       holds (Map.entries (placed a t e k v h)) k' h' v' <->
       holds (Map.entries a) k' h' v' \/ (k' = k /\ h' = h /\ v' = v)).
Proof.
  intros Hwf Hh Habs Hlt.
  destruct (wf_geometry a Hwf) as (n & Hn & Hcap & Hlen).
  destruct (map_set_absent a n ltac:(lia) Hcap (wf_length a Hwf) k v h Hh Habs
              (wf_empty_slot a Hwf Hlt))
    as (t & e & Ht & He & Hc & Hset & Hidx).
  exists t, e. split; [exact He|]. split; [lia|]. split; [exact Hset|].
  split; [apply placed_wf; auto; lia|].
  split; [apply placed_size; auto; lia|].
  split; [apply placed_allocated; auto; lia|].
  intros k' h' v'. apply placed_holds; auto.
Qed.

Lemma readd_correct rest :
  forall acc,
    wf acc -> clean acc ->
    (forall i e k, rest !! i = Some e -> Entry.key e = Some k ->
       Entry.hash e <> 0 /\ map_indexOf acc k (Entry.hash e) = Some (-1)) ->
    distinct rest ->
    Map.size acc + Z.of_nat (count live rest) < Map.capacity acc ->
    exists acc',
      readd acc rest (length rest) = Some (OK, acc') /\
      wf acc' /\ clean acc' /\
      Map.magic acc' = Map.magic acc /\
      Map.capacity acc' = Map.capacity acc /\
      Map.size acc' = Map.size acc + Z.of_nat (count live rest) /\
      (forall k h v,
         holds (Map.entries acc') k h v <->
         holds (Map.entries acc) k h v \/ holds rest k h v).
Proof.
  induction rest as [|e rest IH]; intros acc Hwf Hclean Hnew Hdist Hroom.
  { exists acc. cbn [readd length count].
    split; [reflexivity|]. split; [exact Hwf|]. split; [exact Hclean|].
    split; [reflexivity|]. split; [reflexivity|]. split; [lia|].
    intros k h v. split.
    - intros H. left. exact H.
    - intros [H|H]; [exact H|]. exfalso. exact (holds_nil _ _ _ H). }
  assert (Hdist' : distinct rest).
  { intros i i' x x' k Hi Hi' Hk Hk' Hh.
    assert (S i = S i') by (eapply Hdist; eauto). lia. }
  cbn [readd length]. destruct (Entry.key e) as [k|] eqn:Hk.
  - destruct (Hnew O e k eq_refl Hk) as [Hh Habs].
    assert (Hlive : live e = true) by (unfold live; rewrite Hk; reflexivity).
    cbn [count] in Hroom. rewrite Hlive in Hroom.
    assert (Hlt : Map.allocated acc < Map.capacity acc).
    { rewrite (clean_allocated acc Hwf Hclean). lia. }
    destruct (map_set_wf acc k (Entry.value e) (Entry.hash e) Hwf Hh Habs Hlt)
      as (t & et & Het & Ht & Hset & Hwf1 & Hsize1 & _ & Hholds1).
    rewrite Hset. cbn [mbind option_bind].
    destruct (wf_geometry _ Hwf1) as (n & Hn & Hcap1 & Hlen1).
    destruct (IH (placed acc t et k (Entry.value e) (Entry.hash e)))
      as (acc' & Hre & Hwf' & Hclean' & Hmagic & Hcap & Hsize & Hholds).
    + exact Hwf1.
    + apply placed_clean, Hclean.
    + intros i x kx Hi Hkx.
      destruct (Hnew (S i) x kx Hi Hkx) as [Hx0 Hxabs].
      split; [exact Hx0|].
      apply wf_not_holds_absent; [exact Hwf1|].
      intros vx Hx. apply Hholds1 in Hx as [Hx|(-> & Hxh & _)].
      * revert Hx. apply wf_absent_not_holds; [exact Hwf|exact Hxabs].
      * assert (S i = O) by (eapply (Hdist (S i) O x e k); eauto). lia.
    + exact Hdist'.
    + rewrite Hsize1. unfold placed; cbn [Map.capacity]. lia.
    + exists acc'. split; [exact Hre|]. split; [exact Hwf'|].
      split; [exact Hclean'|]. split; [exact Hmagic|].
      split; [exact Hcap|]. split.
      * rewrite Hsize, Hsize1. cbn [count]. rewrite Hlive. lia.
      * intros k' h' v'. rewrite Hholds, Hholds1, holds_cons.
        split.
        -- intros [[H|(-> & -> & ->)]|H]; auto.
        -- intros [H|[(<- & Hk' & <-)|H]]; auto.
           left. right. split; [congruence|auto].
  - assert (Hlive : live e = false) by (unfold live; rewrite Hk; reflexivity).
    cbn [count] in Hroom. rewrite Hlive in Hroom.
    destruct (IH acc) as (acc' & Hre & Hwf' & Hclean' & Hmagic & Hcap & Hsize & Hholds);
      auto.
    + intros i x kx Hi Hkx. apply (Hnew (S i) x kx Hi Hkx).
    + exists acc'. split; [exact Hre|]. split; [exact Hwf'|].
      split; [exact Hclean'|]. split; [exact Hmagic|].
      split; [exact Hcap|]. split.
      * rewrite Hsize. cbn [count]. rewrite Hlive. lia.
      * intros k' h' v'. rewrite Hholds, holds_cons.
        split.
        -- intros [H|H]; auto.
        -- intros [H|[(_ & Hk' & _)|H]]; auto. congruence.
Qed.

Lemma holds_insert es j new k h v :
  holds (<[j := new]> es) k h v ->
  holds es k h v \/
  (Entry.hash new = h /\ Entry.key new = Some k /\ Entry.value new = v).
Proof.
  intros (j' & e & Hj & H).
  apply list_lookup_insert_Some in Hj as [(_ & <- & _)|(_ & Hj)].
  - right. exact H.
  - left. exists j', e. split; [exact Hj|exact H].
Qed.

(** The loop into an array that is shorter than the capacity: when it
    has a result, every live entry has claimed a slot of its own. *)
Lemma readd_short n rest :
  0 <= n <= 31 ->
  forall acc r acc',
    Map.capacity acc = 2 ^ n ->
    (length (Map.entries acc) < Z.to_nat (2 ^ n))%nat ->
    clean acc ->
    (forall k h v v', holds (Map.entries acc) k h v -> ~ holds rest k h v') ->
    (forall i e k, rest !! i = Some e -> Entry.key e = Some k ->
       Entry.hash e <> 0) ->
    distinct rest ->
    readd acc rest (length rest) = Some (r, acc') ->
    r = OK /\ length (Map.entries acc') = length (Map.entries acc) /\
    count used (Map.entries acc') =
      (count used (Map.entries acc) + count live rest)%nat.
Proof.
  intros Hn. pose proof (pow2_bounds n Hn) as Hpow.
  induction rest as [|e rest IH];
    intros acc r acc' Hcap Hlen Hclean Hfresh Hnz Hdist Hre.
  { cbn in Hre. injection Hre as <- <-. cbn [count].
    split; [reflexivity|]. split; [reflexivity|lia]. }
  assert (Hdist' : distinct rest).
  { intros i i' x x' k Hi Hi' Hk Hk' Hh.
    assert (S i = S i') by (eapply Hdist; eauto). lia. }
  cbn [readd length] in Hre. cbn [count].
  destruct (Entry.key e) as [k|] eqn:Hk.
  - assert (Hlive : live e = true) by (unfold live; rewrite Hk; reflexivity).
    rewrite Hlive. pose proof (Hnz O e k eq_refl Hk) as Hh.
    destruct (map_set acc k (Entry.value e) (Entry.hash e) 0)
      as [[r1 acc1]|] eqn:Hset; [|discriminate].
    cbn [mbind option_bind] in Hre.
    unfold map_set in Hset. rewrite Hcap, (start_index n Hn) in Hset.
    apply (map_set_loop_some n Hn acc k (Entry.value e) (Entry.hash e) Hh)
      in Hset; [|apply index_in_range; exact Hn].
    destruct Hset
      as [(-> & t & et & Het & Hc & ->)|[(-> & j & ej & Hj & Hjh & Hjk)|(-> & Hall)]].
    + assert (Het0 : Entry.hash et = 0).
      { destruct Hc as [Hc|[_ Hck]]; [exact Hc|]. exact (Hclean _ _ Het Hck). }
      destruct (IH (placed acc t et k (Entry.value e) (Entry.hash e)) r acc')
        as (Hr & Hlen' & Hcount).
      * unfold placed; cbn [Map.capacity]. exact Hcap.
      * unfold placed; cbn [Map.entries]. rewrite length_insert. exact Hlen.
      * apply placed_clean, Hclean.
      * intros k' h' v' v'' Hin Hrest.
        unfold placed in Hin; cbn [Map.entries] in Hin.
        apply holds_insert in Hin as [Hin|(Hh' & Hk' & _)].
        -- apply (Hfresh k' h' v' v'' Hin). apply holds_cons. right. exact Hrest.
        -- cbn in Hh', Hk'. injection Hk' as <-.
           destruct Hrest as (i & x & Hi & Hxh & Hxk & _).
           assert (S i = O) by (eapply (Hdist (S i) O x e k); eauto; congruence).
           lia.
      * intros i x kx Hi Hkx. apply (Hnz (S i) x kx Hi Hkx).
      * exact Hdist'.
      * exact Hre.
      * split; [exact Hr|].
        unfold placed in Hlen', Hcount; cbn [Map.entries] in Hlen', Hcount.
        rewrite length_insert in Hlen'. split; [exact Hlen'|].
        pose proof (count_insert used (Map.entries acc) (Z.to_nat t) et
                      {| Entry.hash := Entry.hash e; Entry.key := Some k;
                         Entry.value := Entry.value e |} Het) as Hci.
        assert (Hu : used et = false) by (unfold used; rewrite Het0; reflexivity).
        assert (Hu' : used {| Entry.hash := Entry.hash e; Entry.key := Some k;
                              Entry.value := Entry.value e |} = true).
        { unfold used; cbn [Entry.hash].
          destruct (Z.eqb_spec (Entry.hash e) 0); [contradiction|reflexivity]. }
        rewrite Hu, Hu' in Hci. cbv iota in Hci. lia.
    + exfalso. apply (Hfresh k (Entry.hash e) (Entry.value ej) (Entry.value e)).
      * exists j, ej. auto.
      * apply holds_cons. left. auto.
    + exfalso.
      pose proof (index_in_range n Hn (Entry.hash e)) as Hi0.
      set (i0 := Entry.hash e mod 2 ^ n) in *.
      set (L := Z.of_nat (length (Map.entries acc))).
      assert (HL : 0 <= L < 2 ^ n) by (unfold L; lia).
      pose proof (index_in_range n Hn (L - i0)) as Hs.
      destruct (Hall (Z.to_nat ((L - i0) mod 2 ^ n))) as [x Hx]; [lia|].
      rewrite Z2Nat.id in Hx by lia.
      rewrite Zplus_mod_idemp_r in Hx.
      replace (i0 + (L - i0)) with L in Hx by lia.
      rewrite Z.mod_small in Hx by exact HL.
      unfold L in Hx. rewrite Nat2Z.id in Hx.
      apply lookup_lt_Some in Hx. lia.
  - assert (Hlive : live e = false) by (unfold live; rewrite Hk; reflexivity).
    rewrite Hlive.
    destruct (IH acc r acc') as (Hr & Hlen' & Hcount); auto.
    + intros k' h' v' v'' Hin Hrest. apply (Hfresh k' h' v' v'' Hin).
      apply holds_cons. right. exact Hrest.
    + intros i x kx Hi Hkx. apply (Hnz (S i) x kx Hi Hkx).
Qed.

(* ================================================================== *)
(** ** [map_optimize] *)

Lemma wf_distinct m : wf m -> distinct (Map.entries m).
Proof.
  intros Hwf i i' e e' k Hi Hi' Hk Hk' Hh.
  pose proof (wf_placed m Hwf i e k Hi Hk) as H1.
  pose proof (wf_placed m Hwf i' e' k Hi' Hk') as H2.
  rewrite Hh, H2 in H1. injection H1 as H1. lia.
Qed.

Lemma calloc_lookup c j e : calloc_entries c !! j = Some e -> e = zero_entry.
Proof. unfold calloc_entries. intros H. apply lookup_replicate in H. tauto. Qed.

(** Up to 2^27 slots the byte count is within [unsigned int]: the array
    has the slots asked for. *)
Lemma calloc_length c :
  0 <= c <= 2 ^ 27 ->
  length (calloc_entries (u32 (sizeof_map_entry_t * c))) = Z.to_nat c.
Proof.
  intros Hc. unfold calloc_entries, sizeof_map_entry_t.
  rewrite length_replicate, u32_small by lia.
  rewrite Z.mul_comm, Z.div_mul by lia. reflexivity.
Qed.

(** From 2^28 slots the byte count wraps around: the array has fewer
    slots than the map has live entries. *)
Lemma calloc_short n :
  28 <= n <= 31 ->
  Z.of_nat (length (calloc_entries (u32 (sizeof_map_entry_t * 2 ^ n))))
    < 2 ^ 27 - 8.
Proof.
  intros Hn. unfold calloc_entries. rewrite length_replicate.
  assert (Hc : n = 28 \/ n = 29 \/ n = 30 \/ n = 31) by lia.
  destruct Hc as [-> | [-> | [-> | ->]]];
    (rewrite Z2Nat.id by (vm_compute; discriminate));
    vm_compute; reflexivity.
Qed.

Lemma calloc_wf mg n :
  3 <= n <= 27 ->
  wf {| Map.magic := mg; Map.capacity := 2 ^ n; Map.allocated := 0;
        Map.size := 0;
        Map.entries := calloc_entries (u32 (sizeof_map_entry_t * 2 ^ n)) |}.
Proof.
  intros Hn. split; cbn [Map.capacity Map.entries Map.size Map.allocated].
  - exists n. split; [lia|reflexivity].
  - apply calloc_length.
    assert (2 ^ n <= 2 ^ 27) by (apply Z.pow_le_mono_r; lia).
    pose proof (Z.pow_pos_nonneg 2 n ltac:(lia) ltac:(lia)). lia.
  - intros j e k Hj Hk. cbn [Map.entries] in Hj.
    apply calloc_lookup in Hj. subst e. discriminate.
  - unfold calloc_entries. rewrite count_replicate_false; reflexivity.
  - unfold calloc_entries. rewrite count_replicate_false; reflexivity.
Qed.

Lemma calloc_clean mg c bytes :
  clean {| Map.magic := mg; Map.capacity := c; Map.allocated := 0;
           Map.size := 0; Map.entries := calloc_entries bytes |}.
Proof.
  intros j e Hj _. cbn [Map.entries] in Hj.
  apply calloc_lookup in Hj. subst e. reflexivity.
Qed.

Lemma calloc_holds c k h v : ~ holds (calloc_entries c) k h v.
Proof.
  intros (j & e & Hj & _ & Hk & _). apply calloc_lookup in Hj. subst e.
  discriminate.
Qed.

Lemma wf_min_size m :
  wf m ->
  u32 (Map.size m + MIN_EMPTY_SLOTS) = Map.size m + 8 /\ 0 <= Map.size m.
Proof.
  intros Hwf. destruct (wf_capacity_ok m Hwf) as (_ & _ & Hs & Ha).
  destruct (wf_geometry m Hwf) as (n & Hn & Hcap & _).
  pose proof (pow2_bounds n ltac:(lia)) as Hb.
  change MIN_EMPTY_SLOTS with 8. split; [|lia].
  apply u32_small. lia.
Qed.

Lemma new_capacity_least m c :
  0 <= Map.size m -> new_capacity m c ->
  is_pow2 c /\ Map.size m + 8 <= c /\
  forall c', is_pow2 c' -> Map.size m + 8 <= c' -> c <= c'.
Proof.
  intros Hs (n & Hn & -> & Hge & Hmin).
  split; [exists n; split; [lia|reflexivity]|]. split; [exact Hge|].
  intros c' (n' & Hn' & ->) Hge'.
  apply Z.pow_le_mono_r; [lia|].
  destruct (Z.le_gt_cases n n') as [Hle|Hgt]; [exact Hle|exfalso].
  assert (Hp : 2 ^ n' <= 2 ^ (n - 1)) by (apply Z.pow_le_mono_r; lia).
  destruct Hmin as [->|Hlt]; [|lia].
  assert (2 ^ n' <= 2 ^ 2) by (apply Z.pow_le_mono_r; lia). lia.
Qed.

(** What [map_optimize] does once its doubling loop has ended. *)
Lemma map_optimize_grown m newLength :
  wf m ->
  grow 32 MIN_EMPTY_SLOTS (u32 (Map.size m + MIN_EMPTY_SLOTS)) = Some newLength ->
  newLength <= 2 ^ 27 ->
  exists m',
    map_optimize m = Some (OK, m') /\ wf m' /\ clean m' /\
    Map.magic m' = Map.magic m /\ Map.capacity m' = newLength /\
    new_capacity m newLength /\
    Map.size m' = Map.size m /\ Map.allocated m' = Map.size m /\
    (forall k h v,
       holds (Map.entries m') k h v <-> holds (Map.entries m) k h v).
Proof.
  intros Hwf Hgrow Hsmall. destruct (wf_min_size m Hwf) as [Hmin Hs].
  assert (Hnew : new_capacity m newLength).
  { rewrite Hmin, MIN_EMPTY_SLOTS_eq in Hgrow.
    apply grow_pow2 in Hgrow as (n & Hn & Hc & Hge & Hleast); [|lia|lia|auto].
    exists n. auto. }
  destruct Hnew as (n & Hn & -> & Hge & Hleast).
  assert (Hn27 : 3 <= n <= 27).
  { split; [lia|]. destruct (Z.le_gt_cases n 27) as [H|H]; [exact H|].
    assert (2 ^ 28 <= 2 ^ n) by (apply Z.pow_le_mono_r; lia). lia. }
  unfold map_optimize. rewrite Hgrow. cbn [mbind option_bind]. cbv zeta.
  rewrite <- (wf_length m Hwf).
  destruct (readd_correct (Map.entries m)
              {| Map.magic := Map.magic m; Map.capacity := 2 ^ n;
                 Map.allocated := 0; Map.size := 0;
                 Map.entries :=
                   calloc_entries (u32 (sizeof_map_entry_t * 2 ^ n)) |})
    as (m' & Hre & Hwf' & Hclean' & Hmagic & Hcap & Hsize & Hholds).
  - apply calloc_wf, Hn27.
  - apply calloc_clean.
  - intros i e k Hi Hk. split; [eapply wf_live_hash_nonzero; eauto|].
    apply wf_not_holds_absent; [apply calloc_wf, Hn27|].
    intros v. cbn [Map.entries]. apply calloc_holds.
  - apply wf_distinct, Hwf.
  - cbn [Map.size Map.capacity]. rewrite <- (wf_size m Hwf). lia.
  - cbn [Map.size Map.capacity Map.magic Map.entries] in *.
    rewrite <- (wf_size m Hwf) in Hsize.
    exists m'. split; [exact Hre|]. split; [exact Hwf'|].
    split; [exact Hclean'|]. split; [exact Hmagic|]. split; [exact Hcap|].
    split; [exists n; auto|]. split; [lia|].
    split; [rewrite (clean_allocated m' Hwf' Hclean'); lia|].
    intros k h v. rewrite Hholds. split; [|auto].
    intros [H|H]; [|exact H]. exfalso. exact (calloc_holds _ _ _ _ H).
Qed.

(** When the doubling loop ends above 2^27 slots, the byte count of the
    new array has wrapped around: the array is too short for the live
    entries, and the re-insertion leaves it. *)
Lemma map_optimize_short m newLength :
  wf m ->
  grow 32 MIN_EMPTY_SLOTS (u32 (Map.size m + MIN_EMPTY_SLOTS)) = Some newLength ->
  2 ^ 27 < newLength ->
  map_optimize m = None.
Proof.
  intros Hwf Hgrow Hbig. destruct (wf_min_size m Hwf) as [Hmin Hs].
  pose proof Hgrow as Hg. rewrite Hmin, MIN_EMPTY_SLOTS_eq in Hg.
  apply grow_pow2 in Hg as (n & Hn & Hc & Hge & Hleast); [|lia|lia|auto].
  subst newLength.
  assert (Hn28 : 28 <= n <= 31).
  { split; [|lia]. destruct (Z.le_gt_cases 28 n) as [H|H]; [exact H|].
    assert (2 ^ n <= 2 ^ 27) by (apply Z.pow_le_mono_r; lia). lia. }
  assert (Hhalf : 2 ^ 27 <= 2 ^ (n - 1)) by (apply Z.pow_le_mono_r; lia).
  assert (Hpow : 2 ^ 28 <= 2 ^ n) by (apply Z.pow_le_mono_r; lia).
  pose proof (calloc_short n Hn28) as Hshort.
  destruct (map_optimize m) as [[r m']|] eqn:Hopt; [exfalso|reflexivity].
  unfold map_optimize in Hopt. rewrite Hgrow in Hopt.
  cbn [mbind option_bind] in Hopt. cbv zeta in Hopt.
  rewrite <- (wf_length m Hwf) in Hopt.
  set (acc := {| Map.magic := Map.magic m; Map.capacity := 2 ^ n;
                 Map.allocated := 0; Map.size := 0;
                 Map.entries :=
                   calloc_entries (u32 (sizeof_map_entry_t * 2 ^ n)) |})
    in Hopt.
  destruct (readd_short n (Map.entries m) ltac:(lia) acc r m')
    as (_ & Hlen & Hcount).
  - reflexivity.
  - unfold acc; cbn [Map.entries]. lia.
  - apply calloc_clean.
  - intros k h v v' Hin. exfalso. exact (calloc_holds _ _ _ _ Hin).
  - intros i e k Hi Hk. eapply wf_live_hash_nonzero; eauto.
  - apply wf_distinct, Hwf.
  - exact Hopt.
  - pose proof (count_le_length used (Map.entries m')) as Hle.
    pose proof (wf_size m Hwf) as Hsize.
    unfold acc in Hlen, Hcount; cbn [Map.entries] in Hlen, Hcount.
    assert (H0 : count used
                   (calloc_entries (u32 (sizeof_map_entry_t * 2 ^ n))) = O).
    { unfold calloc_entries. apply count_replicate_false. reflexivity. }
    destruct Hleast as [->|Hleast]; lia.
Qed.

Lemma map_optimize_result m r m' :
  wf m -> map_optimize m = Some (r, m') ->
  r = OK /\ wf m' /\ clean m' /\ Map.magic m' = Map.magic m /\
  new_capacity m (Map.capacity m') /\
  Map.size m' = Map.size m /\ Map.allocated m' = Map.size m /\
  (forall k h v,
     holds (Map.entries m') k h v <-> holds (Map.entries m) k h v).
Proof.
  intros Hwf Hopt.
  destruct (grow 32 MIN_EMPTY_SLOTS (u32 (Map.size m + MIN_EMPTY_SLOTS)))
    as [newLength|] eqn:Hgrow.
  - destruct (Z.le_gt_cases newLength (2 ^ 27)) as [Hsmall|Hbig].
    + destruct (map_optimize_grown m newLength Hwf Hgrow Hsmall)
        as (m1 & Hopt1 & Hwf1 & Hclean1 & Hmagic1 & Hcap1 & Hnew & Hrest).
      rewrite Hopt1 in Hopt. injection Hopt as <- <-.
      rewrite Hcap1. auto 10.
    + rewrite (map_optimize_short m newLength Hwf Hgrow Hbig) in Hopt.
      discriminate.
  - unfold map_optimize in Hopt. rewrite Hgrow in Hopt. discriminate.
Qed.

Lemma map_optimize_fits m :
  wf m -> fits m ->
  exists newLength,
    grow 32 MIN_EMPTY_SLOTS (u32 (Map.size m + MIN_EMPTY_SLOTS)) = Some newLength /\
    newLength <= 2 ^ 27.
Proof.
  intros Hwf Hfits. destruct (wf_min_size m Hwf) as [Hmin Hs].
  unfold fits in Hfits. change MIN_EMPTY_SLOTS with 8 in Hfits.
  assert (Hg : exists c, grow 32 (2 ^ 3) (Map.size m + 8) = Some c).
  { apply grow_fits; lia. }
  destruct Hg as [c Hc]. exists c.
  rewrite Hmin, MIN_EMPTY_SLOTS_eq. split; [exact Hc|].
  apply grow_pow2 in Hc as (n & Hn & Hcn & Hge & Hleast); [|lia|lia|auto].
  subst c. apply Z.pow_le_mono_r; [lia|].
  destruct (Z.le_gt_cases n 27) as [H|H]; [exact H|exfalso].
  assert (2 ^ 27 <= 2 ^ (n - 1)) by (apply Z.pow_le_mono_r; lia).
  destruct Hleast as [->|Hleast]; lia.
Qed.

(** Beyond 2^27 slots [map_optimize] has no result. *)
Lemma map_optimize_beyond m : wf m -> ~ fits m -> map_optimize m = None.
Proof.
  intros Hwf Hno.
  destruct (grow 32 MIN_EMPTY_SLOTS (u32 (Map.size m + MIN_EMPTY_SLOTS)))
    as [newLength|] eqn:Hgrow.
  - apply (map_optimize_short m newLength Hwf Hgrow).
    destruct (wf_min_size m Hwf) as [Hmin Hs].
    rewrite Hmin, MIN_EMPTY_SLOTS_eq in Hgrow.
    apply grow_pow2 in Hgrow as (n & Hn & Hc & Hge & _); [|lia|lia|auto].
    unfold fits in Hno. change MIN_EMPTY_SLOTS with 8 in Hno. lia.
  - unfold map_optimize. rewrite Hgrow. reflexivity.
Qed.

Lemma map_optimize_hashed m m' :
  wf m -> hashed m ->
  (forall k h v, holds (Map.entries m') k h v <-> holds (Map.entries m) k h v) ->
  hashed m'.
Proof.
  intros Hwf Hhd Hholds j e k Hj Hk.
  assert (Hh : holds (Map.entries m') k (Entry.hash e) (Entry.value e)).
  { exists j, e. auto. }
  apply Hholds in Hh as (j0 & e0 & Hj0 & Hh0 & Hk0 & _).
  rewrite <- Hh0. eapply Hhd; eassumption.
Qed.

(* ================================================================== *)
(** ** The public operations on a map that satisfies the invariants *)

Lemma magic_test m : Map.magic m = MAGIC -> negb (Map.magic m =? MAGIC) = false.
Proof. intros ->. reflexivity. Qed.

Lemma map_put_present m k v r :
  Map.magic m = MAGIC ->
  map_indexOf m k (fnv1_hash k) = Some r -> 0 <= r ->
  map_put (Some m) (Some k) v = Some (KEY_EXISTS, Some m).
Proof.
  intros Hmagic Hidx Hr. unfold map_put.
  rewrite (magic_test m Hmagic), Hidx. cbn [mbind option_bind].
  rewrite Z.geb_leb. destruct (Z.leb_spec 0 r); [reflexivity|lia].
Qed.

(** A put of an absent key claims a slot, after a rehash when every
    slot has been written; it has no result only when the rehash needs
    more than 2^27 slots. *)
Lemma map_put_absent m k v :
  map_inv m -> map_indexOf m k (fnv1_hash k) = Some (-1) ->
  (map_put (Some m) (Some k) v = None /\ ~ fits m /\
   Map.capacity m <= Map.allocated m)
  \/ exists m',
       map_put (Some m) (Some k) v = Some (OK, Some m') /\ map_inv m' /\
       Map.size m' = Map.size m + 1 /\
       (forall k' h' v',
          holds (Map.entries m') k' h' v' <->
          holds (Map.entries m) k' h' v' \/
          (k' = k /\ h' = fnv1_hash k /\ v' = v)) /\
       (Map.allocated m < Map.capacity m ->
        Map.capacity m' = Map.capacity m /\
        Map.allocated m <= Map.allocated m' <= Map.allocated m + 1) /\
       (Map.capacity m <= Map.allocated m ->
        new_capacity m (Map.capacity m') /\ Map.allocated m' = Map.size m + 1) /\
       (clean m -> clean m').
Proof.
  intros (Hmagic & Hwf & Hhd) Habs.
  pose proof (fnv1_hash_nonzero k) as Hh.
  unfold map_put. rewrite (magic_test m Hmagic), Habs.
  cbn [mbind option_bind]. change (-1 >=? 0) with false. cbv iota.
  unfold put_optimizes. rewrite Z.geb_leb.
  destruct (Z.leb_spec (Map.capacity m) (Map.allocated m)) as [Hfull|Hroom].
  - destruct (grow 32 MIN_EMPTY_SLOTS (u32 (Map.size m + MIN_EMPTY_SLOTS)))
      as [newLength|] eqn:Hgrow.
    + destruct (Z.le_gt_cases newLength (2 ^ 27)) as [Hsmall|Hbig]; cycle 1.
      { left. rewrite (map_optimize_short m newLength Hwf Hgrow Hbig).
        split; [reflexivity|]. split; [|exact Hfull].
        intros Hfits. destruct (map_optimize_fits m Hwf Hfits) as (c & Hc & Hle).
        rewrite Hgrow in Hc. injection Hc as <-. lia. }
      right.
      destruct (map_optimize_grown m newLength Hwf Hgrow Hsmall)
        as (m1 & Hopt & Hwf1 & Hclean1 & Hmagic1 & Hcap1 & Hnew & Hsize1 & Halloc1 & Hholds1).
      rewrite Hopt. cbn [fmap option_fmap option_map snd mbind option_bind].
      assert (Habs1 : map_indexOf m1 k (fnv1_hash k) = Some (-1)).
      { apply wf_not_holds_absent; [exact Hwf1|]. intros v' Hv'.
        apply Hholds1 in Hv'. revert Hv'. apply wf_absent_not_holds; assumption. }
      assert (Hlt1 : Map.allocated m1 < Map.capacity m1).
      { destruct Hnew as (n & _ & Hc & Hge & _). lia. }
      destruct (map_set_wf m1 k v (fnv1_hash k) Hwf1 Hh Habs1 Hlt1)
        as (t & e & He & Ht & Hset & Hwf2 & Hsize2 & Halloc2 & Hholds2).
      rewrite Hset. cbn [mbind option_bind].
      exists (placed m1 t e k v (fnv1_hash k)).
      split; [reflexivity|]. split.
      { split; [unfold placed; cbn [Map.magic]; congruence|].
        split; [exact Hwf2|].
        apply placed_hashed.
        apply (map_optimize_hashed m m1); assumption. }
      split; [lia|]. split.
      { intros k' h' v'. rewrite Hholds2, Hholds1. reflexivity. }
      split; [intros; lia|].
      split; [|intros _; apply placed_clean, Hclean1].
      intros _. split.
      * unfold placed; cbn [Map.capacity]. rewrite Hcap1. exact Hnew.
      * rewrite (clean_allocated _ Hwf2 (placed_clean _ _ _ _ _ _ Hclean1)).
        lia.
    + left. cbn [fmap option_fmap option_map mbind option_bind].
      unfold map_optimize. rewrite Hgrow. cbn.
      split; [reflexivity|]. split; [|exact Hfull].
      intros Hfits. destruct (map_optimize_fits m Hwf Hfits) as (c & Hc & _).
      congruence.
  - right.
    destruct (map_set_wf m k v (fnv1_hash k) Hwf Hh Habs Hroom)
      as (t & e & He & Ht & Hset & Hwf2 & Hsize2 & Halloc2 & Hholds2).
    cbn [mbind option_bind]. rewrite Hset. cbn [mbind option_bind].
    exists (placed m t e k v (fnv1_hash k)).
    split; [reflexivity|]. split.
    { split; [unfold placed; cbn [Map.magic]; congruence|].
      split; [exact Hwf2|]. apply placed_hashed, Hhd. }
    split; [exact Hsize2|]. split; [exact Hholds2|].
    split; [intros _; split; [reflexivity|exact Halloc2]|].
    split; [intros; lia|]. intros Hclean. apply placed_clean, Hclean.
Qed.


(** A put that returns OK has stored its binding. *)
Lemma map_put_stored m m1 k v :
  map_inv m ->
  map_put (Some m) (Some k) v = Some (OK, Some m1) ->
  map_inv m1 /\ holds (Map.entries m1) k (fnv1_hash k) v.
Proof.
  intros Hinv Hput. pose proof Hinv as (Hmagic & Hwf & Hhd).
  destruct (wf_indexOf_result m k (fnv1_hash k) Hwf)
    as (r & Hr & [->|(j & e & -> & _)]).
  - destruct (map_put_absent m k v Hinv Hr)
      as [(Hnone & _)|(m' & Hput' & Hinv' & _ & Hholds & _)]; [congruence|].
    rewrite Hput' in Hput. injection Hput as <-.
    split; [exact Hinv'|]. apply Hholds. right. auto.
  - rewrite (map_put_present m k v (Z.of_nat j) Hmagic Hr) in Hput by lia.
    discriminate.
Qed.

Lemma map_get_present m k v :
  map_inv m -> holds (Map.entries m) k (fnv1_hash k) v ->
  map_get (Some m) (Some k) = Some (v, Some m).
Proof.
  intros (Hmagic & Hwf & Hhd) Hholds.
  apply (holds_indexOf m (wf_placed m Hwf)) in Hholds
    as (j & e & Hidx & He & _ & _ & Hv).
  unfold map_get. rewrite (magic_test m Hmagic), Hidx.
  cbn [mbind option_bind].
  destruct (Z.ltb_spec (Z.of_nat j) 0); [lia|].
  rewrite Nat2Z.id, He. cbn [mbind option_bind]. rewrite Hv. reflexivity.
Qed.

Lemma map_get_absent m k :
  Map.magic m = MAGIC -> map_indexOf m k (fnv1_hash k) = Some (-1) ->
  map_get (Some m) (Some k) = Some (None, Some m).
Proof.
  intros Hmagic Hidx. unfold map_get.
  rewrite (magic_test m Hmagic), Hidx. reflexivity.
Qed.

(** [map_get] leaves the state as it is, whatever the state. *)
Lemma map_get_state self key r s :
  map_get self key = Some (r, s) -> s = self.
Proof.
  unfold map_get. destruct self as [m|], key as [k|]; try (intros [= _ <-]; reflexivity).
  destruct (negb _); [intros [= _ <-]; reflexivity|].
  destruct (map_indexOf m k (fnv1_hash k)) as [i|]; [|discriminate].
  cbn [mbind option_bind]. destruct (i <? 0); [intros [= _ <-]; reflexivity|].
  destruct (Map.entries m !! Z.to_nat i); [|discriminate].
  cbn [mbind option_bind]. intros [= _ <-]. reflexivity.
Qed.

Lemma map_get_defined m key :
  map_inv m -> exists r, map_get (Some m) key = Some (r, Some m).
Proof.
  intros Hinv. destruct key as [k|]; [|exists None; reflexivity].
  destruct Hinv as (Hmagic & Hwf & Hhd).
  destruct (wf_indexOf_result m k (fnv1_hash k) Hwf)
    as (r & Hr & [->|(j & e & -> & He & Hh & Hk & _)]).
  - exists None. apply map_get_absent; assumption.
  - exists (Entry.value e).
    apply map_get_present; [exact (conj Hmagic (conj Hwf Hhd))|].
    exists j, e. auto.
Qed.

Lemma map_remove_present m k v :
  map_inv m -> holds (Map.entries m) k (fnv1_hash k) v ->
  exists j e,
    Map.entries m !! j = Some e /\ Entry.key e = Some k /\
    Entry.hash e = fnv1_hash k /\ Entry.value e = v /\
    map_remove (Some m) (Some k) = Some (OK, Some (removed m (Z.of_nat j) e)) /\
    map_inv (removed m (Z.of_nat j) e).
Proof.
  intros (Hmagic & Hwf & Hhd) Hholds.
  apply (holds_indexOf m (wf_placed m Hwf)) in Hholds
    as (j & e & Hidx & He & Hh & Hk & Hv).
  exists j, e. repeat (split; [assumption|]). split.
  - unfold map_remove. rewrite (magic_test m Hmagic), Hidx.
    cbn [mbind option_bind]. rewrite Z.geb_leb.
    destruct (Z.leb_spec 0 (Z.of_nat j)); [|lia].
    unfold removed. rewrite !Nat2Z.id, He. reflexivity.
  - split; [exact Hmagic|]. split.
    + apply (removed_wf m Hwf j e k); assumption.
    + apply removed_hashed, Hhd.
Qed.

Lemma map_remove_absent m k :
  Map.magic m = MAGIC -> map_indexOf m k (fnv1_hash k) = Some (-1) ->
  map_remove (Some m) (Some k) = Some (NO_KEY_EXISTS, Some m).
Proof.
  intros Hmagic Hidx. unfold map_remove.
  rewrite (magic_test m Hmagic), Hidx. reflexivity.
Qed.

(* ================================================================== *)
(** ** Initialized maps satisfy the invariants *)

Lemma map_init_inv s m :
  map_init (Some s) = Some m ->
  map_inv m /\ clean m /\ Map.capacity m = 8 /\ Map.size m = 0 /\
  Map.allocated m = 0.
Proof.
  cbn [map_init]. intros [= <-]. rewrite MIN_EMPTY_SLOTS_eq.
  split; [|split; [apply calloc_clean|auto]].
  split; [reflexivity|]. split; [apply calloc_wf; lia|].
  intros j e k Hj Hk. cbn [Map.entries] in Hj.
  apply calloc_lookup in Hj. subst e. discriminate.
Qed.

(** One public operation on a map that satisfies the invariants: the
    invariants hold afterwards, and every binding is still there
    unless the operation removes its key. *)
Lemma run_op_effect o m s' :
  map_inv m -> run_op o (Some m) = Some s' ->
  exists m',
    s' = Some m' /\ map_inv m' /\
    forall k v,
      holds (Map.entries m) k (fnv1_hash k) v -> o <> Remove (Some k) ->
      holds (Map.entries m') k (fnv1_hash k) v.
Proof.
  intros Hinv Hrun. pose proof Hinv as (Hmagic & Hwf & Hhd).
  destruct o as [key val|key| |key]; cbn [run_op] in Hrun.
  - destruct key as [k0|].
    + destruct (wf_indexOf_result m k0 (fnv1_hash k0) Hwf)
        as (r & Hr & [->|(j & e & -> & He & Hh & Hk & _)]).
      * destruct (map_put_absent m k0 val Hinv Hr)
          as [(Hnone & _)|(m' & Hput & Hinv' & _ & Hholds & _)].
        { rewrite Hnone in Hrun. discriminate. }
        rewrite Hput in Hrun. injection Hrun as <-.
        exists m'. split; [reflexivity|]. split; [exact Hinv'|].
        intros k v Hkv _. apply Hholds. left. exact Hkv.
      * rewrite (map_put_present m k0 val (Z.of_nat j) Hmagic Hr) in Hrun by lia.
        injection Hrun as <-. exists m. auto.
    + injection Hrun as <-. exists m. auto.
  - destruct (map_get_defined m key Hinv) as [r Hr].
    rewrite Hr in Hrun. injection Hrun as <-. exists m. auto.
  - injection Hrun as <-. exists m. split; [|auto].
    unfold map_size. destruct (negb _); reflexivity.
  - destruct key as [k0|].
    + destruct (wf_indexOf_result m k0 (fnv1_hash k0) Hwf)
        as (r & Hr & [->|(j & e & -> & He & Hh & Hk & _)]).
      * rewrite (map_remove_absent m k0 Hmagic Hr) in Hrun.
        injection Hrun as <-. exists m. auto.
      * destruct (map_remove_present m k0 (Entry.value e) Hinv)
          as (j' & e' & He' & Hk' & Hh' & _ & Hrem & Hinv').
        { exists j, e. auto. }
        rewrite Hrem in Hrun. injection Hrun as <-.
        exists (removed m (Z.of_nat j') e'). split; [reflexivity|].
        split; [exact Hinv'|]. intros k v Hkv Hne.
        apply (removed_holds m Hwf j' e' k0 He' Hk'). split; [exact Hkv|].
        intros (-> & _). contradiction.
    + injection Hrun as <-. exists m. auto.
Qed.

Lemma run_effect ops :
  forall m s',
    map_inv m -> run ops (Some m) = Some s' ->
    exists m',
      s' = Some m' /\ map_inv m' /\
      forall k v,
        holds (Map.entries m) k (fnv1_hash k) v ->
        Forall (fun o => o <> Remove (Some k)) ops ->
        holds (Map.entries m') k (fnv1_hash k) v.
Proof.
  induction ops as [|o ops IH]; intros m s' Hinv Hrun.
  - cbn in Hrun. injection Hrun as <-. exists m. auto.
  - cbn [run] in Hrun.
    destruct (run_op o (Some m)) as [s1|] eqn:Hop; [|discriminate].
    cbn [mbind option_bind] in Hrun.
    destruct (run_op_effect o m s1 Hinv Hop) as (m1 & -> & Hinv1 & Hkeep1).
    destruct (IH m1 s' Hinv1 Hrun) as (m' & -> & Hinv' & Hkeep').
    exists m'. split; [reflexivity|]. split; [exact Hinv'|].
    intros k v Hkv Hall. apply Forall_cons in Hall as [Ho Hall].
    apply Hkeep'; [|exact Hall]. apply Hkeep1; assumption.
Qed.

Lemma initialized_inv m : initialized m -> map_inv m.
Proof.
  induction 1 as [s m Hinit|o m m' _ IH Hop].
  - apply (map_init_inv s m Hinit).
  - destruct (run_op_effect o m (Some m') IH Hop) as (m1 & [= <-] & Hinv & _).
    exact Hinv.
Qed.

(** The public operations have a result on every map that satisfies
    the invariants and is small enough for a rehash. *)
Lemma run_op_defined o m :
  map_inv m -> fits m -> exists m', run_op o (Some m) = Some (Some m').
Proof.
  intros Hinv Hfits. pose proof Hinv as (Hmagic & Hwf & Hhd).
  destruct o as [key val|key| |key]; cbn [run_op].
  - destruct key as [k0|]; [|exists m; reflexivity].
    destruct (wf_indexOf_result m k0 (fnv1_hash k0) Hwf)
      as (r & Hr & [->|(j & e & -> & He & Hh & Hk & _)]).
    + destruct (map_put_absent m k0 val Hinv Hr)
        as [(_ & Hno & _)|(m' & Hput & _)]; [contradiction|].
      exists m'. rewrite Hput. reflexivity.
    + exists m. rewrite (map_put_present m k0 val (Z.of_nat j) Hmagic Hr) by lia.
      reflexivity.
  - destruct (map_get_defined m key Hinv) as [r Hr].
    exists m. rewrite Hr. reflexivity.
  - exists m. unfold map_size. destruct (negb _); reflexivity.
  - destruct key as [k0|]; [|exists m; reflexivity].
    destruct (wf_indexOf_result m k0 (fnv1_hash k0) Hwf)
      as (r & Hr & [->|(j & e & -> & He & Hh & Hk & _)]).
    + exists m. rewrite (map_remove_absent m k0 Hmagic Hr). reflexivity.
    + destruct (map_remove_present m k0 (Entry.value e) Hinv)
        as (j' & e' & _ & _ & _ & _ & Hrem & _).
      { exists j, e. auto. }
      eexists. rewrite Hrem. reflexivity.
Qed.

(* ================================================================== *)
(** * The properties of the specification *)

(** C2. For every zero-terminated text, [fnv1_hash] is the hash of the
    specification (from the 64-bit basis, each byte is XORed in and the
    hash then multiplied by the prime; the sign bit is set at the end),
    so the result is a negative 64-bit value and never 0. *)
Theorem C2_fnv1_hash_negative (text : string) :
  fnv1_hash text = fnv1_spec text /\
  - 2 ^ 63 <= fnv1_hash text < 0 /\
  fnv1_hash text <> 0.
Proof.
  split; [apply fnv1_hash_spec|].
  split; [apply fnv1_hash_neg|apply fnv1_hash_nonzero].
Qed.

(** C1. On an initialized map, when [map_put] of a key [k] with value
    [v] returns OK, [map_get] of [k] returns [v], and it still does
    after any further operations that neither remove [k] nor put it
    again, rehashing puts included. *)
Theorem C1_put_get_roundtrip (m m1 : map_t) (k : string) (v : cstr) :
  initialized m ->
  map_put (Some m) (Some k) v = Some (OK, Some m1) ->
  map_get (Some m1) (Some k) = Some (v, Some m1) /\
  forall ops s2,
    Forall (fun o => o <> Remove (Some k) /\ forall v', o <> Put (Some k) v')
      ops ->
    run ops (Some m1) = Some s2 ->
    exists m2,
      s2 = Some m2 /\ map_get (Some m2) (Some k) = Some (v, Some m2).
Proof.
  intros Hinit Hput. pose proof (initialized_inv m Hinit) as Hinv.
  pose proof Hinv as (Hmagic & Hwf & Hhd).
  destruct (map_put_stored m m1 k v Hinv Hput) as [Hinv1 Hholds1].
  split; [apply map_get_present; assumption|].
  intros ops s2 Hops Hrun.
  destruct (run_effect ops m1 s2 Hinv1 Hrun) as (m2 & -> & Hinv2 & Hkeep).
  exists m2. split; [reflexivity|].
  apply map_get_present; [exact Hinv2|]. apply Hkeep; [exact Hholds1|].
  eapply Forall_impl; [exact Hops|]. intros o [Ho _]. exact Ho.
Qed.

(** C3. On an initialized map, when [map_put] of [k] with [v1] has
    returned OK and [k] was not removed since, [map_put] of [k] with
    [v2] returns KEY_EXISTS and leaves the whole state as it was;
    [map_get] of [k] still returns [v1]. *)
Theorem C3_put_existing_key (m m1 m2 : map_t) (k : string) (v1 v2 : cstr)
    (ops : list op) :
  initialized m ->
  map_put (Some m) (Some k) v1 = Some (OK, Some m1) ->
  Forall (fun o => o <> Remove (Some k)) ops ->
  run ops (Some m1) = Some (Some m2) ->
  map_put (Some m2) (Some k) v2 = Some (KEY_EXISTS, Some m2) /\
  map_get (Some m2) (Some k) = Some (v1, Some m2).
Proof.
  intros Hinit Hput Hops Hrun. pose proof (initialized_inv m Hinit) as Hinv.
  pose proof Hinv as (Hmagic & Hwf & Hhd).
  destruct (map_put_stored m m1 k v1 Hinv Hput) as [Hinv1 Hholds1].
  destruct (run_effect ops m1 (Some m2) Hinv1 Hrun)
    as (m2' & [= <-] & Hinv2 & Hkeep).
  pose proof (Hkeep k v1 Hholds1 Hops) as Hholds2.
  split; [|apply map_get_present; assumption].
  destruct Hinv2 as (Hmagic2 & Hwf2 & _).
  apply (holds_indexOf m2 (wf_placed m2 Hwf2)) in Hholds2 as (j & e & Hidx & _).
  apply (map_put_present m2 k v2 (Z.of_nat j)); [exact Hmagic2|exact Hidx|lia].
Qed.


(** C4. For a valid map state, after [map_optimize] has returned OK the
    new capacity is the smallest power of two that is at least
    [size + 8], [allocated] equals [size] (which is unchanged), every
    live key is found with its previous value, and no slot of the new
    array is a tombstone. *)
Theorem C4_optimize_result (m m' : map_t) :
  wf m ->
  map_optimize m = Some (OK, m') ->
  (is_pow2 (Map.capacity m') /\ Map.size m + 8 <= Map.capacity m' /\
   forall c, is_pow2 c -> Map.size m + 8 <= c -> Map.capacity m' <= c) /\
  Map.allocated m' = Map.size m' /\ Map.size m' = Map.size m /\
  (forall j e k,
     Map.entries m !! j = Some e -> Entry.key e = Some k ->
     exists j' e',
       map_indexOf m' k (Entry.hash e) = Some (Z.of_nat j') /\
       Map.entries m' !! j' = Some e' /\
       Entry.value e' = Entry.value e) /\
  (forall j e, Map.entries m' !! j = Some e -> tombstone e = false).
Proof.
  intros Hwf Hopt.
  destruct (map_optimize_result m OK m' Hwf Hopt)
    as (_ & Hwf' & Hclean' & _ & Hnew & Hsize & Halloc & Hholds).
  destruct (wf_min_size m Hwf) as [_ Hs].
  split; [apply new_capacity_least; assumption|].
  split; [congruence|]. split; [exact Hsize|]. split.
  - intros j e k He Hk.
    assert (Hh : holds (Map.entries m') k (Entry.hash e) (Entry.value e)).
    { apply Hholds. exists j, e. auto. }
    apply (holds_indexOf m' (wf_placed m' Hwf')) in Hh
      as (j' & e' & Hidx & He' & _ & _ & Hv).
    exists j', e'. auto.
  - intros j e He. unfold tombstone, used, live.
    destruct (Entry.key e) as [k|] eqn:Hk; [apply andb_false_r|].
    rewrite (Hclean' j e He Hk). reflexivity.
Qed.

(** C6. After [map_init], and after every public operation on an
    initialized map, the capacity is a power of two that is at least 8
    and [0 <= size <= allocated <= capacity]. *)
Theorem C6_capacity_invariant (m : map_t) :
  initialized m -> capacity_ok m.
Proof.
  intros Hinit. destruct (initialized_inv m Hinit) as (_ & Hwf & _).
  apply wf_capacity_ok, Hwf.
Qed.

(** C7. On an initialized map, [map_remove] of a key [k] that a slot
    [j] holds returns OK and leaves the map with that slot's key null
    and its hash and value as they were, [size] one less, [allocated]
    and [capacity] unchanged; then [map_get] of [k] returns null, and
    of every other key what it returned before. When no slot holds
    [k], [map_remove] returns NO_KEY_EXISTS and changes nothing. *)
Theorem C7_remove (m : map_t) (k : string) :
  initialized m ->
  (forall j e,
     Map.entries m !! j = Some e -> Entry.key e = Some k ->
     let m' :=
       {| Map.magic := Map.magic m;
          Map.capacity := Map.capacity m;
          Map.size := Map.size m - 1;
          Map.allocated := Map.allocated m;
          Map.entries :=
            <[j := {| Entry.hash := Entry.hash e; Entry.key := None;
                      Entry.value := Entry.value e |}]> (Map.entries m) |} in
     map_remove (Some m) (Some k) = Some (OK, Some m') /\
     map_get (Some m') (Some k) = Some (None, Some m') /\
     forall k' r,
       k' <> k ->
       map_get (Some m) (Some k') = Some (r, Some m) ->
       map_get (Some m') (Some k') = Some (r, Some m')) /\
  (~ contains m k ->
   map_remove (Some m) (Some k) = Some (NO_KEY_EXISTS, Some m)).
Proof.
  intros Hinit. pose proof (initialized_inv m Hinit) as Hinv.
  pose proof Hinv as (Hmagic & Hwf & Hhd). split.
  - intros j e He Hk m'.
    pose proof (Hhd j e k He Hk) as Hh.
    destruct (map_remove_present m k (Entry.value e) Hinv)
      as (j0 & e0 & He0 & Hk0 & Hh0 & _ & Hrem & Hinv').
    { exists j, e. auto. }
    assert (Hj : j0 = j).
    { pose proof (wf_placed m Hwf j e k He Hk) as H1.
      pose proof (wf_placed m Hwf j0 e0 k He0 Hk0) as H2.
      rewrite Hh0, <- Hh, H1 in H2. injection H2 as H2. lia. }
    subst j0. rewrite He in He0. injection He0 as <-.
    assert (Hm' : removed m (Z.of_nat j) e = m').
    { destruct (removed_size m Hwf j e k He Hk) as [Hsz _].
      unfold removed in *. cbn [Map.size] in Hsz. rewrite Hsz, Nat2Z.id.
      reflexivity. }
    rewrite Hm' in *. split; [exact Hrem|].
    pose proof Hinv' as (Hmagic' & Hwf' & Hhd').
    assert (Hrh : forall k' h' v',
               holds (Map.entries m') k' h' v' <->
               holds (Map.entries m) k' h' v' /\
               ~ (k' = k /\ h' = Entry.hash e)).
    { rewrite <- Hm'. apply (removed_holds m Hwf j e k He Hk). }
    split.
    + apply map_get_absent; [exact Hmagic'|].
      apply wf_not_holds_absent; [exact Hwf'|].
      intros v Hv. apply Hrh in Hv as [_ Hne]. apply Hne. auto.
    + intros k' r Hne Hget.
      destruct (wf_indexOf_result m k' (fnv1_hash k') Hwf)
        as (i & Hi & [->|(j' & e' & -> & He' & Hh' & Hk' & _)]).
      * rewrite (map_get_absent m k' Hmagic Hi) in Hget. injection Hget as <-.
        apply map_get_absent; [exact Hmagic'|].
        apply wf_not_holds_absent; [exact Hwf'|].
        intros v Hv. apply Hrh in Hv as [Hv _]. revert Hv.
        apply wf_absent_not_holds; assumption.
      * assert (Hholds : holds (Map.entries m) k' (fnv1_hash k') (Entry.value e')).
        { exists j', e'. auto. }
        rewrite (map_get_present m k' _ Hinv Hholds) in Hget.
        injection Hget as <-.
        apply map_get_present; [exact Hinv'|].
        apply Hrh. split; [exact Hholds|]. intros [Hkk _]. contradiction.
  - intros Hno. apply map_remove_absent; [exact Hmagic|].
    apply wf_not_holds_absent; [exact Hwf|].
    intros v Hv. apply Hno. exists (fnv1_hash k), v. exact Hv.
Qed.

(** Puts of new keys into a map of capacity 8 that has no tombstone and
    room for them: none of them rehashes. *)
Lemma put_all_new kvs :
  forall m,
    map_inv m -> clean m -> Map.capacity m = 8 ->
    Map.size m + Z.of_nat (length kvs) <= 8 ->
    NoDup (kvs.*1) ->
    (forall k v, k ∈ kvs.*1 -> ~ holds (Map.entries m) k (fnv1_hash k) v) ->
    exists m',
      put_all kvs (Some m) = Some (replicate (length kvs) OK, Some m') /\
      map_inv m' /\ clean m' /\ Map.capacity m' = 8 /\
      Map.size m' = Map.size m + Z.of_nat (length kvs) /\
      (forall k v,
         holds (Map.entries m') k (fnv1_hash k) v <->
         holds (Map.entries m) k (fnv1_hash k) v \/ (k, v) ∈ kvs).
Proof.
  induction kvs as [|[k v] kvs IH]; intros m Hinv Hclean Hcap Hroom Hnd Hnew.
  { exists m. cbn [put_all length replicate].
    split; [reflexivity|]. split; [exact Hinv|]. split; [exact Hclean|].
    split; [exact Hcap|]. split; [lia|].
    intros k v. split; [auto|]. intros [H|H]; [exact H|].
    apply elem_of_nil in H. contradiction. }
  cbn [fmap list_fmap fst] in Hnd. apply NoDup_cons in Hnd as [Hk Hnd].
  cbn [length] in Hroom. pose proof Hinv as (Hmagic & Hwf & Hhd).
  assert (Habs : map_indexOf m k (fnv1_hash k) = Some (-1)).
  { apply wf_not_holds_absent; [exact Hwf|]. intros v'.
    apply Hnew. cbn. apply elem_of_cons. left. reflexivity. }
  destruct (map_put_absent m k v Hinv Habs)
    as [(_ & _ & Hfull)|(m1 & Hput & Hinv1 & Hsize1 & Hholds1 & Hsame & _ & Hclean1)].
  { rewrite (clean_allocated m Hwf Hclean) in Hfull. lia. }
  destruct Hsame as [Hcap1 _].
  { rewrite (clean_allocated m Hwf Hclean). lia. }
  destruct (IH m1) as (m' & Hall & Hinv' & Hclean' & Hcap' & Hsize' & Hholds');
    [exact Hinv1|auto|congruence|lia|exact Hnd| |].
  { intros k' v' Hk' Hh'. apply Hholds1 in Hh' as [Hh'|(-> & _)].
    - revert Hh'. apply Hnew. cbn. apply elem_of_cons. right. exact Hk'.
    - contradiction. }
  exists m'. cbn [put_all length replicate]. rewrite Hput.
  cbn [mbind option_bind]. rewrite Hall. cbn [mbind option_bind].
  split; [reflexivity|]. split; [exact Hinv'|]. split; [exact Hclean'|].
  split; [exact Hcap'|]. split; [lia|].
  intros k' v'. rewrite Hholds', Hholds1, elem_of_cons. split.
  - intros [[H|(-> & _ & ->)]|H]; auto.
  - intros [H|[[= -> ->]|H]]; auto.
Qed.

(** C8, as the code has it. From a freshly initialized map, eight puts
    of pairwise different keys all return OK; afterwards the size is 8
    and every key is found with its value. None of the eight puts runs
    [map_optimize]: the capacity is still 8, every slot is written, and
    it is the next put of a new key that rehashes. *)
Theorem C8_eight_puts (s : map_t) (kvs : list (string * cstr)) :
  length kvs = 8%nat ->
  NoDup (kvs.*1) ->
  (exists m8,
     put_all kvs (map_init (Some s)) = Some (replicate 8 OK, Some m8) /\
     map_size (Some m8) = (8, Some m8) /\
     (forall k v,
        (k, v) ∈ kvs -> map_get (Some m8) (Some k) = Some (v, Some m8)) /\
     Map.capacity m8 = 8 /\ put_optimizes m8 = true) /\
  (forall pre post rs m,
     kvs = pre ++ post -> post <> [] ->
     put_all pre (map_init (Some s)) = Some (rs, Some m) ->
     put_optimizes m = false).
Proof.
  intros Hlen Hnd.
  destruct (map_init_inv s _ eq_refl) as (Hinv0 & Hclean0 & Hcap0 & Hsize0 & _).
  set (m0 := {| Map.magic := MAGIC; Map.capacity := MIN_EMPTY_SLOTS;
                Map.size := 0; Map.allocated := 0;
                Map.entries :=
                  calloc_entries (u32 (sizeof_map_entry_t * MIN_EMPTY_SLOTS)) |})
    in *.
  assert (Hempty : forall k v, ~ holds (Map.entries m0) k (fnv1_hash k) v).
  { intros k v. apply calloc_holds. }
  cbn [map_init]. fold m0. split.
  - destruct (put_all_new kvs m0 Hinv0 Hclean0 Hcap0)
      as (m8 & Hall & Hinv8 & Hclean8 & Hcap8 & Hsize8 & Hholds8);
      [lia|exact Hnd|auto|].
    rewrite Hlen in Hall, Hsize8. exists m8. split; [exact Hall|].
    destruct Hinv8 as (Hmagic8 & Hwf8 & Hhd8).
    split; [|split; [|split; [exact Hcap8|]]].
    + unfold map_size. rewrite (magic_test m8 Hmagic8).
      replace (Map.size m8) with 8 by lia. reflexivity.
    + intros k v Hkv. apply map_get_present; [exact (conj Hmagic8 (conj Hwf8 Hhd8))|].
      apply Hholds8. right. exact Hkv.
    + unfold put_optimizes. rewrite (clean_allocated m8 Hwf8 Hclean8), Z.geb_leb.
      destruct (Z.leb_spec (Map.capacity m8) (Map.size m8)); [reflexivity|lia].
  - intros pre post rs m -> Hpost Hpre.
    rewrite fmap_app in Hnd. apply NoDup_app in Hnd as (Hndpre & _).
    rewrite length_app in Hlen.
    assert (Hp : (0 < length post)%nat) by (destruct post; [contradiction|cbn; lia]).
    destruct (put_all_new pre m0 Hinv0 Hclean0 Hcap0)
      as (m' & Hall & (_ & Hwf' & _) & Hclean' & Hcap' & Hsize' & _);
      [lia|exact Hndpre|auto|].
    rewrite Hall in Hpre. injection Hpre as _ <-.
    unfold put_optimizes. rewrite (clean_allocated m' Hwf' Hclean'), Z.geb_leb.
    destruct (Z.leb_spec (Map.capacity m') (Map.size m')); [lia|reflexivity].
Qed.

(** C9, as the code has it. After [map_destroy] a second [map_destroy]
    changes nothing; [map_put] and [map_remove] return NOT_INITIALIZED
    for a key that is not null and NULL_POINTER for the null key,
    [map_get] returns null and [map_size] returns 0; none of them
    changes the map. *)
Theorem C9_after_destroy (m : map_t) (key val : cstr) :
  let d := map_destroy (Some m) in
  let code := match key with Some _ => NOT_INITIALIZED | None => NULL_POINTER end in
  map_destroy d = d /\
  map_put d key val = Some (code, d) /\
  map_remove d key = Some (code, d) /\
  map_get d key = Some (None, d) /\
  map_size d = (0, d).
Proof.
  cbn zeta. unfold map_destroy.
  destruct (negb (Map.magic m =? MAGIC)) eqn:Hm.
  - cbn [map_put map_remove map_get map_size]. rewrite Hm.
    destruct key; auto.
  - cbn [map_put map_remove map_get map_size Map.magic].
    change (negb (0 =? MAGIC)) with true. cbv iota.
    destruct key; auto.
Qed.

(** C10. [map_size] returns the state it was given, and so does
    [map_get] whenever it has a result, for every state and every key,
    null included; on an initialized map it has one. *)
Theorem C10_reads_leave_state (self : option map_t) (key : cstr) :
  snd (map_size self) = self /\
  (forall r s, map_get self key = Some (r, s) -> s = self) /\
  (forall m, self = Some m -> initialized m ->
     exists r, map_get self key = Some (r, self)).
Proof.
  split; [|split].
  - unfold map_size. destruct self as [m|]; [|reflexivity].
    destruct (negb _); reflexivity.
  - intros r s. apply map_get_state.
  - intros m -> Hinit. apply map_get_defined, initialized_inv, Hinit.
Qed.

(* ================================================================== *)
(** ** The worked example *)

Lemma initialized_run ops :
  forall m m',
    initialized m -> run ops (Some m) = Some (Some m') -> initialized m'.
Proof.
  induction ops as [|o ops IH]; intros m m' Hinit Hrun.
  - cbn in Hrun. injection Hrun as <-. exact Hinit.
  - cbn [run] in Hrun.
    destruct (run_op o (Some m)) as [s1|] eqn:Hop; [|discriminate].
    cbn [mbind option_bind] in Hrun.
    destruct (run_op_effect o m s1 (initialized_inv m Hinit) Hop)
      as (m1 & -> & _).
    apply (IH m1 m'); [|exact Hrun].
    apply (initialized_step o m m1 Hinit Hop).
Qed.

Lemma demo0_initialized : initialized demo0.
Proof. apply (initialized_init blank). reflexivity. Qed.

Lemma demo1_initialized : initialized demo1.
Proof.
  apply (initialized_step (Put (Some "a"%string) (Some "1"%string)) demo0);
    [exact demo0_initialized|vm_compute; reflexivity].
Qed.

Lemma demo2_initialized : initialized demo2.
Proof.
  apply (initialized_run demo_ops demo1);
    [exact demo1_initialized|vm_compute; reflexivity].
Qed.

Lemma demo2_wf : wf demo2.
Proof. apply (initialized_inv demo2 demo2_initialized). Qed.

Lemma C1_witness :
  map_put (Some demo0) (Some "a"%string) (Some "1"%string)
    = Some (OK, Some demo1) /\
  map_get (Some demo1) (Some "a"%string) = Some (Some "1"%string, Some demo1) /\
  run demo_more (Some demo1) = Some (Some demo9) /\
  Map.capacity demo9 = 16 /\
  map_get (Some demo9) (Some "a"%string) = Some (Some "1"%string, Some demo9).
Proof.
  assert (Hput : map_put (Some demo0) (Some "a"%string) (Some "1"%string)
                 = Some (OK, Some demo1)) by (vm_compute; reflexivity).
  destruct (C1_put_get_roundtrip demo0 demo1 "a" (Some "1"%string)
              demo0_initialized Hput) as [Hget Hlater].
  split; [exact Hput|]. split; [exact Hget|].
  assert (Hrun : run demo_more (Some demo1) = Some (Some demo9))
    by (vm_compute; reflexivity).
  split; [exact Hrun|]. split; [reflexivity|].
  destruct (Hlater demo_more (Some demo9)) as (m2 & [= <-] & Hget2).
  - repeat constructor; (discriminate || (intros v'; discriminate)).
  - exact Hrun.
  - exact Hget2.
Defined.

Lemma C3_witness :
  map_put (Some demo0) (Some "a"%string) (Some "1"%string)
    = Some (OK, Some demo1) /\
  run demo_ops (Some demo1) = Some (Some demo2) /\
  map_put (Some demo2) (Some "a"%string) (Some "9"%string)
    = Some (KEY_EXISTS, Some demo2) /\
  map_get (Some demo2) (Some "a"%string) = Some (Some "1"%string, Some demo2).
Proof.
  assert (Hput : map_put (Some demo0) (Some "a"%string) (Some "1"%string)
                 = Some (OK, Some demo1)) by (vm_compute; reflexivity).
  assert (Hrun : run demo_ops (Some demo1) = Some (Some demo2))
    by (vm_compute; reflexivity).
  split; [exact Hput|]. split; [exact Hrun|].
  apply (C3_put_existing_key demo0 demo1 demo2 "a" (Some "1"%string)
           (Some "9"%string) demo_ops demo0_initialized Hput);
    [|exact Hrun].
  repeat constructor; discriminate.
Defined.

Lemma C4_witness :
  map_optimize demo2 = Some (OK, demo3) /\
  Map.capacity demo3 = 16 /\
  Map.allocated demo3 = Map.size demo3 /\
  Map.size demo3 = Map.size demo2 /\
  forall j e, Map.entries demo3 !! j = Some e -> tombstone e = false.
Proof.
  assert (Hopt : map_optimize demo2 = Some (OK, demo3))
    by (vm_compute; reflexivity).
  destruct (C4_optimize_result demo2 demo3 demo2_wf Hopt)
    as (_ & Halloc & Hsize & _ & Hclean).
  split; [exact Hopt|]. split; [reflexivity|].
  split; [exact Halloc|]. split; [exact Hsize|exact Hclean].
Defined.

Lemma C6_witness : capacity_ok demo2.
Proof. apply (C6_capacity_invariant demo2 demo2_initialized). Defined.

Lemma C7_witness :
  exists m',
    map_remove (Some demo2) (Some "c"%string) = Some (OK, Some m') /\
    Map.size m' = Map.size demo2 - 1 /\
    map_get (Some m') (Some "c"%string) = Some (None, Some m') /\
    map_get (Some m') (Some "a"%string) = Some (Some "1"%string, Some m').
Proof.
  destruct (C7_remove demo2 "c" demo2_initialized) as [Hpresent _].
  destruct (Hpresent 2%nat
              {| Entry.hash := fnv1_hash "c"; Entry.key := Some "c"%string;
                 Entry.value := Some "3"%string |})
    as (Hrem & Hget & Hothers); [vm_compute; reflexivity|reflexivity|].
  eexists. split; [exact Hrem|]. split; [reflexivity|].
  split; [exact Hget|]. apply Hothers; [discriminate|].
  vm_compute. reflexivity.
Defined.

Lemma C8_witness :
  exists m8,
    put_all demo_kvs (map_init (Some blank)) = Some (replicate 8 OK, Some m8) /\
    map_size (Some m8) = (8, Some m8) /\
    Map.capacity m8 = 8.
Proof.
  destruct (C8_eight_puts blank demo_kvs) as [(m8 & Hall & Hsize & _ & Hcap & _) _].
  - reflexivity.
  - apply (bool_decide_unpack _). vm_compute. exact I.
  - exists m8. auto.
Defined.

(** C8, as the specification words it, fails: the eighth put of a new
    key finds [allocated = 7 < 8 = capacity], does not run
    [map_optimize], and leaves the capacity at 8. *)
Lemma C8_eighth_put_counterexample :
  put_all (take 7 demo_kvs) (map_init (Some blank))
    = Some (replicate 7 OK, Some demo7) /\
  put_optimizes demo7 = false /\
  map_put (Some demo7) (Some "h"%string) (Some "8"%string)
    = Some (OK, Some demo8) /\
  Map.capacity demo8 = Map.capacity demo7.
Proof. vm_compute. auto. Qed.

(** C9, as the specification words it, fails for the null key: on a
    destroyed map [map_put] and [map_remove] return NULL_POINTER, not
    NOT_INITIALIZED. *)
Lemma C9_null_key_counterexample :
  map_put (map_destroy (Some demo1)) None (Some "1"%string)
    = Some (NULL_POINTER, map_destroy (Some demo1)) /\
  map_remove (map_destroy (Some demo1)) None
    = Some (NULL_POINTER, map_destroy (Some demo1)) /\
  NULL_POINTER <> NOT_INITIALIZED.
Proof. split; [reflexivity|]. split; [reflexivity|discriminate]. Qed.

Lemma C10_witness :
  exists r, map_get (Some demo2) (Some "b"%string) = Some (r, Some demo2).
Proof.
  destruct (C10_reads_leave_state (Some demo2) (Some "b"%string))
    as (_ & _ & Hdef).
  apply (Hdef demo2 eq_refl demo2_initialized).
Defined.

(* ================================================================== *)
(** * Further properties of the code *)

(** ** Helper lemmas *)

Lemma contains_hashed m k :
  hashed m ->
  (contains m k <-> exists v, holds (Map.entries m) k (fnv1_hash k) v).
Proof.
  intros Hhd. split.
  - intros (h & v & j & e & He & Hh & Hk & Hv). exists v, j, e.
    split; [exact He|]. split; [|auto]. eapply Hhd; eassumption.
  - intros (v & Hv). exists (fnv1_hash k), v. exact Hv.
Qed.

Lemma map_get_found m k v s :
  map_inv m ->
  map_get (Some m) (Some k) = Some (Some v, s) ->
  holds (Map.entries m) k (fnv1_hash k) (Some v).
Proof.
  intros (Hmagic & Hwf & Hhd) Hget.
  destruct (wf_indexOf_result m k (fnv1_hash k) Hwf)
    as (r & Hr & [->|(j & e & -> & He & Hh & Hk & _)]).
  - rewrite (map_get_absent m k Hmagic Hr) in Hget. discriminate.
  - assert (Hholds : holds (Map.entries m) k (fnv1_hash k) (Entry.value e)).
    { exists j, e. auto. }
    rewrite (map_get_present m k _ (conj Hmagic (conj Hwf Hhd)) Hholds) in Hget.
    injection Hget as Hv _. rewrite <- Hv. exact Hholds.
Qed.

(** [map_get] of a key depends on the bindings of that key only. *)
Lemma map_get_ext m m' k r :
  map_inv m -> map_inv m' ->
  (forall v, holds (Map.entries m') k (fnv1_hash k) v <->
             holds (Map.entries m) k (fnv1_hash k) v) ->
  map_get (Some m) (Some k) = Some (r, Some m) ->
  map_get (Some m') (Some k) = Some (r, Some m').
Proof.
  intros Hinv Hinv' Hsame Hget.
  pose proof Hinv as (Hmagic & Hwf & Hhd).
  pose proof Hinv' as (Hmagic' & Hwf' & Hhd').
  destruct (wf_indexOf_result m k (fnv1_hash k) Hwf)
    as (i & Hi & [->|(j & e & -> & He & Hh & Hk & _)]).
  - rewrite (map_get_absent m k Hmagic Hi) in Hget. injection Hget as <-.
    apply map_get_absent; [exact Hmagic'|].
    apply wf_not_holds_absent; [exact Hwf'|].
    intros v Hv. apply Hsame in Hv. revert Hv.
    apply wf_absent_not_holds; assumption.
  - assert (Hholds : holds (Map.entries m) k (fnv1_hash k) (Entry.value e)).
    { exists j, e. auto. }
    rewrite (map_get_present m k _ Hinv Hholds) in Hget. injection Hget as <-.
    apply map_get_present; [exact Hinv'|]. apply Hsame. exact Hholds.
Qed.

Lemma wf_absent_not_contains m k :
  map_inv m -> map_indexOf m k (fnv1_hash k) = Some (-1) -> ~ contains m k.
Proof.
  intros (_ & Hwf & Hhd) Habs Hc.
  apply (contains_hashed m k Hhd) in Hc as [v Hv].
  revert Hv. apply wf_absent_not_holds; assumption.
Qed.

(** ** [map_put] *)

(** X1. On an initialized map with [size + 8 <= 2^27] a put of a
    non-null key returns, and it has one of two results: when no slot
    holds the key it returns OK and leaves a map whose size is one
    more; when a slot holds the key it returns KEY_EXISTS and the state
    it was given. *)
Theorem X1_put_result (m : map_t) (k : string) (v : cstr) :
  initialized m -> fits m ->
  (~ contains m k /\
   exists m', map_put (Some m) (Some k) v = Some (OK, Some m') /\
              Map.size m' = Map.size m + 1) \/
  (contains m k /\
   map_put (Some m) (Some k) v = Some (KEY_EXISTS, Some m)).
Proof.
  intros Hinit Hfits. pose proof (initialized_inv m Hinit) as Hinv.
  pose proof Hinv as (Hmagic & Hwf & Hhd).
  destruct (wf_indexOf_result m k (fnv1_hash k) Hwf)
    as (i & Hi & [->|(j & e & -> & He & Hh & Hk & _)]).
  - left. destruct (map_put_absent m k v Hinv Hi)
      as [(_ & Hno & _)|(m' & Hput' & _ & Hsize & _)]; [contradiction|].
    split; [apply wf_absent_not_contains; assumption|].
    exists m'. auto.
  - right. split.
    + exists (Entry.hash e), (Entry.value e), j, e. auto.
    + apply (map_put_present m k v (Z.of_nat j) Hmagic Hi). lia.
Qed.

(** X2. On an initialized map a put that returns OK changes what
    [map_get] returns for no other key, whether it rehashes or not. *)
Theorem X2_put_frame (m m' : map_t) (k k' : string) (v r : cstr) :
  initialized m ->
  map_put (Some m) (Some k) v = Some (OK, Some m') ->
  k' <> k ->
  map_get (Some m) (Some k') = Some (r, Some m) ->
  map_get (Some m') (Some k') = Some (r, Some m').
Proof.
  intros Hinit Hput Hne Hget. pose proof (initialized_inv m Hinit) as Hinv.
  pose proof Hinv as (Hmagic & Hwf & Hhd).
  destruct (wf_indexOf_result m k (fnv1_hash k) Hwf)
    as (i & Hi & [->|(j & e & -> & _)]).
  - destruct (map_put_absent m k v Hinv Hi)
      as [(Hnone & _)|(m1 & Hput' & Hinv' & _ & Hholds & _)]; [congruence|].
    rewrite Hput' in Hput. injection Hput as <-.
    apply (map_get_ext m m1 k' r Hinv Hinv'); [|exact Hget].
    intros v'. rewrite Hholds. split; [|auto].
    intros [H|(Hk & _)]; [exact H|contradiction].
  - rewrite (map_put_present m k v (Z.of_nat j) Hmagic Hi) in Hput by lia.
    discriminate.
Qed.

(** ** [map_optimize] *)

(** X3. On an initialized map [map_optimize] is invisible to the
    readers: when it returns OK, [map_get] returns for every key,
    stored or not, what it returned before, and [map_size] returns the
    same number. *)
Theorem X3_optimize_invisible (m m' : map_t) (key r : cstr) :
  initialized m ->
  map_optimize m = Some (OK, m') ->
  map_get (Some m) key = Some (r, Some m) ->
  map_get (Some m') key = Some (r, Some m') /\
  fst (map_size (Some m')) = fst (map_size (Some m)).
Proof.
  intros Hinit Hopt Hget. pose proof (initialized_inv m Hinit) as Hinv.
  pose proof Hinv as (Hmagic & Hwf & Hhd).
  destruct (map_optimize_result m OK m' Hwf Hopt)
    as (_ & Hwf' & _ & Hmagic' & _ & Hsize & _ & Hholds).
  assert (Hinv' : map_inv m').
  { split; [congruence|]. split; [exact Hwf'|].
    apply (map_optimize_hashed m m'); assumption. }
  split.
  - destruct key as [k|].
    + apply (map_get_ext m m' k r Hinv Hinv'); [|exact Hget].
      intros v. apply Hholds.
    + cbn in Hget |- *. injection Hget as <-. reflexivity.
  - unfold map_size. rewrite Hmagic', Hsize.
    destruct (negb _); reflexivity.
Qed.

(** X19. For a map state that satisfies the invariants of the data
    model, [map_optimize] never takes the SYS_ERROR branch: whatever it
    returns is OK. It returns OK when [size + 8] is at most 2^27, and
    only then: for a larger map the byte count of the new array, which
    is computed in [unsigned int], has wrapped around and the
    re-insertion leaves the array, or the doubling loop never ends; the
    call has no result. *)
Theorem X19_optimize_within_limit (m : map_t) :
  wf m ->
  (forall r m', map_optimize m = Some (r, m') -> r = OK) /\
  (fits m -> exists m', map_optimize m = Some (OK, m')) /\
  (~ fits m -> map_optimize m = None).
Proof.
  intros Hwf. split; [|split].
  - intros r m' Hopt. apply (map_optimize_result m r m' Hwf Hopt).
  - intros Hfits. destruct (map_optimize_fits m Hwf Hfits) as (c & Hc & Hle).
    destruct (map_optimize_grown m c Hwf Hc Hle) as (m' & Hopt & _).
    exists m'. exact Hopt.
  - apply map_optimize_beyond, Hwf.
Qed.

(** ** The counters *)

Lemma keys_length es : length (omap Entry.key es) = count live es.
Proof.
  induction es as [|e es IH]; [reflexivity|].
  cbn [omap list_omap count]. unfold live at 1.
  destruct (Entry.key e); cbn [length]; rewrite IH; reflexivity.
Qed.

Lemma keys_NoDup es :
  (forall i i' e e' k,
     es !! i = Some e -> es !! i' = Some e' ->
     Entry.key e = Some k -> Entry.key e' = Some k -> i = i') ->
  NoDup (omap Entry.key es).
Proof.
  induction es as [|e es IH]; intros Hd; [constructor|].
  assert (IH' : NoDup (omap Entry.key es)).
  { apply IH. intros i i' x x' k Hi Hi' Hk Hk'.
    assert (S i = S i') by (eapply Hd; eauto). lia. }
  cbn [omap list_omap]. destruct (Entry.key e) as [k|] eqn:Hk; [|exact IH'].
  apply NoDup_cons. split; [|exact IH'].
  intros Hin. apply list_elem_of_omap in Hin as (x & Hx & Hkx).
  apply list_elem_of_lookup in Hx as [i Hi].
  assert (O = S i) by (eapply (Hd O (S i) e x k); eauto). lia.
Qed.

Lemma count_split es :
  (forall j e, es !! j = Some e -> live e = true -> used e = true) ->
  count used es = (count live es + count tombstone es)%nat.
Proof.
  induction es as [|e es IH]; intros H; [reflexivity|].
  cbn [count]. rewrite IH by (intros j x Hj; apply (H (S j) x Hj)).
  pose proof (H O e eq_refl) as He. unfold tombstone.
  destruct (live e); [rewrite He by reflexivity; cbn; lia|].
  destruct (used e); cbn; lia.
Qed.

Lemma wf_live_used m j e :
  wf m -> Map.entries m !! j = Some e -> live e = true -> used e = true.
Proof.
  intros Hwf He Hl. unfold live in Hl.
  destruct (Entry.key e) as [k|] eqn:Hk; [|discriminate].
  pose proof (wf_live_hash_nonzero m j e k Hwf He Hk) as H0.
  unfold used. destruct (Z.eqb_spec (Entry.hash e) 0); [contradiction|reflexivity].
Qed.

(** X4. On an initialized map with fewer than 2^31 entries [map_size]
    returns the number of keys stored: the keys of the live slots are
    pairwise different, they are the keys the map contains, and
    [map_size] returns how many they are. *)
Theorem X4_size_counts_keys (m : map_t) :
  initialized m ->
  Map.size m < 2 ^ 31 ->
  NoDup (keys m) /\
  (forall k, k ∈ keys m <-> contains m k) /\
  map_size (Some m) = (Z.of_nat (length (keys m)), Some m).
Proof.
  intros Hinit Hsmall. destruct (initialized_inv m Hinit) as (Hmagic & Hwf & Hhd).
  unfold keys. split; [|split].
  - apply keys_NoDup. intros i i' e e' k Hi Hi' Hk Hk'.
    apply (wf_distinct m Hwf i i' e e' k Hi Hi' Hk Hk').
    rewrite (Hhd i e k Hi Hk), (Hhd i' e' k Hi' Hk'). reflexivity.
  - intros k. rewrite list_elem_of_omap. split.
    + intros (e & He & Hk). apply list_elem_of_lookup in He as [j Hj].
      exists (Entry.hash e), (Entry.value e), j, e. auto.
    + intros (h & v & j & e & Hj & _ & Hk & _). exists e.
      split; [|exact Hk]. apply list_elem_of_lookup. exists j. exact Hj.
  - unfold map_size. rewrite (magic_test m Hmagic), keys_length.
    rewrite <- (wf_size m Hwf). rewrite s32_small; [reflexivity|].
    destruct (wf_capacity_ok m Hwf) as (_ & _ & Hs & _). lia.
Qed.

(** X5. On an initialized map the slots written since the last rehash
    that are not live are tombstones: [allocated - size] is their
    number. *)
Theorem X5_tombstone_count (m : map_t) :
  initialized m ->
  Map.allocated m - Map.size m = Z.of_nat (count tombstone (Map.entries m)).
Proof.
  intros Hinit. destruct (initialized_inv m Hinit) as (_ & Hwf & _).
  rewrite (wf_allocated m Hwf), (wf_size m Hwf), count_split; [lia|].
  intros j e. apply wf_live_used, Hwf.
Qed.

(** ** Where a value comes from *)

Lemma run_op_origin o m m' k v :
  map_inv m -> run_op o (Some m) = Some (Some m') ->
  holds (Map.entries m') k (fnv1_hash k) v ->
  holds (Map.entries m) k (fnv1_hash k) v \/ o = Put (Some k) v.
Proof.
  intros Hinv Hrun Hh. pose proof Hinv as (Hmagic & Hwf & Hhd).
  destruct o as [key val|key| |key]; cbn [run_op] in Hrun.
  - destruct key as [k0|]; [|injection Hrun as <-; auto].
    destruct (wf_indexOf_result m k0 (fnv1_hash k0) Hwf)
      as (r & Hr & [->|(j & e & -> & _)]).
    + destruct (map_put_absent m k0 val Hinv Hr)
        as [(Hnone & _)|(m1 & Hput & _ & _ & Hholds & _)].
      { rewrite Hnone in Hrun. discriminate. }
      rewrite Hput in Hrun. injection Hrun as <-.
      apply Hholds in Hh as [Hh|(-> & _ & ->)]; auto.
    + rewrite (map_put_present m k0 val (Z.of_nat j) Hmagic Hr) in Hrun by lia.
      injection Hrun as <-. auto.
  - destruct (map_get_defined m key Hinv) as [r Hr].
    rewrite Hr in Hrun. injection Hrun as <-. auto.
  - assert (Hs : snd (map_size (Some m)) = Some m).
    { unfold map_size. destruct (negb _); reflexivity. }
    rewrite Hs in Hrun. injection Hrun as <-. auto.
  - destruct key as [k0|]; [|injection Hrun as <-; auto].
    destruct (wf_indexOf_result m k0 (fnv1_hash k0) Hwf)
      as (r & Hr & [->|(j & e & -> & He & Hhe & Hk & _)]).
    + rewrite (map_remove_absent m k0 Hmagic Hr) in Hrun.
      injection Hrun as <-. auto.
    + destruct (map_remove_present m k0 (Entry.value e) Hinv)
        as (j' & e' & He' & Hk' & _ & _ & Hrem & _).
      { exists j, e. auto. }
      rewrite Hrem in Hrun. injection Hrun as <-.
      apply (removed_holds m Hwf j' e' k0 He' Hk') in Hh as [Hh _]. auto.
Qed.

Lemma run_origin ops :
  forall m m' k v,
    map_inv m -> run ops (Some m) = Some (Some m') ->
    holds (Map.entries m') k (fnv1_hash k) v ->
    holds (Map.entries m) k (fnv1_hash k) v \/ Put (Some k) v ∈ ops.
Proof.
  induction ops as [|o ops IH]; intros m m' k v Hinv Hrun Hh.
  - cbn in Hrun. injection Hrun as <-. auto.
  - cbn [run] in Hrun.
    destruct (run_op o (Some m)) as [s1|] eqn:Hop; [|discriminate].
    cbn [mbind option_bind] in Hrun.
    destruct (run_op_effect o m s1 Hinv Hop) as (m1 & -> & Hinv1 & _).
    destruct (IH m1 m' k v Hinv1 Hrun Hh) as [H1|Hin].
    + destruct (run_op_origin o m m1 k v Hinv Hop H1) as [H0| ->]; [auto|].
      right. apply list_elem_of_here.
    + right. apply list_elem_of_further, Hin.
Qed.

(** X6. [map_get] returns only what was put: when, after [map_init]
    and a sequence of public operations, [map_get] of a key returns a
    value that is not null, the sequence has a put of that key with
    that value. *)
Theorem X6_get_only_what_was_put (s m : map_t) (ops : list op) (k v : string) :
  run ops (map_init (Some s)) = Some (Some m) ->
  map_get (Some m) (Some k) = Some (Some v, Some m) ->
  Put (Some k) (Some v) ∈ ops.
Proof.
  intros Hrun Hget.
  destruct (map_init_inv s _ eq_refl) as (Hinv0 & _).
  cbn [map_init] in Hrun.
  destruct (run_effect ops _ _ Hinv0 Hrun) as (m1 & [= <-] & Hinv & _).
  pose proof (map_get_found m k v _ Hinv Hget) as Hh.
  destruct (run_origin ops _ m k (Some v) Hinv0 Hrun Hh) as [H0|Hin];
    [|exact Hin].
  exfalso. revert H0. apply calloc_holds.
Qed.

(** ** [map_init] *)

(** X7. Whatever the memory held, after [map_init] the map is empty:
    [map_get] returns null for every key, [map_size] returns 0,
    [map_remove] of a key that is not null returns NO_KEY_EXISTS, and
    none of them changes the map. *)
Theorem X7_init_empty (s : map_t) (key : cstr) :
  let m0 := map_init (Some s) in
  map_get m0 key = Some (None, m0) /\
  map_size m0 = (0, m0) /\
  map_remove m0 key =
    Some (match key with Some _ => NO_KEY_EXISTS | None => NULL_POINTER end,
          m0).
Proof.
  destruct (map_init_inv s _ eq_refl) as ((Hmagic & Hwf & _) & _).
  cbn zeta. cbn [map_init] in *.
  split; [|split; [reflexivity|]].
  - destruct key as [k|]; [|reflexivity].
    apply map_get_absent; [exact Hmagic|].
    apply wf_not_holds_absent; [exact Hwf|]. intros v. apply calloc_holds.
  - destruct key as [k|]; [|reflexivity].
    apply map_remove_absent; [exact Hmagic|].
    apply wf_not_holds_absent; [exact Hwf|]. intros v. apply calloc_holds.
Qed.

(** ** [map_set] *)

(** The override flag matters only where the loop meets the key. *)
Lemma map_set_loop_override m k v h mask ov l :
  forall i r m',
    map_set_loop m k v h 0 mask i l = Some (r, m') -> r <> KEY_EXISTS ->
    map_set_loop m k v h ov mask i l = Some (r, m').
Proof.
  induction l as [|l IH]; intros i r m' Hset Hr; [exact Hset|].
  cbn [map_set_loop] in Hset |- *.
  destruct (Map.entries m !! Z.to_nat i) as [e|]; [|discriminate].
  cbn [mbind option_bind] in Hset |- *.
  destruct (Entry.hash e =? 0); [exact Hset|].
  destruct (Entry.hash e =? h); [|apply IH; assumption].
  destruct (Entry.key e) as [ek|]; [|exact Hset].
  destruct (String.eqb ek k); [|apply IH; assumption].
  change (0 =? 0) with true in Hset. cbv iota in Hset.
  injection Hset as <- _. contradiction.
Qed.

Section PresentKey.

Variable n : Z.
Hypothesis Hn : 0 <= n <= 31.
Variable m : map_t.
Variables (k : string) (v : cstr) (h : Z) (ov : Z).
Hypothesis Hnt : no_tombstone_of m h.

(** Where the lookup finds the key, and no tombstone carries the hash,
    the placement loop meets the key at the same slot. *)
Lemma map_set_loop_present l :
  forall i r,
    0 <= i < 2 ^ n ->
    map_indexOf_loop (Map.entries m) k h (u32 (2 ^ n - 1)) i l = Some r ->
    0 <= r ->
    exists e,
      Map.entries m !! Z.to_nat r = Some e /\
      Entry.hash e = h /\ Entry.key e = Some k /\
      map_set_loop m k v h ov (u32 (2 ^ n - 1)) i l =
        Some (if ov =? 0 then (KEY_EXISTS, m) else (OK, replaced m r e v)).
Proof.
  pose proof (pow2_bounds n Hn) as Hb.
  induction l as [|l IH]; intros i r Hi Hidx Hr.
  { cbn in Hidx. injection Hidx as <-. lia. }
  rewrite map_indexOf_loop_S in Hidx. cbn [map_set_loop].
  destruct (Map.entries m !! Z.to_nat i) as [e|] eqn:He; [|discriminate].
  cbn [mbind option_bind] in Hidx |- *.
  destruct (look k h e) eqn:Hl.
  - injection Hidx as <-. lia.
  - injection Hidx as <-. rewrite s32_small by lia.
    apply look_Hit in Hl as (H0 & H1 & H2).
    exists e. split; [exact He|]. split; [exact H1|]. split; [exact H2|].
    destruct (Z.eqb_spec (Entry.hash e) 0); [contradiction|].
    destruct (Z.eqb_spec (Entry.hash e) h); [|contradiction].
    rewrite H2, String.eqb_refl. destruct (ov =? 0); [reflexivity|].
    unfold replaced. rewrite H2. reflexivity.
  - rewrite next_index in Hidx |- * by assumption.
    destruct (IH _ r (index_in_range n Hn _) Hidx Hr) as (e' & He' & Hrest).
    exists e'. split; [exact He'|].
    destruct Hrest as (Hh' & Hk' & Hset). split; [exact Hh'|]. split; [exact Hk'|].
    assert (H0 : Entry.hash e <> 0).
    { intros H0. apply (look_Stop k h) in H0. congruence. }
    destruct (Z.eqb_spec (Entry.hash e) 0); [contradiction|].
    destruct (Z.eqb_spec (Entry.hash e) h) as [Hh|Hh]; [|exact Hset].
    destruct (Entry.key e) as [ek|] eqn:Hek.
    + destruct (String.eqb_spec ek k) as [->|Hne]; [|exact Hset].
      assert (look k h e = Hit) by (apply look_Hit; auto). congruence.
    + exfalso. exact (Hnt (Z.to_nat i) e He Hek Hh).
Qed.

End PresentKey.

Lemma count_full (p : map_entry_t -> bool) es j e :
  count p es = length es -> es !! j = Some e -> p e = true.
Proof.
  revert j. induction es as [|x es IH]; intros j Hc Hj; [discriminate|].
  cbn [count length] in Hc. pose proof (count_le_length p es) as Hle.
  destruct j as [|j]; cbn in Hj.
  - injection Hj as ->. destruct (p e); [reflexivity|lia].
  - apply (IH j); [|exact Hj]. destruct (p x); lia.
Qed.

(** X8. [map_set] on a key the map holds, when no tombstone carries
    the hash (as in a map without tombstones): with [override = 0] it
    returns KEY_EXISTS and the state it was given; with any other
    [override] it returns OK and has replaced the value in the slot of
    the key, and nothing else. *)
Theorem X8_map_set_present (m : map_t) (j : nat) (e : map_entry_t)
    (k : string) (v : cstr) (override : Z) :
  wf m ->
  Map.entries m !! j = Some e -> Entry.key e = Some k ->
  no_tombstone_of m (Entry.hash e) ->
  map_set m k v (Entry.hash e) override =
    Some (if override =? 0 then (KEY_EXISTS, m)
          else (OK, replaced m (Z.of_nat j) e v)).
Proof.
  intros Hwf He Hk Hnt.
  destruct (wf_geometry m Hwf) as (n & Hn & Hcap & Hlen).
  pose proof (wf_placed m Hwf j e k He Hk) as Hidx.
  unfold map_set, map_indexOf in *. rewrite Hcap, start_index in * by lia.
  destruct (map_set_loop_present n ltac:(lia) m k v (Entry.hash e) override Hnt
              (Z.to_nat (2 ^ n)) (Entry.hash e mod 2 ^ n) (Z.of_nat j)
              (index_in_range n ltac:(lia) _) Hidx ltac:(lia))
    as (e' & He' & _ & _ & Hset).
  rewrite Nat2Z.id, He in He'. injection He' as <-. exact Hset.
Qed.

(** X9. [map_set] on a full table: when every slot has been written,
    the key is not in the map and no tombstone carries its hash,
    [map_set] returns REQUIRES_OPTIMIZATION and the state it was
    given, whatever [override] is. *)
Theorem X9_map_set_full (m : map_t) (k : string) (v : cstr) (h override : Z) :
  wf m -> h <> 0 ->
  Map.allocated m = Map.capacity m ->
  map_indexOf m k h = Some (-1) ->
  no_tombstone_of m h ->
  map_set m k v h override = Some (REQUIRES_OPTIMIZATION, m).
Proof.
  intros Hwf Hh Hfull Habs Hnt.
  destruct (wf_geometry m Hwf) as (n & Hn & Hcap & Hlen).
  assert (Hused : forall j e, Map.entries m !! j = Some e -> used e = true).
  { intros j e. apply count_full.
    rewrite (wf_allocated m Hwf), Hcap in Hfull. rewrite Hlen.
    pose proof (pow2_bounds n ltac:(lia)). lia. }
  unfold map_set, map_indexOf in *. rewrite Hcap, start_index in * by lia.
  apply map_set_loop_override; [|discriminate].
  destruct (map_set_loop_cases n ltac:(lia) m Hlen k v h Hh (Z.to_nat (2 ^ n))
              (h mod 2 ^ n) (index_in_range n ltac:(lia) h))
    as [(t & e & _ & He & Hc & _)|[(_ & r & Hr & Hidx)|(Hset & _)]].
  - exfalso. destruct Hc as [H0|[H1 Hk]].
    + pose proof (Hused _ e He) as Hu. unfold used in Hu.
      rewrite H0 in Hu. discriminate.
    + exact (Hnt _ e He Hk H1).
  - rewrite Habs in Hidx. injection Hidx as <-. lia.
  - exact Hset.
Qed.

(** ** A put that does not rehash, and one that does *)

Lemma map_put_no_rehash m k v :
  Map.magic m = MAGIC ->
  map_indexOf m k (fnv1_hash k) = Some (-1) ->
  Map.allocated m < Map.capacity m ->
  map_put (Some m) (Some k) v =
    '(r, m2) ← map_set m k v (fnv1_hash k) 0; Some (r, Some m2).
Proof.
  intros Hmagic Habs Hroom. unfold map_put.
  rewrite (magic_test m Hmagic), Habs. cbn [mbind option_bind].
  change (-1 >=? 0) with false. cbv iota.
  unfold put_optimizes. rewrite Z.geb_leb.
  destruct (Z.leb_spec (Map.capacity m) (Map.allocated m)); [lia|reflexivity].
Qed.

Lemma map_put_OK_absent m k v s' :
  map_inv m -> map_put (Some m) (Some k) v = Some (OK, s') ->
  map_indexOf m k (fnv1_hash k) = Some (-1).
Proof.
  intros (Hmagic & Hwf & _) Hput.
  destruct (wf_indexOf_result m k (fnv1_hash k) Hwf)
    as (i & Hi & [->|(j & e & -> & _)]); [exact Hi|].
  rewrite (map_put_present m k v (Z.of_nat j) Hmagic Hi) in Hput by lia.
  discriminate.
Qed.

(** Where the lookup found the key in [m], and [m1] is [m] with some
    keys nulled, a placement in [m1] reclaims a tombstone. *)
Lemma map_set_loop_reuse m m1 k v h mask l :
  (forall idx e,
     Map.entries m !! idx = Some e ->
     exists e',
       Map.entries m1 !! idx = Some e' /\ Entry.hash e' = Entry.hash e /\
       (Entry.key e' = Entry.key e \/ Entry.key e' = None)) ->
  forall i r m2,
    map_indexOf_loop (Map.entries m) k h mask i l = Some r -> 0 <= r ->
    map_set_loop m1 k v h 0 mask i l = Some (OK, m2) ->
    Map.allocated m2 = Map.allocated m1.
Proof.
  intros Hrel. induction l as [|l IH]; intros i r m2 Hidx Hr Hset.
  { cbn in Hidx. injection Hidx as <-. lia. }
  rewrite map_indexOf_loop_S in Hidx. cbn [map_set_loop] in Hset.
  destruct (Map.entries m !! Z.to_nat i) as [e|] eqn:He; [|discriminate].
  destruct (Hrel _ e He) as (e' & He' & Hhash & Hkey).
  rewrite He' in Hset. cbn [mbind option_bind] in Hidx, Hset.
  rewrite Hhash in Hset.
  destruct (look k h e) eqn:Hl.
  - injection Hidx as <-. lia.
  - apply look_Hit in Hl as (H0 & H1 & H2).
    destruct (Z.eqb_spec (Entry.hash e) 0); [contradiction|].
    destruct (Z.eqb_spec (Entry.hash e) h); [|contradiction].
    destruct Hkey as [Hkey|Hkey]; rewrite Hkey in Hset.
    + rewrite H2, String.eqb_refl in Hset. discriminate.
    + injection Hset as <-. reflexivity.
  - assert (H0 : Entry.hash e <> 0).
    { intros H0. apply (look_Stop k h) in H0. congruence. }
    destruct (Z.eqb_spec (Entry.hash e) 0); [contradiction|].
    destruct (Z.eqb_spec (Entry.hash e) h) as [Hh|Hh];
      [|apply (IH _ r m2 Hidx Hr Hset)].
    destruct (Entry.key e') as [ek|] eqn:Hek.
    + destruct Hkey as [Hkey|Hkey]; [|discriminate].
      destruct (String.eqb_spec ek k) as [->|Hne];
        [|apply (IH _ r m2 Hidx Hr Hset)].
      assert (look k h e = Hit) by (apply look_Hit; auto). congruence.
    + injection Hset as <-. reflexivity.
Qed.

(** X10. A removed key that is put again reclaims a tombstone: on an
    initialized map that has a slot never written, after [map_remove]
    of a key has returned OK, [map_put] of that key returns OK, leaves
    [allocated], [size] and [capacity] as they were before the remove,
    and [map_get] returns the new value. *)
Theorem X10_put_after_remove (m m1 : map_t) (k : string) (v : cstr) :
  initialized m ->
  Map.allocated m < Map.capacity m ->
  map_remove (Some m) (Some k) = Some (OK, Some m1) ->
  exists m2,
    map_put (Some m1) (Some k) v = Some (OK, Some m2) /\
    Map.allocated m2 = Map.allocated m /\
    Map.size m2 = Map.size m /\
    Map.capacity m2 = Map.capacity m /\
    map_get (Some m2) (Some k) = Some (v, Some m2).
Proof.
  intros Hinit Hroom Hrem. pose proof (initialized_inv m Hinit) as Hinv.
  pose proof Hinv as (Hmagic & Hwf & Hhd).
  destruct (wf_indexOf_result m k (fnv1_hash k) Hwf)
    as (i & Hi & [->|(j & e & -> & He & Hh & Hk & _)]).
  { rewrite (map_remove_absent m k Hmagic Hi) in Hrem. discriminate. }
  destruct (map_remove_present m k (Entry.value e) Hinv)
    as (j' & e' & He' & Hk' & Hh' & _ & Hrem' & Hinv1).
  { exists j, e. auto. }
  rewrite Hrem' in Hrem. injection Hrem as <-.
  pose proof Hinv1 as (Hmagic1 & Hwf1 & Hhd1).
  destruct (removed_size m Hwf j' e' k He' Hk') as [Hsize1 _].
  assert (Habs1 : map_indexOf (removed m (Z.of_nat j') e') k (fnv1_hash k)
                  = Some (-1)).
  { apply wf_not_holds_absent; [exact Hwf1|]. intros v' Hv'.
    apply (removed_holds m Hwf j' e' k He' Hk') in Hv' as [_ Hne].
    apply Hne. auto. }
  assert (Hroom1 : Map.allocated (removed m (Z.of_nat j') e')
                   < Map.capacity (removed m (Z.of_nat j') e')) by exact Hroom.
  destruct (map_put_absent _ k v Hinv1 Habs1)
    as [(_ & _ & Hfull)|(m2 & Hput & Hinv2 & Hsize2 & Hholds2 & Hsame & _)];
    [lia|].
  destruct (Hsame Hroom1) as [Hcap2 _].
  exists m2. split; [exact Hput|]. split; [|split; [lia|split; [exact Hcap2|]]].
  - rewrite (map_put_no_rehash _ k v Hmagic1 Habs1 Hroom1) in Hput.
    destruct (map_set _ k v (fnv1_hash k) 0) as [[r m2']|] eqn:Hset;
      [|discriminate].
    cbn [mbind option_bind] in Hput. injection Hput as -> ->.
    unfold map_set in Hset. unfold map_indexOf in Hi.
    change (Map.capacity (removed m (Z.of_nat j') e')) with (Map.capacity m)
      in Hset.
    change (Map.allocated m) with (Map.allocated (removed m (Z.of_nat j') e')).
    refine (map_set_loop_reuse m _ k v _ _ _ _ _ _ _ Hi ltac:(lia) Hset).
    intros idx x Hx. rewrite (removed_entries m j' e').
    destruct (decide (j' = idx)) as [<-|Hne].
    + rewrite He' in Hx. injection Hx as <-.
      eexists. split; [apply list_lookup_insert_eq; eapply lookup_lt_Some, He'|].
      cbn. auto.
    + exists x. rewrite list_lookup_insert_ne by exact Hne. auto.
  - apply map_get_present; [exact Hinv2|]. apply Hholds2. right. auto.
Qed.

(** X11. A put that does not rehash writes one slot: on an initialized
    map that has a slot never written, when [map_put] returns OK it
    has written the entry into one slot that held no key (a slot never
    written, or a tombstone of the same hash), and every other slot,
    and the capacity, is as it was; [allocated] is one more exactly
    when the slot was never written. *)
Theorem X11_put_writes_one_slot (m m' : map_t) (k : string) (v : cstr) :
  initialized m ->
  Map.allocated m < Map.capacity m ->
  map_put (Some m) (Some k) v = Some (OK, Some m') ->
  exists t e,
    Map.entries m !! t = Some e /\ Entry.key e = None /\
    (Entry.hash e = 0 \/ Entry.hash e = fnv1_hash k) /\
    Map.entries m' =
      <[t := {| Entry.hash := fnv1_hash k; Entry.key := Some k;
                Entry.value := v |}]> (Map.entries m) /\
    Map.capacity m' = Map.capacity m /\
    Map.allocated m' =
      Map.allocated m + (if Entry.hash e =? 0 then 1 else 0).
Proof.
  intros Hinit Hroom Hput. pose proof (initialized_inv m Hinit) as Hinv.
  pose proof Hinv as (Hmagic & Hwf & Hhd).
  pose proof (map_put_OK_absent m k v _ Hinv Hput) as Habs.
  destruct (wf_geometry m Hwf) as (n & Hn & Hcap & Hlen).
  destruct (map_set_absent m n ltac:(lia) Hcap (wf_length m Hwf) k v
              (fnv1_hash k) (fnv1_hash_nonzero k) Habs (wf_empty_slot m Hwf Hroom))
    as (t & e & Ht & He & Hc & Hset & _).
  rewrite (map_put_no_rehash m k v Hmagic Habs Hroom), Hset in Hput.
  cbn [mbind option_bind] in Hput. injection Hput as <-.
  exists (Z.to_nat t), e. split; [exact He|].
  split; [apply (claimable_not_live m n ltac:(lia) Hcap (wf_length m Hwf)
                   (wf_placed m Hwf) (fnv1_hash k) _ e He Hc)|].
  split; [destruct Hc as [H0|[H1 _]]; auto|].
  split; [reflexivity|]. split; [reflexivity|].
  unfold placed; cbn [Map.allocated].
  destruct (Entry.hash e =? 0); [|lia].
  rewrite Hcap in Hroom. pose proof (pow2_bounds n ltac:(lia)).
  destruct (wf_capacity_ok m Hwf) as (_ & _ & Hs & _).
  apply u32_small. lia.
Qed.

Lemma count_none (p : map_entry_t -> bool) es j e :
  count p es = O -> es !! j = Some e -> p e = false.
Proof.
  revert j. induction es as [|x es IH]; intros j Hc Hj; [discriminate|].
  cbn [count] in Hc. destruct j as [|j]; cbn in Hj.
  - injection Hj as ->. destruct (p e); [lia|reflexivity].
  - apply (IH j); [lia|exact Hj].
Qed.

(** X12. A put that rehashes: on an initialized map whose slots have
    all been written, when [map_put] returns OK the new capacity is
    the smallest power of two that is at least [size + 8] for the size
    before the put, and less than twice that; the size is one more,
    [allocated] equals it, and no slot is a tombstone. *)
Theorem X12_put_rehashes (m m' : map_t) (k : string) (v : cstr) :
  initialized m ->
  Map.capacity m <= Map.allocated m ->
  map_put (Some m) (Some k) v = Some (OK, Some m') ->
  (is_pow2 (Map.capacity m') /\ Map.size m + 8 <= Map.capacity m' /\
   forall c, is_pow2 c -> Map.size m + 8 <= c -> Map.capacity m' <= c) /\
  Map.capacity m' < 2 * (Map.size m + 8) /\
  Map.size m' = Map.size m + 1 /\
  Map.allocated m' = Map.size m' /\
  (forall j e, Map.entries m' !! j = Some e -> tombstone e = false).
Proof.
  intros Hinit Hfull Hput. pose proof (initialized_inv m Hinit) as Hinv.
  pose proof Hinv as (Hmagic & Hwf & Hhd).
  pose proof (map_put_OK_absent m k v _ Hinv Hput) as Habs.
  destruct (map_put_absent m k v Hinv Habs)
    as [(Hnone & _)|(m1 & Hput' & (_ & Hwf' & _) & Hsize & _ & _ & Hre & _)];
    [congruence|].
  rewrite Hput' in Hput. injection Hput as <-.
  destruct (Hre Hfull) as [Hnew Halloc].
  destruct (wf_min_size m Hwf) as [_ Hs].
  split; [apply new_capacity_least; assumption|].
  split.
  { destruct Hnew as (n & Hn & -> & _ & [->|Hlt]); [lia|].
    replace n with (n - 1 + 1) at 1 by lia.
    rewrite Z.pow_add_r by lia. lia. }
  split; [exact Hsize|]. split; [lia|].
  intros j e He. apply (count_none tombstone (Map.entries m1) j e); [|exact He].
  assert (Hsplit := count_split (Map.entries m1)
                      (fun j e => wf_live_used m1 j e Hwf')).
  rewrite (wf_allocated m1 Hwf') in Halloc.
  rewrite (wf_size m1 Hwf') in Hsize. lia.
Qed.

(** ** How the table grows *)

Lemma pow2_lt_le_half a b :
  0 <= a -> 0 <= b -> 2 ^ b < 2 * 2 ^ a -> 2 ^ b <= 2 ^ a.
Proof.
  intros Ha Hb Hlt. apply Z.pow_le_mono_r; [lia|].
  replace (2 * 2 ^ a) with (2 ^ (a + 1)) in Hlt
    by (rewrite Z.pow_add_r by lia; lia).
  apply Z.pow_lt_mono_r_iff in Hlt; lia.
Qed.

(** Puts of new keys into a map without tombstones whose capacity is 8
    or less than twice its size. *)
Lemma put_all_grow kvs :
  forall m,
    map_inv m -> clean m ->
    (Map.capacity m = 8 \/ Map.capacity m < 2 * Map.size m) ->
    Map.size m + Z.of_nat (length kvs) <= 2 ^ 27 ->
    NoDup (kvs.*1) ->
    (forall k v, k ∈ kvs.*1 -> ~ holds (Map.entries m) k (fnv1_hash k) v) ->
    exists m',
      put_all kvs (Some m) = Some (replicate (length kvs) OK, Some m') /\
      map_inv m' /\ clean m' /\
      (Map.capacity m' = 8 \/ Map.capacity m' < 2 * Map.size m') /\
      Map.size m' = Map.size m + Z.of_nat (length kvs) /\
      (forall k v,
         holds (Map.entries m') k (fnv1_hash k) v <->
         holds (Map.entries m) k (fnv1_hash k) v \/ (k, v) ∈ kvs).
Proof.
  induction kvs as [|[k v] kvs IH]; intros m Hinv Hclean Hload Hroom Hnd Hnew.
  { exists m. cbn [put_all length replicate].
    split; [reflexivity|]. split; [exact Hinv|]. split; [exact Hclean|].
    split; [exact Hload|]. split; [lia|].
    intros k v. split; [auto|]. intros [H|H]; [exact H|].
    apply elem_of_nil in H. contradiction. }
  cbn [fmap list_fmap fst] in Hnd. apply NoDup_cons in Hnd as [Hk Hnd].
  cbn [length] in Hroom. pose proof Hinv as (Hmagic & Hwf & Hhd).
  destruct (wf_geometry m Hwf) as (n & Hn & Hcap & _).
  destruct (wf_capacity_ok m Hwf) as (_ & _ & Hs & Ha).
  pose proof (clean_allocated m Hwf Hclean) as Halloc.
  assert (Habs : map_indexOf m k (fnv1_hash k) = Some (-1)).
  { apply wf_not_holds_absent; [exact Hwf|]. intros v'.
    apply Hnew. cbn. apply elem_of_cons. left. reflexivity. }
  destruct (map_put_absent m k v Hinv Habs)
    as [(_ & Hnofit & Hfull)
       |(m1 & Hput & Hinv1 & Hsize1 & Hholds1 & Hsame & Hre & Hclean1)].
  { exfalso. apply Hnofit. unfold fits. change MIN_EMPTY_SLOTS with 8.
    assert (Hlt : 2 ^ n < 2 ^ 27) by lia.
    apply Z.pow_lt_mono_r_iff in Hlt; [|lia|lia].
    assert (2 ^ n <= 2 ^ 26) by (apply Z.pow_le_mono_r; lia). lia. }
  assert (Hload1 : Map.capacity m1 = 8 \/ Map.capacity m1 < 2 * Map.size m1).
  { destruct (Z.lt_ge_cases (Map.allocated m) (Map.capacity m)) as [Hlt|Hge].
    - destruct (Hsame Hlt) as [-> _]. lia.
    - destruct (Hre Hge) as [(n' & Hn' & -> & _ & [->|Hhalf]) _]; [auto|].
      right. assert (Hsz : Map.size m = 2 ^ n) by lia.
      assert (H8 : 2 ^ 3 <= 2 ^ n) by (apply Z.pow_le_mono_r; lia).
      assert (Hle : 2 ^ (n' - 1) <= 2 ^ n).
      { apply pow2_lt_le_half; lia. }
      replace n' with (n' - 1 + 1) at 1 by lia.
      rewrite Z.pow_add_r by lia. lia. }
  destruct (IH m1) as (m' & Hall & Hinv' & Hclean' & Hload' & Hsize' & Hholds');
    [exact Hinv1|auto|exact Hload1|lia|exact Hnd| |].
  { intros k' v' Hk' Hh'. apply Hholds1 in Hh' as [Hh'|(-> & _)].
    - revert Hh'. apply Hnew. cbn. apply elem_of_cons. right. exact Hk'.
    - contradiction. }
  exists m'. cbn [put_all length replicate]. rewrite Hput.
  cbn [mbind option_bind]. rewrite Hall. cbn [mbind option_bind].
  split; [reflexivity|]. split; [exact Hinv'|]. split; [exact Hclean'|].
  split; [exact Hload'|]. split; [lia|].
  intros k' v'. rewrite Hholds', Hholds1, elem_of_cons. split.
  - intros [[H|(-> & _ & ->)]|H]; auto.
  - intros [H|[[= -> ->]|H]]; auto.
Qed.

(** X13. The table doubles only when it is full: from a freshly
    initialized map, puts of pairwise different keys, at most 2^27 of
    them, all return OK; afterwards the size is their number, every
    key is found with its value, and the capacity is the smallest
    power of two that is at least 8 and at least their number. *)
Theorem X13_growth (s : map_t) (kvs : list (string * cstr)) :
  Z.of_nat (length kvs) <= 2 ^ 27 ->
  NoDup (kvs.*1) ->
  exists m',
    put_all kvs (map_init (Some s)) = Some (replicate (length kvs) OK, Some m') /\
    Map.size m' = Z.of_nat (length kvs) /\
    (forall k v,
       (k, v) ∈ kvs -> map_get (Some m') (Some k) = Some (v, Some m')) /\
    is_pow2 (Map.capacity m') /\ 8 <= Map.capacity m' /\
    Z.of_nat (length kvs) <= Map.capacity m' /\
    forall c, is_pow2 c -> 8 <= c -> Z.of_nat (length kvs) <= c ->
              Map.capacity m' <= c.
Proof.
  intros Hlen Hnd.
  destruct (map_init_inv s _ eq_refl) as (Hinv0 & Hclean0 & Hcap0 & Hsize0 & _).
  cbn [map_init] in *.
  destruct (put_all_grow kvs _ Hinv0 Hclean0)
    as (m' & Hall & Hinv' & _ & Hload & Hsize' & Hholds');
    [auto|lia|exact Hnd|intros k v _; apply calloc_holds|].
  rewrite Hsize0 in Hsize'. cbn in Hsize'.
  exists m'. split; [exact Hall|]. split; [lia|].
  destruct Hinv' as (Hmagic' & Hwf' & Hhd').
  split.
  { intros k v Hkv. apply map_get_present; [exact (conj Hmagic' (conj Hwf' Hhd'))|].
    apply Hholds'. right. exact Hkv. }
  destruct (wf_capacity_ok m' Hwf') as (Hp & H8 & Hs & Ha).
  split; [exact Hp|]. split; [exact H8|]. split; [lia|].
  intros c (a & Ha0 & ->) Hc8 HcN.
  destruct Hload as [->|Hlt]; [exact Hc8|].
  destruct Hp as (b & Hb0 & Hb). rewrite Hb in *.
  apply pow2_lt_le_half; lia.
Qed.

(** ** The hash and the slot a probe starts at *)

Lemma fnv1_spec_raw text : fnv1_spec text = set_sign_bit (fnv1_raw text).
Proof. reflexivity. Qed.

(** X14. Setting the sign bit does not move a key: the slot at which
    [map_set] and [map_indexOf] start to probe, [hash & (capacity - 1)]
    for a capacity [2^n] of at most 2^31, is given by the low [n] bits
    of the hash as it was before the sign bit was set. *)
Theorem X14_start_slot (text : string) (n : Z) :
  0 <= n <= 31 ->
  u32 (Z.land (fnv1_hash text) (u32 (2 ^ n - 1))) = fnv1_raw text mod 2 ^ n.
Proof.
  intros Hn. rewrite start_index by exact Hn.
  rewrite fnv1_hash_spec, fnv1_spec_raw. unfold set_sign_bit.
  destruct (fnv1_raw text <? 0); [reflexivity|].
  replace (fnv1_raw text - 2 ^ 63)
    with (fnv1_raw text + (- 2 ^ (63 - n)) * 2 ^ n).
  - apply Z_mod_plus_full.
  - replace (2 ^ 63) with (2 ^ (63 - n) * 2 ^ n); [lia|].
    rewrite <- Z.pow_add_r by lia. f_equal. lia.
Qed.

Lemma text_bytes_nul s t :
  text_bytes (String.append s (String Ascii.zero t)) = text_bytes s.
Proof.
  induction s as [|a s IH]; [reflexivity|].
  change (text_bytes (String.append (String a s) (String Ascii.zero t)))
    with (let b := Z.of_N (N_of_ascii a) in
          if b =? 0 then []
          else b :: text_bytes (String.append s (String Ascii.zero t))).
  change (text_bytes (String a s))
    with (let b := Z.of_N (N_of_ascii a) in
          if b =? 0 then [] else b :: text_bytes s).
  cbv zeta. rewrite IH. reflexivity.
Qed.

(** X15. [fnv1_hash] reads up to the first NUL: what follows it in
    memory does not change the hash. *)
Theorem X15_hash_stops_at_nul (s t : string) :
  fnv1_hash (String.append s (String Ascii.zero t)) = fnv1_hash s.
Proof.
  rewrite !fnv1_hash_spec. unfold fnv1_spec. rewrite text_bytes_nul.
  reflexivity.
Qed.

(** ** The internal operations on any state *)

Lemma map_set_loop_frame m k v h ov mask l :
  forall i r m',
    map_set_loop m k v h ov mask i l = Some (r, m') ->
    (r = OK \/ r = KEY_EXISTS \/ r = REQUIRES_OPTIMIZATION) /\
    Map.magic m' = Map.magic m /\ Map.capacity m' = Map.capacity m /\
    length (Map.entries m') = length (Map.entries m) /\
    (r <> OK -> m' = m).
Proof.
  induction l as [|l IH]; intros i r m' Hset.
  { cbn in Hset. injection Hset as <- <-. auto 10. }
  cbn [map_set_loop] in Hset.
  destruct (Map.entries m !! Z.to_nat i) as [e|]; [|discriminate].
  cbn [mbind option_bind] in Hset.
  destruct (Entry.hash e =? 0).
  { injection Hset as <- <-. cbn. rewrite length_insert.
    split; [auto|]. repeat split; auto. contradiction. }
  destruct (Entry.hash e =? h); [|apply (IH _ _ _ Hset)].
  destruct (Entry.key e) as [ek|].
  - destruct (String.eqb ek k); [|apply (IH _ _ _ Hset)].
    destruct (ov =? 0).
    + injection Hset as <- <-. auto 10.
    + injection Hset as <- <-. cbn. rewrite length_insert.
      split; [auto|]. repeat split; auto. contradiction.
  - injection Hset as <- <-. cbn. rewrite length_insert.
    split; [auto|]. repeat split; auto. contradiction.
Qed.

(** X16. [map_set], on any state: the code it returns is OK,
    KEY_EXISTS or REQUIRES_OPTIMIZATION; it never changes the magic
    tag, the capacity or the length of the slot array; and when it
    does not return OK it has changed nothing. *)
Theorem X16_map_set_frame (m m' : map_t) (k : string) (v : cstr)
    (h override : Z) (r : status) :
  map_set m k v h override = Some (r, m') ->
  (r = OK \/ r = KEY_EXISTS \/ r = REQUIRES_OPTIMIZATION) /\
  Map.magic m' = Map.magic m /\ Map.capacity m' = Map.capacity m /\
  length (Map.entries m') = length (Map.entries m) /\
  (r <> OK -> m' = m).
Proof. unfold map_set. apply map_set_loop_frame. Qed.

(** X17. [map_indexOf] on an initialized map, for a key and its hash:
    when a slot holds the key it returns the index of that slot, which
    is below the capacity; when none does it returns -1. *)
Theorem X17_indexOf_result (m : map_t) (k : string) :
  initialized m ->
  (forall j e,
     Map.entries m !! j = Some e -> Entry.key e = Some k ->
     map_indexOf m k (fnv1_hash k) = Some (Z.of_nat j) /\
     Z.of_nat j < Map.capacity m) /\
  (~ contains m k -> map_indexOf m k (fnv1_hash k) = Some (-1)).
Proof.
  intros Hinit. destruct (initialized_inv m Hinit) as (_ & Hwf & Hhd). split.
  - intros j e He Hk. split.
    + rewrite <- (Hhd j e k He Hk). apply (wf_placed m Hwf j e k He Hk).
    + apply lookup_lt_Some in He. rewrite (wf_length m Hwf) in He.
      destruct (wf_capacity_ok m Hwf) as (_ & H8 & _). lia.
  - intros Hno. apply wf_not_holds_absent; [exact Hwf|].
    intros v Hv. apply Hno. exists (fnv1_hash k), v. exact Hv.
Qed.

(** X18. The doubling loop of [map_optimize]: for a minimum of at most
    2^31 it ends with the smallest power of two that is at least 8 and
    at least the minimum; for a larger minimum the [unsigned int]
    wraps to 0 and the loop never ends. *)
Theorem X18_doubling_loop (minNewSize : Z) :
  0 < minNewSize ->
  (minNewSize <= 2 ^ 31 ->
   exists c,
     grow 32 MIN_EMPTY_SLOTS minNewSize = Some c /\
     is_pow2 c /\ 8 <= c /\ minNewSize <= c /\
     forall c', is_pow2 c' -> 8 <= c' -> minNewSize <= c' -> c <= c') /\
  (2 ^ 31 < minNewSize ->
   forall fuel, grow fuel MIN_EMPTY_SLOTS minNewSize = None).
Proof.
  intros Hpos. rewrite MIN_EMPTY_SLOTS_eq. split.
  - intros Hle.
    assert (Hsome : exists c, grow 32 (2 ^ 3) minNewSize = Some c).
    { apply grow_fits; [lia|exact Hle|lia]. }
    destruct Hsome as [c Hc]. exists c. split; [exact Hc|].
    apply grow_pow2 in Hc as (n & Hn & -> & Hge & Hleast); [|lia|lia|auto].
    split; [exists n; split; [lia|reflexivity]|].
    split; [change 8 with (2 ^ 3); apply Z.pow_le_mono_r; lia|].
    split; [exact Hge|].
    intros c' (a & Ha & ->) H8 Hmin.
    destruct Hleast as [->|Hlt]; [exact H8|].
    apply Z.pow_le_mono_r; [lia|].
    assert (Hlt' : 2 ^ (n - 1) < 2 ^ a) by lia.
    apply Z.pow_lt_mono_r_iff in Hlt'; lia.
  - intros Hgt fuel.
    destruct (grow fuel (2 ^ 3) minNewSize) as [c|] eqn:Hg; [|reflexivity].
    apply grow_pow2 in Hg as (n & Hn & -> & Hmin & _); [|lia|lia|auto].
    assert (2 ^ n <= 2 ^ 31) by (apply Z.pow_le_mono_r; lia). lia.
Qed.

(** ** The worked example, continued *)

Lemma demo8_initialized : initialized demo8.
Proof.
  apply (initialized_run demo_puts demo0);
    [exact demo0_initialized|vm_compute; reflexivity].
Qed.

Lemma demo8_wf : wf demo8.
Proof. apply (initialized_inv demo8 demo8_initialized). Qed.

Lemma demo8_no_tombstone h : no_tombstone_of demo8 h.
Proof.
  intros j e Hj Hk.
  do 8 (destruct j as [|j]; [injection Hj as <-; discriminate Hk|]).
  discriminate Hj.
Qed.

Lemma X1_witness :
  fits demo0 /\
  ((~ contains demo0 "a" /\
    exists m',
      map_put (Some demo0) (Some "a"%string) (Some "1"%string)
        = Some (OK, Some m') /\
      Map.size m' = Map.size demo0 + 1) \/
   (contains demo0 "a" /\
    map_put (Some demo0) (Some "a"%string) (Some "1"%string)
      = Some (KEY_EXISTS, Some demo0))).
Proof.
  assert (Hfits : fits demo0) by (vm_compute; discriminate).
  split; [exact Hfits|].
  apply (X1_put_result demo0 "a" (Some "1"%string) demo0_initialized Hfits).
Defined.

Lemma X2_witness :
  map_put (Some demo1) (Some "b"%string) (Some "2"%string)
    = Some (OK, Some (state_of (run [Put (Some "b"%string) (Some "2"%string)]
                                   (Some demo1)))) /\
  map_get (Some (state_of (run [Put (Some "b"%string) (Some "2"%string)]
                              (Some demo1)))) (Some "a"%string)
    = Some (Some "1"%string,
            Some (state_of (run [Put (Some "b"%string) (Some "2"%string)]
                              (Some demo1)))).
Proof.
  assert (Hput : map_put (Some demo1) (Some "b"%string) (Some "2"%string)
                 = Some (OK, Some (state_of
                      (run [Put (Some "b"%string) (Some "2"%string)]
                         (Some demo1))))) by (vm_compute; reflexivity).
  split; [exact Hput|].
  apply (X2_put_frame demo1 _ "b" "a" (Some "2"%string) (Some "1"%string)
           demo1_initialized Hput); [discriminate|vm_compute; reflexivity].
Defined.

Lemma X3_witness :
  map_optimize demo2 = Some (OK, demo3) /\
  map_get (Some demo3) (Some "c"%string) = Some (Some "3"%string, Some demo3) /\
  fst (map_size (Some demo3)) = fst (map_size (Some demo2)).
Proof.
  assert (Hopt : map_optimize demo2 = Some (OK, demo3))
    by (vm_compute; reflexivity).
  split; [exact Hopt|].
  apply (X3_optimize_invisible demo2 demo3 (Some "c"%string) (Some "3"%string)
           demo2_initialized Hopt).
  vm_compute. reflexivity.
Defined.

Lemma X4_witness :
  Map.size demo2 < 2 ^ 31 /\
  NoDup (keys demo2) /\
  (forall k, k ∈ keys demo2 <-> contains demo2 k) /\
  map_size (Some demo2) = (Z.of_nat (length (keys demo2)), Some demo2).
Proof.
  assert (Hsmall : Map.size demo2 < 2 ^ 31) by reflexivity.
  split; [exact Hsmall|].
  apply (X4_size_counts_keys demo2 demo2_initialized Hsmall).
Defined.

Lemma X5_witness :
  Map.allocated demo2 - Map.size demo2 = 1 /\
  Map.allocated demo2 - Map.size demo2
    = Z.of_nat (count tombstone (Map.entries demo2)).
Proof.
  split; [reflexivity|].
  apply (X5_tombstone_count demo2 demo2_initialized).
Defined.

Lemma X6_witness :
  run (Put (Some "a"%string) (Some "1"%string) :: demo_ops)
    (map_init (Some blank)) = Some (Some demo2) /\
  map_get (Some demo2) (Some "c"%string) = Some (Some "3"%string, Some demo2) /\
  Put (Some "c"%string) (Some "3"%string)
    ∈ Put (Some "a"%string) (Some "1"%string) :: demo_ops.
Proof.
  assert (Hrun : run (Put (Some "a"%string) (Some "1"%string) :: demo_ops)
                   (map_init (Some blank)) = Some (Some demo2))
    by (vm_compute; reflexivity).
  assert (Hget : map_get (Some demo2) (Some "c"%string)
                 = Some (Some "3"%string, Some demo2))
    by (vm_compute; reflexivity).
  split; [exact Hrun|]. split; [exact Hget|].
  apply (X6_get_only_what_was_put blank demo2 _ "c" "3" Hrun Hget).
Defined.

Lemma X8_witness :
  Map.entries demo8 !! 4%nat
    = Some {| Entry.hash := fnv1_hash "a"; Entry.key := Some "a"%string;
              Entry.value := Some "1"%string |} /\
  map_set demo8 "a" (Some "x"%string) (fnv1_hash "a") 0
    = Some (KEY_EXISTS, demo8) /\
  exists m',
    map_set demo8 "a" (Some "x"%string) (fnv1_hash "a") 1 = Some (OK, m') /\
    Map.entries m' !! 4%nat
      = Some {| Entry.hash := fnv1_hash "a"; Entry.key := Some "a"%string;
                Entry.value := Some "x"%string |}.
Proof.
  assert (He : Map.entries demo8 !! 4%nat
               = Some {| Entry.hash := fnv1_hash "a";
                         Entry.key := Some "a"%string;
                         Entry.value := Some "1"%string |})
    by (vm_compute; reflexivity).
  split; [exact He|]. split.
  - apply (X8_map_set_present demo8 4 _ "a" (Some "x"%string) 0 demo8_wf He
             eq_refl (demo8_no_tombstone _)).
  - eexists. split.
    + apply (X8_map_set_present demo8 4 _ "a" (Some "x"%string) 1 demo8_wf He
               eq_refl (demo8_no_tombstone _)).
    + vm_compute. reflexivity.
Defined.

Lemma X9_witness :
  Map.allocated demo8 = Map.capacity demo8 /\
  map_indexOf demo8 "i" (fnv1_hash "i") = Some (-1) /\
  map_set demo8 "i" (Some "9"%string) (fnv1_hash "i") 0
    = Some (REQUIRES_OPTIMIZATION, demo8).
Proof.
  assert (Hfull : Map.allocated demo8 = Map.capacity demo8) by reflexivity.
  assert (Habs : map_indexOf demo8 "i" (fnv1_hash "i") = Some (-1))
    by (vm_compute; reflexivity).
  split; [exact Hfull|]. split; [exact Habs|].
  apply (X9_map_set_full demo8 "i" (Some "9"%string) (fnv1_hash "i") 0
           demo8_wf (fnv1_hash_nonzero "i") Hfull Habs (demo8_no_tombstone _)).
Defined.

Lemma X10_witness :
  map_remove (Some demo1) (Some "a"%string) = Some (OK, Some demo1r) /\
  Map.allocated demo1r = 1 /\ Map.size demo1r = 0 /\
  exists m2,
    map_put (Some demo1r) (Some "a"%string) (Some "2"%string)
      = Some (OK, Some m2) /\
    Map.allocated m2 = Map.allocated demo1 /\
    Map.size m2 = Map.size demo1 /\
    Map.capacity m2 = Map.capacity demo1 /\
    map_get (Some m2) (Some "a"%string) = Some (Some "2"%string, Some m2).
Proof.
  assert (Hrem : map_remove (Some demo1) (Some "a"%string)
                 = Some (OK, Some demo1r)) by (vm_compute; reflexivity).
  split; [exact Hrem|]. split; [reflexivity|]. split; [reflexivity|].
  apply (X10_put_after_remove demo1 demo1r "a" (Some "2"%string)
           demo1_initialized); [reflexivity|exact Hrem].
Defined.

Lemma X11_witness :
  Map.allocated demo0 < Map.capacity demo0 /\
  map_put (Some demo0) (Some "a"%string) (Some "1"%string)
    = Some (OK, Some demo1) /\
  exists t e,
    Map.entries demo0 !! t = Some e /\ Entry.key e = None /\
    (Entry.hash e = 0 \/ Entry.hash e = fnv1_hash "a") /\
    Map.entries demo1 =
      <[t := {| Entry.hash := fnv1_hash "a"; Entry.key := Some "a"%string;
                Entry.value := Some "1"%string |}]> (Map.entries demo0) /\
    Map.capacity demo1 = Map.capacity demo0 /\
    Map.allocated demo1 =
      Map.allocated demo0 + (if Entry.hash e =? 0 then 1 else 0).
Proof.
  assert (Hroom : Map.allocated demo0 < Map.capacity demo0) by reflexivity.
  assert (Hput : map_put (Some demo0) (Some "a"%string) (Some "1"%string)
                 = Some (OK, Some demo1)) by (vm_compute; reflexivity).
  split; [exact Hroom|]. split; [exact Hput|].
  apply (X11_put_writes_one_slot demo0 demo1 "a" (Some "1"%string)
           demo0_initialized Hroom Hput).
Defined.

Lemma X12_witness :
  Map.capacity demo8 <= Map.allocated demo8 /\
  map_put (Some demo8) (Some "i"%string) (Some "9"%string)
    = Some (OK, Some demo10) /\
  Map.capacity demo10 = 16 /\
  Map.size demo10 = Map.size demo8 + 1 /\
  Map.allocated demo10 = Map.size demo10 /\
  (forall j e, Map.entries demo10 !! j = Some e -> tombstone e = false).
Proof.
  assert (Hfull : Map.capacity demo8 <= Map.allocated demo8)
    by (vm_compute; discriminate).
  assert (Hput : map_put (Some demo8) (Some "i"%string) (Some "9"%string)
                 = Some (OK, Some demo10)) by (vm_compute; reflexivity).
  destruct (X12_put_rehashes demo8 demo10 "i" (Some "9"%string)
              demo8_initialized Hfull Hput) as (_ & _ & Hsize & Halloc & Hclean).
  split; [exact Hfull|]. split; [exact Hput|]. split; [reflexivity|].
  split; [exact Hsize|]. split; [exact Halloc|exact Hclean].
Defined.

Lemma X13_witness :
  exists m',
    put_all (demo_kvs ++ [("i"%string, Some "9"%string)])
      (map_init (Some blank)) = Some (replicate 9 OK, Some m') /\
    Map.size m' = 9 /\ Map.capacity m' = 16.
Proof.
  destruct (X13_growth blank (demo_kvs ++ [("i"%string, Some "9"%string)]))
    as (m' & Hall & Hsize & _ & _ & _ & _ & _).
  - vm_compute. discriminate.
  - apply (bool_decide_unpack _). vm_compute. exact I.
  - exists m'. split; [exact Hall|]. split; [exact Hsize|].
    revert Hall. vm_compute. intros [= <-]. reflexivity.
Defined.

Lemma X14_witness :
  u32 (Z.land (fnv1_hash "a") (u32 (2 ^ 3 - 1))) = fnv1_raw "a" mod 2 ^ 3.
Proof. apply (X14_start_slot "a" 3). lia. Defined.

Lemma X16_witness :
  map_set demo8 "i" (Some "9"%string) (fnv1_hash "i") 0
    = Some (REQUIRES_OPTIMIZATION, demo8) /\
  (REQUIRES_OPTIMIZATION <> OK -> demo8 = demo8).
Proof.
  assert (Hset : map_set demo8 "i" (Some "9"%string) (fnv1_hash "i") 0
                 = Some (REQUIRES_OPTIMIZATION, demo8))
    by (vm_compute; reflexivity).
  split; [exact Hset|].
  apply (X16_map_set_frame demo8 demo8 "i" (Some "9"%string) (fnv1_hash "i") 0
           REQUIRES_OPTIMIZATION Hset).
Defined.

Lemma X17_witness :
  map_indexOf demo2 "c" (fnv1_hash "c") = Some 2 /\
  map_indexOf demo2 "b" (fnv1_hash "b") = Some (-1).
Proof.
  destruct (X17_indexOf_result demo2 "c" demo2_initialized) as [Hfound _].
  destruct (X17_indexOf_result demo2 "b" demo2_initialized) as [_ Habsent].
  split.
  - apply (Hfound 2%nat
             {| Entry.hash := fnv1_hash "c"; Entry.key := Some "c"%string;
                Entry.value := Some "3"%string |});
      [vm_compute; reflexivity|reflexivity].
  - apply Habsent. intros (h & v & j & e & Hj & _ & Hk & _).
    do 8 (destruct j as [|j]; [injection Hj as <-; discriminate Hk|]).
    discriminate Hj.
Defined.

Lemma X18_witness :
  (exists c, grow 32 MIN_EMPTY_SLOTS 10 = Some c /\ c = 16) /\
  (forall fuel, grow fuel MIN_EMPTY_SLOTS (2 ^ 31 + 8) = None).
Proof.
  split.
  - exists 16. split; reflexivity.
  - apply (X18_doubling_loop (2 ^ 31 + 8)); lia.
Defined.

Lemma X19_witness :
  fits demo2 /\ exists m', map_optimize demo2 = Some (OK, m').
Proof.
  assert (Hfits : fits demo2) by (vm_compute; discriminate).
  split; [exact Hfits|].
  destruct (X19_optimize_within_limit demo2 demo2_wf) as (_ & Hok & _).
  exact (Hok Hfits).
Defined.

(* ================================================================== *)
(** * The limit of the rehash *)

Lemma put_all_initialized kvs :
  forall m rs s',
    initialized m -> put_all kvs (Some m) = Some (rs, s') ->
    exists m', s' = Some m' /\ initialized m'.
Proof.
  induction kvs as [|[k v] kvs IH]; intros m rs s' Hinit Hall;
    cbn [put_all] in Hall.
  { injection Hall as <- <-. exists m. auto. }
  destruct (map_put (Some m) (Some k) v) as [[r s1]|] eqn:Hput; [|discriminate].
  cbn [mbind option_bind] in Hall.
  destruct (put_all kvs s1) as [[rs' s2]|] eqn:Hrest; [|discriminate].
  cbn [mbind option_bind] in Hall. injection Hall as <- <-.
  assert (Hop : run_op (Put (Some k) v) (Some m) = Some s1).
  { cbn [run_op]. rewrite Hput. reflexivity. }
  destruct (run_op_effect _ m s1 (initialized_inv m Hinit) Hop)
    as (m1 & -> & _).
  apply (IH m1 rs' s2); [|exact Hrest].
  exact (initialized_step _ m m1 Hinit Hop).
Qed.

Lemma full_kvs_length : Z.of_nat (length full_kvs) = 2 ^ 27.
Proof.
  unfold full_kvs. rewrite length_fmap, length_seqZ, Z2Nat.id; lia.
Qed.

Lemma full_kvs_NoDup : NoDup (full_kvs.*1).
Proof.
  unfold full_kvs. rewrite <- list_fmap_compose.
  apply NoDup_fmap_2; [|apply NoDup_seqZ].
  intros x y H. exact (inj pretty x y H).
Qed.

(** The puts of [full_kvs] all return OK and leave [full_map], an
    initialized map of 2^27 keys. *)
Lemma full_map_reached :
  put_all full_kvs (map_init (Some blank))
    = Some (replicate (length full_kvs) OK, Some full_map) /\
  initialized full_map /\ Map.size full_map = 2 ^ 27.
Proof.
  unfold full_map.
  destruct (map_init (Some blank)) as [m0|] eqn:Hm0;
    [|cbn [map_init] in Hm0; discriminate].
  destruct (map_init_inv blank m0 Hm0) as (Hinv0 & Hclean0 & Hcap0 & Hsize0 & _).
  pose proof full_kvs_length as Hlen.
  destruct (put_all_grow full_kvs m0 Hinv0 Hclean0)
    as (m' & Hall & _ & _ & _ & Hsize' & _);
    [auto|lia|exact full_kvs_NoDup| |].
  { intros k v _ Hh. apply (wf_absent_not_holds m0 k (fnv1_hash k) v);
      [apply Hinv0| |exact Hh].
    apply wf_not_holds_absent; [apply Hinv0|].
    injection Hm0 as <-. intros v'. apply calloc_holds. }
  rewrite Hall. cbn [fmap option_fmap option_map snd state_of].
  split; [reflexivity|]. split; [|lia].
  destruct (put_all_initialized full_kvs m0 _ _
              (initialized_init blank m0 Hm0) Hall) as (m1 & [= <-] & Hinit).
  exact Hinit.
Qed.

Lemma map_optimize_overflow m :
  initialized m -> Map.size m = 2 ^ 27 ->
  wf m /\ map_optimize m = None /\
  ~ (forall m, wf m -> exists m', map_optimize m = Some (OK, m')).
Proof.
  intros Hinit Hsize. destruct (initialized_inv m Hinit) as (_ & Hwf & _).
  assert (Hnone : map_optimize m = None).
  { apply (map_optimize_beyond m Hwf).
    unfold fits. change MIN_EMPTY_SLOTS with 8. lia. }
  split; [exact Hwf|]. split; [exact Hnone|].
  intros Hall. destruct (Hall m Hwf) as [m' Hm']. congruence.
Qed.

(** C5. [map_optimize] does not return OK for every state that
    satisfies the invariants of the data model. After the puts of 2^27
    different keys into a freshly initialized map, which all return OK,
    the invariants hold and the size is 2^27; [map_optimize] then asks
    for [24 * 2^28] bytes, which is 2^31 in [unsigned int] and holds
    fewer slots than the map has keys, and its re-insertion leaves the
    array: the call has no result. *)
Theorem C5_optimize_overflow :
  put_all full_kvs (map_init (Some blank))
    = Some (replicate (length full_kvs) OK, Some full_map) /\
  initialized full_map /\ wf full_map /\ Map.size full_map = 2 ^ 27 /\
  map_optimize full_map = None /\
  ~ (forall m, wf m -> exists m', map_optimize m = Some (OK, m')).
Proof.
  destruct full_map_reached as (Hall & Hinit & Hsize).
  destruct (map_optimize_overflow full_map Hinit Hsize) as (Hwf & Hnone & Hneg).
  exact (conj Hall (conj Hinit (conj Hwf (conj Hsize (conj Hnone Hneg))))).
Qed.
